(** * A shallow embedding of the spreadsheet engine (cell.cpp, formula.cpp,
      sheet.cpp) and the properties of its update protocol.

    Layout of the development:
    - [Position], [Size], the sentinels and the error kinds of common.h;
    - the formula layer consumed through [FormulaAPI] (FormulaAST.h);
    - [Cell] and its [Impl] variants (cell.cpp), [Formula] (formula.cpp);
    - [DependencyGraph] and its operations (sheet.cpp, lines 16-126);
    - [Sheet] and its operations (sheet.cpp, lines 128-318), written in a
      small state-and-error monad: a call returns, throws, or leaves
      defined behaviour;
    - a sample formula layer and the scenarios that run on it;
    - the predicates the theorems are stated with, [PrintValues]
      (sheet.cpp, lines 265-281) and further scenarios;
    - the theorems: the graph, the phases of SetCell, the invariant of the
      reachable sheets, the claims C5 to C9, the caches that SetCell
      empties, and the places where the code leaves the specified
      behaviour (C1 to C4, C10);
    - further properties of the code (X1 to X30): the graph and its
      search for a cycle, errors, round trips and frames of the public
      operations, the printed tables, references and values. *)

From Stdlib Require Import ZArith String Ascii List Floats.PrimFloat Lia.
From Stdlib Require Import Sorted.
From Stdlib Require DecimalString.
From stdpp Require Import gmap list.

Local Open Scope Z_scope.
Set Warnings "-clear-no-such-hyp".

(* ===================================================================== *)
(** ** common.h: positions, sizes, sentinels, error kinds                 *)
(* ===================================================================== *)

Module Common.

(** Modelled from the spec: common.h is not among the sources.  A
    position is the pair (row, col) of the data model; sheet.cpp reads the
    two fields as [int]s.  Every position the sheet stores has passed
    [IsValid], so the values stay far from the limits of [int] and are
    modelled as [Z]. *)
Record Position : Type := mkPos { row : Z; col : Z }.

(** Modelled from the spec: the data model gives the bounds of the grid
    as 16384 x 16384. *)
Definition MAX_ROWS : Z := 16384.
Definition MAX_COLS : Z := 16384.

(** Modelled from the spec: [Position::IsValid], "0 <= row < MAX_ROWS and
    0 <= col < MAX_COLS". *)
Definition IsValid (p : Position) : bool :=
  (0 <=? row p) && (row p <? MAX_ROWS) && (0 <=? col p) && (col p <? MAX_COLS).

#[global] Instance Position_eq_dec : EqDecision Position.
Proof. solve_decision. Defined.

#[global] Instance Position_countable : Countable Position.
Proof.
  refine (inj_countable' (fun p => (row p, col p))
                         (fun rc => mkPos (fst rc) (snd rc)) _).
  intros []; reflexivity.
Defined.

(** Modelled from the spec: [Size{rows, cols}] of the printable region,
    (0, 0) in a new sheet; sheet.cpp reads the two fields as [int]s. *)
Record Size : Type := mkSize { rows : Z; cols : Z }.

(** Modelled from the spec: the two sentinels of section 6. *)
Definition FORMULA_SIGN : ascii := "="%char.
Definition ESCAPE_SIGN : ascii := "'"%char.

(** Modelled from the spec: the categories of a formula error. *)
Inductive FormulaError : Type := Ref | BadValue | Arithmetic.

(** Modelled from the spec: the value of a cell is a string, a number or
    a formula error ([CellInterface::Value] in cell.cpp and formula.cpp,
    which test it with [std::holds_alternative<double>]). *)
Inductive Value : Type :=
  | VString (s : string)
  | VDouble (d : float)
  | VError (e : FormulaError).

(** Modelled from the spec: the exceptions the public operations throw
    (sheet.cpp names [InvalidPositionException] and
    [CircularDependencyException]; a parse failure is the third). *)
Inductive Exception : Type :=
  | InvalidPositionException
  | CircularDependencyException
  | FormulaException.

(** Ways in which a run leaves defined behaviour: a failed [assert], an
    index past the end of a [std::vector], a pointer to a node that is not
    in the map, a member call through a null cell pointer.  [FuelExhausted] is the embedding's only addition: the two
    depth-first searches and [GetValue] recurse under a fuel bound. *)
Inductive Fault : Type :=
  | AssertionFailed
  | OutOfRange
  | DanglingNode
  | NullDereference
  | FuelExhausted.

(** [std::string::substr(1)] on a non-empty string. *)
Definition substr1 (s : string) : string :=
  match s with
  | EmptyString => EmptyString
  | String _ rest => rest
  end.

(** [s[0] == c] guarded by [!s.empty()]. *)
Definition starts_with (c : ascii) (s : string) : bool :=
  match s with
  | EmptyString => false
  | String c0 _ => if ascii_dec c0 c then true else false
  end.

End Common.
Export Common.

(* ===================================================================== *)
(** ** FormulaAST.h: the formula layer the core calls                     *)
(* ===================================================================== *)

(** [FormulaAST::Execute] receives a callback and calls it on the positions
    it wants to read, in an order of its own; the callback runs
    [Cell::GetValue], which fills caches.  The evaluation is therefore a
    tree of questions: an answer, a thrown [FormulaError], or a question
    about one position followed by the rest of the evaluation. *)
Inductive Eval : Type :=
  | EvRet (d : float)
  | EvThrow (e : FormulaError)
  | EvAsk (p : Position) (k : Value -> Eval).

(** The part of FormulaAST.h that formula.cpp uses.  FormulaAST.h is not
    among the sources: the parser and the tree are external to the core,
    and the development is parametric in them.  [ParseFormulaAST] answers
    [None] where the C++ parser throws. *)
Class FormulaAPI : Type := {
  FormulaAST : Type;
  ParseFormulaAST : string -> option FormulaAST;
  Execute : FormulaAST -> Eval;
  PrintFormula : FormulaAST -> string;
  GetCells : FormulaAST -> list Position;
}.

(* ===================================================================== *)
(** ** formula.cpp and cell.cpp                                            *)
(* ===================================================================== *)

Section CellModel.
Context {api : FormulaAPI}.

(** [std::unique] followed by [erase]: adjacent duplicates collapse. *)
Fixpoint unique (l : list Position) : list Position :=
  match l with
  | [] => []
  | x :: rest =>
      match rest with
      | [] => [x]
      | y :: _ => if decide (x = y) then unique rest else x :: unique rest
      end
  end.

(** [Formula::GetExpression]. *)
Definition Formula_GetExpression (ast_ : FormulaAST) : string :=
  PrintFormula ast_.

(** [Formula::GetReferencedCells]. *)
Definition Formula_GetReferencedCells (ast_ : FormulaAST) : list Position :=
  unique (GetCells ast_).

(** The [Impl] hierarchy of cell.cpp as a variant. *)
Inductive Impl : Type :=
  | EmptyImpl
  | TextImpl (text_ : string)
  | FormulaImpl (formula_ : FormulaAST).

(** [TextImpl::GetValue]. *)
Definition TextImpl_GetValue (text_ : string) : Value :=
  if starts_with ESCAPE_SIGN text_ then VString (substr1 text_)
  else VString text_.

(** [TextImpl::GetText]. *)
Definition TextImpl_GetText (text_ : string) : string := text_.

(** [Impl::GetText] through the virtual call. *)
Definition Impl_GetText (i : Impl) : string :=
  match i with
  | EmptyImpl => EmptyString
  | TextImpl text_ => TextImpl_GetText text_
  | FormulaImpl formula_ =>
      String.append "=" (Formula_GetExpression formula_)
  end.

(** [Impl::GetReferencedCells] through the virtual call. *)
Definition Impl_GetReferencedCells (i : Impl) : list Position :=
  match i with
  | EmptyImpl => []
  | TextImpl _ => []
  | FormulaImpl formula_ => Formula_GetReferencedCells formula_
  end.

(** [class Cell]: the variant and the mutable cache.  The reference
    [sheet_] is the sheet that owns the cell; the operations that need it
    receive the sheet explicitly. *)
Record Cell : Type := mkCell { impl_ : Impl; cache_ : option Value }.

(** [Cell::Cell]. *)
Definition Cell_new : Cell := mkCell EmptyImpl None.

(** [Cell::Set].  [None] where [ParseFormula] throws; [cache_] is not
    touched. *)
Definition Cell_Set (c : Cell) (text : string) : option Cell :=
  match text with
  | EmptyString => Some (mkCell EmptyImpl (cache_ c))
  | String c0 rest =>
      if (if ascii_dec c0 FORMULA_SIGN then true else false)
         && (1 <? Z.of_nat (String.length text))
      then
        match ParseFormulaAST (substr1 text) with
        | Some ast => Some (mkCell (FormulaImpl ast) (cache_ c))
        | None => None
        end
      else Some (mkCell (TextImpl text) (cache_ c))
  end.

(** [Cell::Clear]. *)
Definition Cell_Clear (c : Cell) : Cell := mkCell EmptyImpl (cache_ c).

(** [Cell::GetText]. *)
Definition Cell_GetText (c : Cell) : string := Impl_GetText (impl_ c).

(** [Cell::GetReferencedCells]. *)
Definition Cell_GetReferencedCells (c : Cell) : list Position :=
  Impl_GetReferencedCells (impl_ c).

(** [Cell::ResetCache]. *)
Definition Cell_ResetCache (c : Cell) : Cell := mkCell (impl_ c) None.

End CellModel.

(* ===================================================================== *)
(** ** sheet.cpp, lines 16-126: the dependency graph                      *)
(* ===================================================================== *)

(** The result of code that can leave defined behaviour but throws no
    exception. *)
Inductive Checked (A : Type) : Type :=
  | Good (a : A)
  | Bad (f : Fault).
Arguments Good {A} a.
Arguments Bad {A} f.

Module Graph.

(** [struct Node].  The two sets hold [Node*]; the nodes live in an
    [unordered_map] keyed by position, whose elements never move, so a
    pointer to a node is the position it is stored under. *)
Record Node : Type := mkNode {
  cell_ : Position;
  forward_ : gset Position;
  backward_ : gset Position;
}.

(** [class DependencyGraph]: the member [nodes_]. *)
Abbreviation DependencyGraph := (gmap Position Node).

Definition empty_graph : DependencyGraph := ∅.

Definition insert_forward (q : Position) (n : Node) : Node :=
  mkNode (cell_ n) (forward_ n ∪ {[q]}) (backward_ n).
Definition insert_backward (q : Position) (n : Node) : Node :=
  mkNode (cell_ n) (forward_ n) (backward_ n ∪ {[q]}).
Definition erase_forward (q : Position) (n : Node) : Node :=
  mkNode (cell_ n) (forward_ n ∖ {[q]}) (backward_ n).
Definition erase_backward (q : Position) (n : Node) : Node :=
  mkNode (cell_ n) (forward_ n) (backward_ n ∖ {[q]}).

(** [DependencyGraph::Contains]. *)
Definition Contains (g : DependencyGraph) (cell : Position) : bool :=
  bool_decide (is_Some (g !! cell)).

(** [DependencyGraph::AddCell]: a default node whose [cell_] is set. *)
Definition AddCell (g : DependencyGraph) (cell : Position) : DependencyGraph :=
  if Contains g cell then g else <[cell := mkNode cell ∅ ∅]> g.

(** [DependencyGraph::AddDependency]; the two [assert]s first. *)
Definition AddDependency (g : DependencyGraph) (from to : Position)
  : Checked DependencyGraph :=
  if negb (Contains g from) then Bad AssertionFailed
  else if negb (Contains g to) then Bad AssertionFailed
  else
    let g1 := alter (insert_forward to) from g in
    Good (alter (insert_backward from) to g1).

(** [DependencyGraph::RemoveDependency]. *)
Definition RemoveDependency (g : DependencyGraph) (from to : Position)
  : Checked DependencyGraph :=
  if negb (Contains g from) then Bad AssertionFailed
  else if negb (Contains g to) then Bad AssertionFailed
  else
    let g1 := alter (erase_forward to) from g in
    Good (alter (erase_backward from) to g1).

(** The two loops of [RemoveCell]: erase [cell] from the backward set of
    each node in [qs], respectively from the forward set. *)
Definition erase_backward_all (cell : Position) (qs : list Position)
    (g : DependencyGraph) : DependencyGraph :=
  fold_left (fun acc q => alter (erase_backward cell) q acc) qs g.
Definition erase_forward_all (cell : Position) (qs : list Position)
    (g : DependencyGraph) : DependencyGraph :=
  fold_left (fun acc q => alter (erase_forward cell) q acc) qs g.

(** [DependencyGraph::RemoveCell].  The second loop runs over the backward
    set as the first loop left it. *)
Definition RemoveCell (g : DependencyGraph) (cell : Position) : DependencyGraph :=
  match g !! cell with
  | None => g
  | Some n =>
      let g1 := erase_backward_all cell (elements (forward_ n)) g in
      match g1 !! cell with
      | None => g1
      | Some n1 =>
          let g2 := erase_forward_all cell (elements (backward_ n1)) g1 in
          delete cell g2
      end
  end.

(** The lambda [check_node] of [CheckCyclicDependencies].  The set
    [verified_nodes] is captured by reference, so it is threaded through.
    An [unordered_set] is iterated in an unspecified order; [elements]
    fixes one. *)
Fixpoint check_node (fuel : nat) (g : DependencyGraph) (start_node : Position)
    (current : Position) (verified_nodes : gset Position)
  : Checked (bool * gset Position) :=
  match fuel with
  | O => Bad FuelExhausted
  | S fuel' =>
      match g !! current with
      | None => Bad DanglingNode
      | Some n =>
          (fix loop (nexts : list Position) (verified : gset Position)
             : Checked (bool * gset Position) :=
             match nexts with
             | [] => Good (true, verified)
             | next_node :: rest =>
                 if decide (next_node ∈ verified) then loop rest verified
                 else if decide (next_node = start_node)
                      then Good (false, verified)
                      else
                        match check_node fuel' g start_node next_node verified with
                        | Bad f => Bad f
                        | Good (false, verified') => Good (false, verified')
                        | Good (true, verified') =>
                            loop rest (verified' ∪ {[next_node]})
                        end
             end) (elements (forward_ n)) verified_nodes
      end
  end.

(** [DependencyGraph::CheckCyclicDependencies]: [true] when no cycle
    passes through [cell]. *)
Definition CheckCyclicDependencies (fuel : nat) (g : DependencyGraph)
    (cell : Position) : Checked bool :=
  if negb (Contains g cell) then Bad AssertionFailed
  else
    match check_node fuel g cell cell ∅ with
    | Bad f => Bad f
    | Good (b, _) => Good b
    end.

(** Reading the graph: the sets of a position, empty when it has no node. *)
Definition forward (g : DependencyGraph) (p : Position) : gset Position :=
  match g !! p with Some n => forward_ n | None => ∅ end.
Definition backward (g : DependencyGraph) (p : Position) : gset Position :=
  match g !! p with Some n => backward_ n | None => ∅ end.

(** The node set and the edge relation of the graph. *)
Definition nodes (g : DependencyGraph) : gset Position := dom g.
Definition edge (g : DependencyGraph) (p q : Position) : Prop := q ∈ forward g p.

(** The four mutating operations, and a run of a list of them from the
    empty graph; a run stops at the first failed [assert]. *)
Inductive Op : Type :=
  | OpAddCell (p : Position)
  | OpAddDependency (from to : Position)
  | OpRemoveDependency (from to : Position)
  | OpRemoveCell (p : Position).

Definition step (g : DependencyGraph) (o : Op) : Checked DependencyGraph :=
  match o with
  | OpAddCell p => Good (AddCell g p)
  | OpAddDependency from to => AddDependency g from to
  | OpRemoveDependency from to => RemoveDependency g from to
  | OpRemoveCell p => Good (RemoveCell g p)
  end.

Fixpoint run (ops : list Op) (g : DependencyGraph) : Checked DependencyGraph :=
  match ops with
  | [] => Good g
  | o :: rest =>
      match step g o with
      | Good g' => run rest g'
      | Bad f => Bad f
      end
  end.

(** The invariant of the data model: the forward and backward sets
    mirror each other. *)
Definition consistent (g : DependencyGraph) : Prop :=
  forall p q : Position, q ∈ forward g p <-> p ∈ backward g q.

(** Every edge ends in a node of the map: no pointer dangles. *)
Definition closed (g : DependencyGraph) : Prop :=
  forall p q : Position, q ∈ forward g p -> is_Some (g !! q).

(** Every node is stored under the position it carries in [cell_]. *)
Definition keyed (g : DependencyGraph) : Prop :=
  forall (p : Position) (n : Node), g !! p = Some n -> cell_ n = p.

Definition well_formed (g : DependencyGraph) : Prop :=
  consistent g /\ keyed g.

End Graph.

(* ===================================================================== *)
(** ** sheet.cpp, lines 128-318: the sheet                                *)
(* ===================================================================== *)

Export Graph.

(** [std::vector::operator[]]: defined only inside the vector. *)
Definition vec_at {A : Type} (v : list A) (i : Z) : Checked A :=
  if (0 <=? i) && (i <? Z.of_nat (length v))
  then match v !! Z.to_nat i with
       | Some x => Good x
       | None => Bad OutOfRange
       end
  else Bad OutOfRange.

Section SheetModel.
Context {api : FormulaAPI}.

(** [class Sheet]: the three members.  A [std::unique_ptr<Cell>] is an
    optional cell, null being [None]. *)
Record Sheet : Type := mkSheet {
  graph_ : DependencyGraph;
  cells_ : list (list (option Cell));
  printable_size_ : Size;
}.

(** [Sheet::Sheet]. *)
Definition Sheet_new : Sheet := mkSheet empty_graph [] (mkSize 0 0).

(** How a member function ends: it returns, it throws (the sheet keeps
    the state it had at the [throw]), or it leaves defined behaviour. *)
Inductive Outcome (A : Type) : Type :=
  | Done (a : A) (s : Sheet)
  | Raised (e : Exception) (s : Sheet)
  | Stuck (f : Fault).
Arguments Done {A} a s.
Arguments Raised {A} e s.
Arguments Stuck {A} f.

Definition M (A : Type) : Type := Sheet -> Outcome A.

#[global] Instance M_ret : MRet M := fun A a s => Done a s.
#[global] Instance M_bind : MBind M := fun A B f m s =>
  match m s with
  | Done a s' => f a s'
  | Raised e s' => Raised e s'
  | Stuck fl => Stuck fl
  end.

Definition throw {A : Type} (e : Exception) : M A := fun s => Raised e s.
Definition stuck {A : Type} (f : Fault) : M A := fun _ => Stuck f.
Definition get : M Sheet := fun s => Done s s.
Definition put (s : Sheet) : M unit := fun _ => Done tt s.
Definition check {A : Type} (c : Checked A) : M A :=
  match c with
  | Good a => mret a
  | Bad f => stuck f
  end.
Definition assert (b : bool) : M unit :=
  if b then mret tt else stuck AssertionFailed.

(** The sheet as a run leaves it, whether it returned or threw; the sheet
    it started from when it left defined behaviour. *)
Definition sheet_after {A : Type} (m : M A) (s : Sheet) : Sheet :=
  match m s with
  | Done _ s' => s'
  | Raised _ s' => s'
  | Stuck _ => s
  end.

(** A range-based [for] over a vector. *)
Fixpoint for_each {A : Type} (l : list A) (body : A -> M unit) : M unit :=
  match l with
  | [] => mret tt
  | x :: rest => body x ;; for_each rest body
  end.

(** Writing one member and keeping the others. *)
Definition set_graph (g : DependencyGraph) : M unit :=
  s ← get; put (mkSheet g (cells_ s) (printable_size_ s)).
Definition set_cells (c : list (list (option Cell))) : M unit :=
  s ← get; put (mkSheet (graph_ s) c (printable_size_ s)).
Definition set_printable_size (sz : Size) : M unit :=
  s ← get; put (mkSheet (graph_ s) (cells_ s) sz).

(** [Sheet::ValidatePosition]. *)
Definition ValidatePosition (pos : Position) : M unit :=
  if IsValid pos then mret tt else throw InvalidPositionException.

(** [Sheet::GetConcreteCell] on the member [cells_]. *)
Definition concrete_cell (cells : list (list (option Cell))) (pos : Position)
  : Checked (option Cell) :=
  if row pos <? Z.of_nat (length cells) then
    match vec_at cells (row pos) with
    | Bad f => Bad f
    | Good r =>
        if col pos <? Z.of_nat (length r) then vec_at r (col pos)
        else Good None
    end
  else Good None.

Definition GetConcreteCell (pos : Position) : M (option Cell) :=
  s ← get; check (concrete_cell (cells_ s) pos).

(** [Sheet::GetCell]. *)
Definition GetCell (pos : Position) : M (option Cell) :=
  ValidatePosition pos ;; GetConcreteCell pos.

(** [Sheet::GetPrintableSize]. *)
Definition GetPrintableSize : M Size :=
  s ← get; mret (printable_size_ s).

(** [Sheet::PlaceCell]. *)
Definition PlaceCell (pos : Position) (cell : Cell) : M unit :=
  s ← get;
  let cells1 :=
    if Z.of_nat (length (cells_ s)) <=? row pos
    then resize (Z.to_nat (row pos + 1)) [] (cells_ s)
    else cells_ s in
  r ← check (vec_at cells1 (row pos));
  let r1 :=
    if Z.of_nat (length r) <=? col pos
    then resize (Z.to_nat (col pos + 1)) None r
    else r in
  _ ← check (vec_at r1 (col pos));
  let r2 := <[Z.to_nat (col pos) := Some cell]> r1 in
  let cells2 := <[Z.to_nat (row pos) := r2]> cells1 in
  put (mkSheet (graph_ s) cells2
         (mkSize (Z.max (rows (printable_size_ s)) (row pos + 1))
                 (Z.max (cols (printable_size_ s)) (col pos + 1)))).

(** The inner loop of [ClearCell], [for (int c = cols; c >= 0; --c)],
    with [n] the number of iterations left, so that the next column is
    [n - 1]: the first occupied slot found counting down. *)
Fixpoint scan_cols (r : list (option Cell)) (n : nat) : option Z :=
  match n with
  | O => None
  | S c =>
      if (Z.of_nat c <? Z.of_nat (length r))
         && bool_decide (is_Some (mjoin (r !! c)))
      then Some (Z.of_nat c)
      else scan_cols r c
  end.

(** The outer loop of [ClearCell], [for (int r = rows; r >= 0; --r)],
    with [n] the number of iterations left.  [cells_[r]] is read before
    anything compares [r] with the size of [cells_]. *)
Fixpoint scan_rows (cells : list (list (option Cell))) (cols0 : Z) (n : nat)
  : Checked (option (Z * Z)) :=
  match n with
  | O => Good None
  | S r =>
      match vec_at cells (Z.of_nat r) with
      | Bad f => Bad f
      | Good rw =>
          match scan_cols rw (Z.to_nat (cols0 + 1)) with
          | Some c => Good (Some (Z.of_nat r, c))
          | None => scan_rows cells cols0 r
          end
      end
  end.

(** [Sheet::ClearCell]. *)
Definition ClearCell (pos : Position) : M unit :=
  ValidatePosition pos ;;
  s ← get;
  if row pos <? Z.of_nat (length (cells_ s)) then
    r ← check (vec_at (cells_ s) (row pos));
    if col pos <? Z.of_nat (length r) then
      _ ← check (vec_at r (col pos));
      let r1 := <[Z.to_nat (col pos) := None]> r in
      let cells1 := <[Z.to_nat (row pos) := r1]> (cells_ s) in
      set_cells cells1 ;;
      if (row pos + 1 =? rows (printable_size_ s))
         || (col pos + 1 =? cols (printable_size_ s))
      then
        found ← check (scan_rows cells1 (cols (printable_size_ s))
                         (Z.to_nat (rows (printable_size_ s) + 1)));
        match found with
        | Some (r', c') => set_printable_size (mkSize (r' + 1) (c' + 1))
        | None => set_printable_size (mkSize 0 0)
        end
      else mret tt
    else mret tt
  else mret tt.

(** The callback of [Formula::Evaluate]: the value of the cell at [pos],
    or [0.0] when the slot is absent.  [cell_value] is [Cell::GetValue]
    on the cell stored at a position. *)
Definition cell_value_getter (cell_value : Position -> M Value)
    (pos : Position) : M Value :=
  c ← GetCell pos;
  match c with
  | None => mret (VDouble 0%float)
  | Some _ => cell_value pos
  end.

(** [ast_.Execute(cell_value_getter)] inside the [try] of
    [Formula::Evaluate]: the questions of the tree are answered by the
    callback, a thrown [FormulaError] becomes the result. *)
Fixpoint execute (getter : Position -> M Value) (e : Eval)
  : M (float + FormulaError) :=
  match e with
  | EvRet d => mret (inl d)
  | EvThrow err => mret (inr err)
  | EvAsk p k => v ← getter p; execute getter (k v)
  end.

(** [Formula::Evaluate]. *)
Definition Formula_Evaluate (cell_value : Position -> M Value)
    (ast_ : FormulaAST) : M (float + FormulaError) :=
  execute (cell_value_getter cell_value) (Execute ast_).

(** [Impl::GetValue] through the virtual call. *)
Definition Impl_GetValue (cell_value : Position -> M Value) (i : Impl)
  : M Value :=
  match i with
  | EmptyImpl => mret (VString EmptyString)
  | TextImpl text_ => mret (TextImpl_GetValue text_)
  | FormulaImpl formula_ =>
      value ← Formula_Evaluate cell_value formula_;
      match value with
      | inl d => mret (VDouble d)
      | inr err => mret (VError err)
      end
  end.

(** The assignment [cache_ = ...] in the cell stored at [pos]. *)
Definition store_cache (pos : Position) (v : Value) : M unit :=
  s ← get;
  r ← check (vec_at (cells_ s) (row pos));
  slot ← check (vec_at r (col pos));
  match slot with
  | None => stuck NullDereference
  | Some c =>
      set_cells (<[Z.to_nat (row pos) :=
                    <[Z.to_nat (col pos) := Some (mkCell (impl_ c) (Some v))]> r]>
                   (cells_ s))
  end.

(** [Cell::GetValue] on the cell stored at [pos].  A cell is reached
    through the pointer [GetCell] returned, and no operation moves a cell
    while a value is computed, so the position names the cell. *)
Fixpoint Cell_GetValue (fuel : nat) (pos : Position) : M Value :=
  match fuel with
  | O => stuck FuelExhausted
  | S fuel' =>
      c ← GetConcreteCell pos;
      match c with
      | None => stuck NullDereference
      | Some c =>
          match cache_ c with
          | Some v => mret v
          | None =>
              v ← Impl_GetValue (Cell_GetValue fuel') (impl_ c);
              store_cache pos v ;;
              mret v
          end
      end
  end.

(** [sheet.GetCell(pos)->GetValue()], as a client writes it. *)
Definition GetValue (fuel : nat) (pos : Position) : M Value :=
  c ← GetCell pos;
  match c with
  | None => stuck NullDereference
  | Some _ => Cell_GetValue fuel pos
  end.

(** [sheet.GetCell(pos)->GetText()]. *)
Definition GetText (pos : Position) : M string :=
  c ← GetCell pos;
  match c with
  | None => stuck NullDereference
  | Some c => mret (Cell_GetText c)
  end.

(** The lambda [reset_node] of [DependencyGraph::ResetCache]; the
    callback [reseter] works on the sheet. *)
Fixpoint reset_node (fuel : nat) (g : DependencyGraph)
    (reseter : Position -> M unit) (current : Position)
    (verified_nodes : gset Position) : M (gset Position) :=
  match fuel with
  | O => stuck FuelExhausted
  | S fuel' =>
      match g !! current with
      | None => stuck DanglingNode
      | Some n =>
          reseter (cell_ n) ;;
          (fix loop (nexts : list Position) (verified : gset Position)
             : M (gset Position) :=
             match nexts with
             | [] => mret verified
             | next_node :: rest =>
                 if decide (next_node ∈ verified) then loop rest verified
                 else
                   verified' ← reset_node fuel' g reseter next_node verified;
                   loop rest (verified' ∪ {[next_node]})
             end) (elements (backward_ n)) verified_nodes
      end
  end.

(** [DependencyGraph::ResetCache]. *)
Definition ResetCache (fuel : nat) (cell : Position)
    (reseter : Position -> M unit) : M unit :=
  s ← get;
  assert (Contains (graph_ s) cell) ;;
  reset_node fuel (graph_ s) reseter cell ∅ ;;
  mret tt.

(** The lambda [reseter] of [SetCell]. *)
Definition reseter (pos : Position) : M unit :=
  c ← GetConcreteCell pos;
  match c with
  | None => stuck AssertionFailed
  | Some c =>
      s ← get;
      r ← check (vec_at (cells_ s) (row pos));
      set_cells (<[Z.to_nat (row pos) :=
                    <[Z.to_nat (col pos) := Some (Cell_ResetCache c)]> r]>
                   (cells_ s))
  end.

(** The calls of [SetCell] into the graph, on the member [graph_]. *)
Definition graph_AddCell (cell : Position) : M unit :=
  s ← get; set_graph (AddCell (graph_ s) cell).
Definition graph_AddDependency (from to : Position) : M unit :=
  s ← get; g ← check (AddDependency (graph_ s) from to); set_graph g.
Definition graph_RemoveDependency (from to : Position) : M unit :=
  s ← get; g ← check (RemoveDependency (graph_ s) from to); set_graph g.
Definition graph_Contains (cell : Position) : M bool :=
  s ← get; mret (Contains (graph_ s) cell).
Definition graph_CheckCyclicDependencies (fuel : nat) (cell : Position) : M bool :=
  s ← get; check (CheckCyclicDependencies fuel (graph_ s) cell).

(** The first loop of [SetCell] (lines 145-158): the self-reference test
    and the creation of the missing referents, one position at a time;
    the result is [new_empty_poses]. *)
Fixpoint materialize (pos : Position) (new_poses : list Position)
    (new_empty_poses : list Position) : M (list Position) :=
  match new_poses with
  | [] => mret new_empty_poses
  | next :: rest =>
      if decide (next = pos) then throw CircularDependencyException
      else
        next_cell ← GetCell next;
        match next_cell with
        | None =>
            PlaceCell next Cell_new ;;
            materialize pos rest (new_empty_poses ++ [next])
        | Some _ => materialize pos rest new_empty_poses
        end
  end.

(** Lines 160-171 of [SetCell]: when the graph has a node at [pos], the
    references of the cell stored there are read and their edges removed;
    the result is [old_poses]. *)
Definition detach_old (pos : Position) (contained : bool) : M (list Position) :=
  if contained then
    old_cell ← GetConcreteCell pos;
    match old_cell with
    | None => stuck AssertionFailed
    | Some old_cell =>
        let old_poses := Cell_GetReferencedCells old_cell in
        for_each old_poses (fun next => graph_RemoveDependency pos next) ;;
        mret old_poses
    end
  else mret [].

(** The loop of lines 177-180, which is also the loop of lines 190-193:
    a node and an edge from [pos] for each position. *)
Definition attach (pos : Position) (poses : list Position) : M unit :=
  for_each poses (fun next =>
    graph_AddCell next ;; graph_AddDependency pos next).

(** Lines 182-209 of [SetCell]: the cycle probe, then either the rollback
    and the exception, or the reset of the caches. *)
Definition probe (fuel : nat) (pos : Position)
    (new_empty_poses old_poses : list Position) : M unit :=
  acyclic ← graph_CheckCyclicDependencies fuel pos;
  if negb acyclic then
    for_each new_empty_poses (fun next => ClearCell next) ;;
    attach pos old_poses ;;
    throw CircularDependencyException
  else ResetCache fuel pos reseter.

(** [Sheet::SetCell]. *)
Definition SetCell (fuel : nat) (pos : Position) (text : string) : M unit :=
  ValidatePosition pos ;;
  new_cell ← match Cell_Set Cell_new text with
             | Some c => mret c
             | None => throw FormulaException
             end;
  let new_poses := Cell_GetReferencedCells new_cell in
  new_empty_poses ← materialize pos new_poses [];
  contained ← graph_Contains pos;
  old_poses ← detach_old pos contained;
  graph_AddCell pos ;;
  attach pos new_poses ;;
  (if contained : bool
   then probe fuel pos new_empty_poses old_poses
   else mret tt) ;;
  PlaceCell pos new_cell.

(** [Sheet::PrintTexts]: the text written to the stream. *)
Definition tab : string := String (ascii_of_nat 9) EmptyString.
Definition newline : string := String (ascii_of_nat 10) EmptyString.

Fixpoint print_row (r : list (option Cell)) (c : nat) (n : nat) : string :=
  match n with
  | O => EmptyString
  | S n' =>
      String.append (if (0 <? Z.of_nat c) then tab else EmptyString)
        (String.append
           (match mjoin (r !! c) with
            | Some cell => Cell_GetText cell
            | None => EmptyString
            end)
           (print_row r (S c) n'))
  end.

Fixpoint print_rows (cells : list (list (option Cell))) (ncols : nat)
    (r : nat) (n : nat) : Checked string :=
  match n with
  | O => Good EmptyString
  | S n' =>
      match vec_at cells (Z.of_nat r) with
      | Bad f => Bad f
      | Good rw =>
          match print_rows cells ncols (S r) n' with
          | Bad f => Bad f
          | Good out =>
              Good (String.append (print_row rw O ncols)
                      (String.append newline out))
          end
      end
  end.

Definition PrintTexts : M string :=
  s ← get;
  check (print_rows (cells_ s) (Z.to_nat (cols (printable_size_ s))) O
           (Z.to_nat (rows (printable_size_ s)))).

(** What [PrintTexts] writes for a sheet, the empty text when it does not
    return. *)
Definition printed_texts (s : Sheet) : string :=
  match PrintTexts s with
  | Done out _ => out
  | _ => EmptyString
  end.

(** The calls a client makes through [SheetInterface] and
    [CellInterface] that can change the sheet, and a script of them; the
    script stops at the first call that does not return. *)
Inductive Call : Type :=
  | CallSetCell (pos : Position) (text : string)
  | CallClearCell (pos : Position)
  | CallGetValue (pos : Position).

Definition call (fuel : nat) (c : Call) : M unit :=
  match c with
  | CallSetCell pos text => SetCell fuel pos text
  | CallClearCell pos => ClearCell pos
  | CallGetValue pos => GetValue fuel pos ;; mret tt
  end.

Definition script (fuel : nat) (cs : list Call) : M unit :=
  for_each cs (call fuel).

End SheetModel.

Arguments Done {api A} a s.
Arguments Raised {api A} e s.
Arguments Stuck {api A} f.

(* ===================================================================== *)
(** ** A formula layer to run the sheet on                                *)
(* ===================================================================== *)

Module SampleFormula.

(** Modelled from the spec: FormulaAST.h and FormulaAST.cpp are not among
    the sources.  This is a small formula language that meets the contract
    of section 6: sums of non-negative integer literals and of cell
    references with a one-letter column ("A1" is row 0, column 0; "Z9" is
    row 8, column 25).  A reference reads a number as itself, the empty
    string as zero, a string of digits as its number and any other string
    as [#VALUE!]; the referenced positions are reported sorted. *)
Inductive Expr : Type :=
  | ENum (n : N)
  | ECell (p : Position)
  | EAdd (l r : Expr).

Definition is_digit (c : ascii) : bool :=
  (48 <=? nat_of_ascii c)%nat && (nat_of_ascii c <=? 57)%nat.
Definition is_upper (c : ascii) : bool :=
  (65 <=? nat_of_ascii c)%nat && (nat_of_ascii c <=? 90)%nat.

(** The number written by a string of digits, [None] for anything else. *)
Fixpoint digits (s : string) (acc : N) : option N :=
  match s with
  | EmptyString => Some acc
  | String c rest =>
      if is_digit c
      then digits rest (10 * acc + N.of_nat (nat_of_ascii c - 48))%N
      else None
  end.

Definition number (s : string) : option N :=
  match s with
  | EmptyString => None
  | _ => digits s 0%N
  end.

(** [Position::FromString] for one-letter columns; invalid positions are
    refused. *)
Definition position_of_string (s : string) : option Position :=
  match s with
  | String c rest =>
      if is_upper c then
        match number rest with
        | Some n =>
            let p := mkPos (Z.of_N n - 1) (Z.of_nat (nat_of_ascii c - 65)) in
            if IsValid p then Some p else None
        | None => None
        end
      else None
  | EmptyString => None
  end.

Definition parse_term (s : string) : option Expr :=
  match number s with
  | Some n => Some (ENum n)
  | None =>
      match position_of_string s with
      | Some p => Some (ECell p)
      | None => None
      end
  end.

(** The text cut at each '+'. *)
Fixpoint split_plus (s : string) (cur : string) : list string :=
  match s with
  | EmptyString => [cur]
  | String c rest =>
      if ascii_dec c "+"%char then cur :: split_plus rest EmptyString
      else split_plus rest (String.append cur (String c EmptyString))
  end.

Fixpoint parse_terms (acc : Expr) (ts : list string) : option Expr :=
  match ts with
  | [] => Some acc
  | t :: rest =>
      match parse_term t with
      | Some e => parse_terms (EAdd acc e) rest
      | None => None
      end
  end.

Definition parse (s : string) : option Expr :=
  match split_plus s EmptyString with
  | [] => None
  | t :: rest =>
      match parse_term t with
      | Some e => parse_terms e rest
      | None => None
      end
  end.

(** Small naturals as doubles, exactly. *)
Fixpoint float_of_positive (p : positive) : float :=
  match p with
  | xH => 1%float
  | xO q => (2 * float_of_positive q)%float
  | xI q => (2 * float_of_positive q + 1)%float
  end.
Definition float_of_N (n : N) : float :=
  match n with
  | N0 => 0%float
  | Npos p => float_of_positive p
  end.

(** What a reference makes of the value of the cell it names. *)
Definition number_of_value (v : Value) : float + FormulaError :=
  match v with
  | VDouble d => inl d
  | VError e => inr e
  | VString EmptyString => inl 0%float
  | VString s =>
      match digits s 0%N with
      | Some n => inl (float_of_N n)
      | None => inr BadValue
      end
  end.

(** Evaluation in continuation style: every reference asks the callback. *)
Fixpoint eval (e : Expr) (k : float -> Eval) : Eval :=
  match e with
  | ENum n => k (float_of_N n)
  | ECell p =>
      EvAsk p (fun v =>
        match number_of_value v with
        | inl d => k d
        | inr err => EvThrow err
        end)
  | EAdd l r => eval l (fun a => eval r (fun b => k (a + b)%float))
  end.

Definition print_N (n : N) : string :=
  DecimalString.NilZero.string_of_uint (N.to_uint n).

Definition print_position (p : Position) : string :=
  String (ascii_of_nat (Z.to_nat (col p) + 65))
         (print_N (Z.to_N (row p + 1))).

Fixpoint print (e : Expr) : string :=
  match e with
  | ENum n => print_N n
  | ECell p => print_position p
  | EAdd l r => String.append (print l) (String.append "+" (print r))
  end.

Definition position_leb (p q : Position) : bool :=
  (row p <? row q) || ((row p =? row q) && (col p <=? col q)).

Fixpoint insert_sorted (p : Position) (l : list Position) : list Position :=
  match l with
  | [] => [p]
  | q :: rest =>
      if position_leb p q then p :: l else q :: insert_sorted p rest
  end.

Fixpoint cells (e : Expr) : list Position :=
  match e with
  | ENum _ => []
  | ECell p => [p]
  | EAdd l r => fold_right insert_sorted (cells r) (cells l)
  end.

#[global] Instance api : FormulaAPI := {|
  FormulaAST := Expr;
  ParseFormulaAST := parse;
  Execute := fun e => eval e EvRet;
  PrintFormula := print;
  GetCells := cells;
|}.

(** Names for the positions of the scenarios. *)
Definition A1 : Position := mkPos 0 0.
Definition B1 : Position := mkPos 0 1.
Definition C1 : Position := mkPos 0 2.
Definition A2 : Position := mkPos 1 0.
Definition B2 : Position := mkPos 1 1.
Definition Z9 : Position := mkPos 8 25.

End SampleFormula.

(* ===================================================================== *)
(** ** Scenarios on the sample formula layer                              *)
(* ===================================================================== *)

Module Scenarios.
Import SampleFormula.

(** Two texts set one after the other at A1 of the new sheet, and the
    second text set alone. *)
Definition twice_first : Sheet := sheet_after (SetCell 4 A1 "=B1") Sheet_new.
Definition twice_second : Sheet := sheet_after (SetCell 4 A1 "=C1") twice_first.
Definition once : Sheet := sheet_after (SetCell 4 A1 "=C1") Sheet_new.

(** A chain A1 -> B1 -> C1, then the attempt to close it into a cycle,
    then a plain text at C1. *)
Definition chain : Sheet :=
  sheet_after (script 4 [CallSetCell A1 "=B1"; CallSetCell B1 "=C1"]) Sheet_new.
Definition chain_closed : Sheet := sheet_after (SetCell 4 C1 "=A1") chain.

(** The chain A1 -> B1 (B1 an Empty referent), then a formula at B1 that
    closes the cycle and names the absent Z9. *)
Definition pair : Sheet := sheet_after (SetCell 4 A1 "=B1") Sheet_new.

(** A formula at B1 that names A1, B1 itself and C1, on the new sheet. *)
Definition self_reference : Sheet :=
  sheet_after (SetCell 4 B1 "=A1+B1+C1") Sheet_new.

(** A number at A1, a formula over it at B2 whose value was read, then A1
    cleared. *)
Definition summed : Sheet :=
  sheet_after (script 4 [CallSetCell A1 "2"; CallSetCell B2 "=A1+3";
                         CallGetValue B2]) Sheet_new.
Definition summed_cleared : Sheet := sheet_after (ClearCell A1) summed.

(** Scenario 2 of the specification: a number at A1, a formula over it
    at A2 whose value was read, then another number at A1. *)
Definition rewritten : Sheet :=
  sheet_after (script 4 [CallSetCell A1 "2"; CallSetCell A2 "=A1+3";
                         CallGetValue A2; CallSetCell A1 "10"]) Sheet_new.

(** One text cell, and two text cells on a diagonal. *)
Definition one_cell : Sheet := sheet_after (SetCell 4 A1 "x") Sheet_new.
Definition diagonal : Sheet :=
  sheet_after (script 4 [CallSetCell A1 "x"; CallSetCell B2 "y"]) Sheet_new.

(** A text that starts with the escape sign. *)
Definition escaped : Sheet := sheet_after (SetCell 4 A1 "'=1+2") Sheet_new.

(** Stored rows with room to spare: cells at (0,2) and (1,0), four stored
    rows, a printable region of three rows and three columns. *)
Definition spare_rows : list (list (option Cell)) :=
  [[None; None; Some (mkCell (TextImpl "a") None)];
   [Some (mkCell (TextImpl "b") None)];
   [None; None];
   []].

End Scenarios.

(* ===================================================================== *)
(** ** Reading a sheet, and properties of runs                            *)
(* ===================================================================== *)

Section Reading.
Context {api : FormulaAPI}.

(** The cell in the slot at [p], [None] for an absent slot: the pointer
    [GetConcreteCell] returns, read off the stored rows. *)
Definition slot (cells : list (list (option Cell))) (i j : nat)
  : option Cell :=
  match cells !! i with
  | Some r =>
      match r !! j with
      | Some (Some c) => Some c
      | _ => None
      end
  | None => None
  end.

Definition cell_at (cells : list (list (option Cell))) (p : Position)
  : option Cell :=
  slot cells (Z.to_nat (row p)) (Z.to_nat (col p)).

(** A position with no negative coordinate. *)
Definition nonneg (p : Position) : Prop := 0 <= row p /\ 0 <= col p.

(** Partial correctness with an exceptional postcondition: from a state in
    [P], a run that returns ends in [Q], a run that throws ends in [E]. *)
Definition triple {A : Type} (P : Sheet -> Prop) (m : M A)
    (Q : A -> Sheet -> Prop) (E : Sheet -> Prop) : Prop :=
  forall s, P s ->
    match m s with
    | Done a s' => Q a s'
    | Raised _ s' => E s'
    | Stuck _ => True
    end.

(** A cache is sound for a Text cell when it is empty or holds what
    [TextImpl::GetValue] computes. *)
Definition cache_sound (c : Cell) : Prop :=
  match impl_ c with
  | TextImpl t => cache_ c = None \/ cache_ c = Some (TextImpl_GetValue t)
  | _ => True
  end.

Definition all_sound (s : Sheet) : Prop :=
  forall p c, cell_at (cells_ s) p = Some c -> cache_sound c.

(** The sheets a client can reach: from the new sheet, by calls that
    return or throw. *)
Inductive reachable : Sheet -> Prop :=
  | reachable_new : reachable Sheet_new
  | reachable_done (fuel : nat) (c : Call) (s s' : Sheet) :
      reachable s -> call fuel c s = Done tt s' -> reachable s'
  | reachable_raised (fuel : nat) (c : Call) (e : Exception) (s s' : Sheet) :
      reachable s -> call fuel c s = Raised e s' -> reachable s'.

(** The references [SetCell] removes from the graph: those of the cell
    stored at [pos], when the graph has a node there. *)
Definition old_references (s : Sheet) (pos : Position) : list Position :=
  if Contains (graph_ s) pos
  then match cell_at (cells_ s) pos with
       | Some c => Cell_GetReferencedCells c
       | None => []
       end
  else [].

(** [s] is [s0] with the caches of some cells emptied. *)
Definition reset_of (s0 s : Sheet) : Prop :=
  graph_ s = graph_ s0 /\
  printable_size_ s = printable_size_ s0 /\
  length (cells_ s) = length (cells_ s0) /\
  forall q, nonneg q ->
    cell_at (cells_ s) q = cell_at (cells_ s0) q \/
    exists c, cell_at (cells_ s0) q = Some c /\
              cell_at (cells_ s) q = Some (Cell_ResetCache c).

(** The slot at [p] holds a cell whose cache is empty: the next
    [GetValue] on it computes. *)
Definition cache_empty_at (s : Sheet) (p : Position) : Prop :=
  nonneg p /\ exists c, cell_at (cells_ s) p = Some c /\ cache_ c = None.

(** The cell stored at [p] names [q]. *)
Definition references (s : Sheet) (p q : Position) : Prop :=
  nonneg p /\
  exists c, cell_at (cells_ s) p = Some c /\ q ∈ Cell_GetReferencedCells c.

(** [p] reaches [d] along the references of the stored cells. *)
Definition depends_on (s : Sheet) (p d : Position) : Prop :=
  rtc (references s) p d.

(** [a] reaches [d] along the edges of the graph. *)
Definition ancestor (g : DependencyGraph) (d a : Position) : Prop :=
  rtc (fun x y => y ∈ backward g x) d a.

(** Every reference of a stored cell is an edge of the graph. *)
Definition covers (s : Sheet) : Prop :=
  forall p q, references s p q -> q ∈ forward (graph_ s) p.

(** Every cell of [s] is Empty or has the variant of the cell that [s0]
    stores in the same slot. *)
Definition kept (s0 s : Sheet) : Prop :=
  forall q c', nonneg q -> cell_at (cells_ s) q = Some c' ->
    impl_ c' = EmptyImpl \/
    exists c, cell_at (cells_ s0) q = Some c /\ impl_ c = impl_ c'.

(** The stored rows are exactly as many as the printable region has. *)
Definition storage_tight (s : Sheet) : Prop :=
  Z.of_nat (length (cells_ s)) = rows (printable_size_ s).

(** The printable region is the bounding box of the occupied slots:
    every occupied slot lies inside it, and either it is (0, 0) or some
    occupied slot lies in its last row and some in its last column. *)
Definition occupied (s : Sheet) (p : Position) : Prop :=
  nonneg p /\ is_Some (cell_at (cells_ s) p).

Definition bounding (s : Sheet) : Prop :=
  (forall p, occupied s p ->
     row p < rows (printable_size_ s) /\ col p < cols (printable_size_ s)) /\
  ((rows (printable_size_ s) = 0 /\ cols (printable_size_ s) = 0) \/
   ((exists p, occupied s p /\ row p + 1 = rows (printable_size_ s)) /\
    (exists p, occupied s p /\ col p + 1 = cols (printable_size_ s)))).

Definition grid_ok (s : Sheet) : Prop := storage_tight s /\ bounding s.

(** What every reachable sheet satisfies. *)
Definition invariant (s : Sheet) : Prop :=
  all_sound s /\ grid_ok s /\ well_formed (graph_ s).

(** [s] is [s0] with some caches filled, each Text cell with the value
    [TextImpl::GetValue] computes. *)
Definition cached_of (s0 s : Sheet) : Prop :=
  graph_ s = graph_ s0 /\
  printable_size_ s = printable_size_ s0 /\
  length (cells_ s) = length (cells_ s0) /\
  forall q, nonneg q ->
    cell_at (cells_ s) q = cell_at (cells_ s0) q \/
    exists c v, cell_at (cells_ s0) q = Some c /\
                cell_at (cells_ s) q = Some (mkCell (impl_ c) (Some v)) /\
                forall t, impl_ c = TextImpl t -> v = TextImpl_GetValue t.

End Reading.
(* ===================================================================== *)
(** ** Further readings of the graph                                      *)
(* ===================================================================== *)

(** An edge of the graph between two positions other than [cell]: the
    steps of a walk that stays away from [cell]. *)
Definition edge_off (g : DependencyGraph) (cell : Position)
    (p q : Position) : Prop :=
  q ∈ forward g p /\ p <> cell /\ q <> cell.

(** [PositionHasher::operator()], the product and the sum taken in [int]
    before the conversion to [size_t]. *)
Definition PositionHasher (p : Position) : Z := row p * MAX_ROWS + col p.

(** The state of the verified set between two activations of the lambda
    [check_node]: it holds the successors of its members, none of its
    members lies on a cycle, and the start is not in it. *)
Definition verified_ok (g : DependencyGraph) (start : Position)
    (V : gset Position) : Prop :=
  (forall v, v ∈ V -> forward g v ⊆ V) /\
  (forall v, v ∈ V -> ~ tc (edge g) v v) /\
  start ∉ V.

(** Graphs to run the operations on: the graph a list of operations
    builds from the empty one. *)
Module GraphScenarios.
Import SampleFormula.

Definition graph_of (ops : list Op) : DependencyGraph :=
  match run ops empty_graph with
  | Good g => g
  | Bad _ => empty_graph
  end.

(** Two nodes and no edge. *)
Definition two_nodes_ops : list Op := [OpAddCell A1; OpAddCell B1].
Definition two_nodes : DependencyGraph := graph_of two_nodes_ops.

(** A1 -> B1 -> C1 -> A1. *)
Definition triangle_ops : list Op :=
  [OpAddCell A1; OpAddCell B1; OpAddCell C1; OpAddDependency A1 B1;
   OpAddDependency B1 C1; OpAddDependency C1 A1].
Definition triangle : DependencyGraph := graph_of triangle_ops.

(** A1 -> B1 -> C1 -> B1: a cycle that A1 reaches and is not on. *)
Definition tail_loop_ops : list Op :=
  [OpAddCell A1; OpAddCell B1; OpAddCell C1; OpAddDependency A1 B1;
   OpAddDependency B1 C1; OpAddDependency C1 B1].
Definition tail_loop : DependencyGraph := graph_of tail_loop_ops.

End GraphScenarios.

(* ===================================================================== *)
(** ** Further scenarios on the sample formula layer                      *)
(* ===================================================================== *)

Module MoreScenarios.
Import SampleFormula.

(** A position outside the grid. *)
Definition outside : Position := mkPos (-1) 0.

(** Text cells at A1, B2 and C3 of the new sheet; B2 is on no edge of the
    printable region. *)
Definition three_texts : Sheet :=
  sheet_after (script 4 [CallSetCell A1 "x"; CallSetCell B2 "y";
                         CallSetCell (mkPos 2 2) "z"]) Sheet_new.

(** A number at A1 and a formula over it at B1. *)
Definition sum_unread : Sheet :=
  sheet_after (script 4 [CallSetCell A1 "2"; CallSetCell B1 "=A1+3"])
    Sheet_new.
Definition sum_read : Sheet := sheet_after (GetValue 4 B1) sum_unread.


(** Two formulas over two numbers, both read: B1 over A1, B2 over A2. *)
Definition two_sums_calls : list Call :=
  [CallSetCell A1 "2"; CallSetCell B1 "=A1+3"; CallSetCell A2 "7";
   CallSetCell B2 "=A2+1"; CallGetValue B1; CallGetValue B2].
Definition two_sums : Sheet := sheet_after (script 4 two_sums_calls) Sheet_new.
Definition two_sums_rewritten : Sheet :=
  sheet_after (SetCell 4 A1 "10") two_sums.



(** The order in which the sample formula layer reports positions. *)
Definition position_le (p q : Position) : Prop := position_leb p q = true.


(** A text at C3, a formula at A1 that names the absent B2, then B2
    cleared: the graph keeps the node of B2 and the grid has no cell
    there. *)
Definition cleared_referent_calls : list Call :=
  [CallSetCell (mkPos 2 2) "x"; CallSetCell A1 "=B2"; CallClearCell B2].
Definition cleared_referent : Sheet :=
  sheet_after (script 4 cleared_referent_calls) Sheet_new.

End MoreScenarios.

(* ===================================================================== *)
(** ** The table a sheet prints                                           *)
(* ===================================================================== *)

Section Table.
Context {api : FormulaAPI}.

(** The text of the cell in a slot, nothing for an absent slot. *)
Definition text_at (cells : list (list (option Cell))) (r c : nat) : string :=
  match slot cells r c with
  | Some cell => Cell_GetText cell
  | None => EmptyString
  end.

(** A line of the table: the fields with a tab between two neighbours,
    then a newline. *)
Definition line_of (fields : list string) : string :=
  String.append (String.concat tab fields) newline.

(** The table of [nrows] lines of [ncols] fields each. *)
Definition table_of (field : nat -> nat -> string) (nrows ncols : nat)
  : string :=
  fold_right String.append EmptyString
    (map (fun r => line_of (map (field r) (seq 0 ncols))) (seq 0 nrows)).

(** The field [print_row] writes for column [j]. *)
Definition field_of (r : list (option Cell)) (j : nat) : string :=
  match mjoin (r !! j) with
  | Some cell => Cell_GetText cell
  | None => EmptyString
  end.

End Table.

(* ===================================================================== *)
(** ** sheet.cpp, lines 265-281: PrintValues                              *)
(* ===================================================================== *)

Section PrintValuesModel.
Context {api : FormulaAPI}.

(** What [operator<<] writes for a [double] and what
    [FormulaError::ToString] returns belong to the stream library and to
    common.h; the model is parametric in both. *)
Variable print_double : float -> string.
Variable FormulaError_ToString : FormulaError -> string.

(** The visitor of [PrintValues]: [output << elem] for each alternative
    of the value; for a [FormulaError] that is [operator<<] of
    formula.cpp, which writes [fe.ToString()]. *)
Definition show_value (v : Value) : string :=
  match v with
  | VString s => s
  | VDouble d => print_double d
  | VError e => FormulaError_ToString e
  end.

(** The inner loop of [PrintValues] on row [r], from column [c], with [n]
    columns left.  The reference [row] names row [r] of [cells_] as it is
    when a slot is tested; the cell of an occupied slot is asked for its
    value, which may fill caches.  The result is the text written to the
    stream. *)
Fixpoint print_value_row (fuel : nat) (r : nat) (c n : nat) : M string :=
  match n with
  | O => mret EmptyString
  | S n' =>
      s ← get;
      field ← match slot (cells_ s) r c with
              | Some _ =>
                  v ← Cell_GetValue fuel (mkPos (Z.of_nat r) (Z.of_nat c));
                  mret (show_value v)
              | None => mret EmptyString
              end;
      rest ← print_value_row fuel r (S c) n';
      mret (String.append (if 0 <? Z.of_nat c then tab else EmptyString)
              (String.append field rest))
  end.

(** The outer loop of [PrintValues], from row [r], with [n] rows left. *)
Fixpoint print_value_rows (fuel : nat) (ncols : nat) (r n : nat) : M string :=
  match n with
  | O => mret EmptyString
  | S n' =>
      s ← get;
      _ ← check (vec_at (cells_ s) (Z.of_nat r));
      line ← print_value_row fuel r O ncols;
      rest ← print_value_rows fuel ncols (S r) n';
      mret (String.append line (String.append newline rest))
  end.

(** [Sheet::PrintValues]: the text written to the stream when the call
    returns. *)
Definition PrintValues (fuel : nat) : M string :=
  s ← get;
  print_value_rows fuel (Z.to_nat (cols (printable_size_ s))) O
    (Z.to_nat (rows (printable_size_ s))).

End PrintValuesModel.

(** Every stored cell holds a cached value. *)
Definition all_cached {api : FormulaAPI} (s : Sheet) : Prop :=
  forall p c, nonneg p -> cell_at (cells_ s) p = Some c -> is_Some (cache_ c).

Module PrintScenarios.
Import SampleFormula.

(** A stream that writes every number as "n" and every error as "e". *)
Definition print_double (d : float) : string := "n".
Definition FormulaError_ToString (e : FormulaError) : string := "e".

(** What [PrintValues] writes for a sheet, the empty text when it does not
    return. *)
Definition printed_values (s : Sheet) : string :=
  match PrintValues print_double FormulaError_ToString 4 s with
  | Done out _ => out
  | _ => EmptyString
  end.

(** An escaped text at A1 and a plain one at B2. *)
Definition texts_calls : list Call :=
  [CallSetCell A1 "'=1+2"; CallSetCell B2 "y"].
Definition texts : Sheet := sheet_after (script 4 texts_calls) Sheet_new.

End PrintScenarios.

Section ValueTable.
Context {api : FormulaAPI}.

(** Every stored cell is a Text cell. *)
Definition text_only (s : Sheet) : Prop :=
  forall p c, nonneg p -> cell_at (cells_ s) p = Some c ->
    exists t, impl_ c = TextImpl t.

(** The value of the Text cell in a slot as a text: the stored text
    without a leading escape sign; nothing for any other slot. *)
Definition value_text_at (cells : list (list (option Cell))) (r c : nat)
  : string :=
  match slot cells r c with
  | Some cell =>
      match impl_ cell with
      | TextImpl t => if starts_with ESCAPE_SIGN t then substr1 t else t
      | _ => EmptyString
      end
  | None => EmptyString
  end.

(** The fields of a row from column [c] on, as the two printing loops
    lay them out: a tab before every field but the one of column 0. *)
Fixpoint fields_from (field : nat -> string) (c n : nat) : string :=
  match n with
  | O => EmptyString
  | S n' =>
      String.append (if 0 <? Z.of_nat c then tab else EmptyString)
        (String.append (field c) (fields_from field (S c) n'))
  end.

End ValueTable.

(** The ways a call may end without a fault of its own: it returns, it
    throws InvalidPositionException, or its recursion does not end. *)
Definition safe_outcome {api : FormulaAPI} {A : Type} (o : Outcome A) : Prop :=
  match o with
  | Done _ _ => True
  | Raised e _ => e = InvalidPositionException
  | Stuck f => f = FuelExhausted
  end.
(* ===================================================================== *)
(** ** The graph keeps its two edge sets in step                           *)
(* ===================================================================== *)

Module GraphFacts.

Lemma Contains_true (g : DependencyGraph) (p : Position) :
  Contains g p = true <-> is_Some (g !! p).
Proof. unfold Contains. apply bool_decide_eq_true. Qed.

Lemma Contains_false (g : DependencyGraph) (p : Position) :
  Contains g p = false <-> g !! p = None.
Proof.
  unfold Contains. rewrite bool_decide_eq_false, eq_None_not_Some. tauto.
Qed.

(** Reading the sets after one node was rewritten. *)
Lemma forward_alter (f : Node -> Node) (k : Position) (g : DependencyGraph)
    (p : Position) :
  forward (alter f k g) p =
  if decide (k = p)
  then match g !! k with Some n => forward_ (f n) | None => ∅ end
  else forward g p.
Proof.
  unfold forward. rewrite lookup_alter. case_decide; [subst|reflexivity].
  destruct (g !! p); reflexivity.
Qed.

Lemma backward_alter (f : Node -> Node) (k : Position) (g : DependencyGraph)
    (p : Position) :
  backward (alter f k g) p =
  if decide (k = p)
  then match g !! k with Some n => backward_ (f n) | None => ∅ end
  else backward g p.
Proof.
  unfold backward. rewrite lookup_alter. case_decide; [subst|reflexivity].
  destruct (g !! p); reflexivity.
Qed.

Lemma is_Some_alter (f : Node -> Node) (k : Position) (g : DependencyGraph)
    (p : Position) :
  is_Some (alter f k g !! p) <-> is_Some (g !! p).
Proof.
  rewrite lookup_alter. case_decide; [subst|reflexivity].
  rewrite fmap_is_Some. reflexivity.
Qed.

Lemma dom_alter_graph (f : Node -> Node) (k : Position) (g : DependencyGraph) :
  dom (alter f k g) = dom g.
Proof.
  apply set_eq. intros p. rewrite !elem_of_dom. apply is_Some_alter.
Qed.

(** [AddCell] adds no edge. *)
Lemma forward_AddCell (g : DependencyGraph) (c p : Position) :
  forward (AddCell g c) p = forward g p.
Proof.
  unfold AddCell. destruct (Contains g c) eqn:E; [reflexivity|].
  apply Contains_false in E. unfold forward.
  destruct (decide (c = p)) as [->|Hne].
  - rewrite lookup_insert_eq, E. reflexivity.
  - rewrite lookup_insert_ne by exact Hne. reflexivity.
Qed.

Lemma backward_AddCell (g : DependencyGraph) (c p : Position) :
  backward (AddCell g c) p = backward g p.
Proof.
  unfold AddCell. destruct (Contains g c) eqn:E; [reflexivity|].
  apply Contains_false in E. unfold backward.
  destruct (decide (c = p)) as [->|Hne].
  - rewrite lookup_insert_eq, E. reflexivity.
  - rewrite lookup_insert_ne by exact Hne. reflexivity.
Qed.

Lemma dom_AddCell (g : DependencyGraph) (c : Position) :
  dom (AddCell g c) = dom g ∪ {[c]}.
Proof.
  unfold AddCell. destruct (Contains g c) eqn:E.
  - apply Contains_true, elem_of_dom in E.
    apply set_eq. intros x. rewrite elem_of_union, elem_of_singleton.
    split; [tauto|]. intros [Hx| ->]; assumption.
  - rewrite dom_insert_L. apply union_comm_L.
Qed.


(** [AddDependency] adds the edge to both sets and nothing else. *)
Lemma AddDependency_Good (g g' : DependencyGraph) (a b : Position) :
  AddDependency g a b = Good g' ->
  is_Some (g !! a) /\ is_Some (g !! b) /\
  (forall p, forward g' p =
             if decide (a = p) then forward g a ∪ {[b]} else forward g p) /\
  (forall p, backward g' p =
             if decide (b = p) then backward g b ∪ {[a]} else backward g p) /\
  dom g' = dom g.
Proof.
  unfold AddDependency.
  destruct (Contains g a) eqn:Ea; [|discriminate].
  destruct (Contains g b) eqn:Eb; [|discriminate].
  simpl. intros [= <-].
  apply Contains_true in Ea, Eb.
  destruct Ea as [na Ha], Eb as [nb Hb].
  split; [eauto|]. split; [eauto|]. split; [|split].
  - intros p. unfold forward. rewrite !lookup_alter.
    repeat case_decide; subst; rewrite ?Ha, ?Hb; simpl; try congruence;
      rewrite ?Ha, ?Hb; reflexivity.
  - intros p. unfold backward. rewrite !lookup_alter.
    repeat case_decide; subst; rewrite ?Ha, ?Hb; simpl; try congruence;
      rewrite ?Ha, ?Hb; reflexivity.
  - rewrite !dom_alter_graph. reflexivity.
Qed.

(** [RemoveDependency] erases the edge from both sets and nothing else. *)
Lemma RemoveDependency_Good (g g' : DependencyGraph) (a b : Position) :
  RemoveDependency g a b = Good g' ->
  is_Some (g !! a) /\ is_Some (g !! b) /\
  (forall p, forward g' p =
             if decide (a = p) then forward g a ∖ {[b]} else forward g p) /\
  (forall p, backward g' p =
             if decide (b = p) then backward g b ∖ {[a]} else backward g p) /\
  dom g' = dom g.
Proof.
  unfold RemoveDependency.
  destruct (Contains g a) eqn:Ea; [|discriminate].
  destruct (Contains g b) eqn:Eb; [|discriminate].
  simpl. intros [= <-].
  apply Contains_true in Ea, Eb.
  destruct Ea as [na Ha], Eb as [nb Hb].
  split; [eauto|]. split; [eauto|]. split; [|split].
  - intros p. unfold forward. rewrite !lookup_alter.
    repeat case_decide; subst; rewrite ?Ha, ?Hb; simpl; try congruence;
      rewrite ?Ha, ?Hb; reflexivity.
  - intros p. unfold backward. rewrite !lookup_alter.
    repeat case_decide; subst; rewrite ?Ha, ?Hb; simpl; try congruence;
      rewrite ?Ha, ?Hb; reflexivity.
  - rewrite !dom_alter_graph. reflexivity.
Qed.

(** The two loops of [RemoveCell]. *)
Lemma erase_backward_all_spec (c : Position) (qs : list Position)
    (g : DependencyGraph) :
  (forall p, forward (erase_backward_all c qs g) p = forward g p) /\
  (forall p, backward (erase_backward_all c qs g) p =
             if decide (p ∈ qs) then backward g p ∖ {[c]} else backward g p) /\
  dom (erase_backward_all c qs g) = dom g.
Proof.
  revert g. induction qs as [|q qs IH]; intros g.
  - split; [reflexivity|]. split; [|reflexivity].
    intros p. destruct (decide (p ∈ [])) as [Hp|Hp]; [|reflexivity].
    apply not_elem_of_nil in Hp. destruct Hp.
  - unfold erase_backward_all in *. simpl.
    destruct (IH (alter (erase_backward c) q g)) as (IHf & IHb & IHd).
    split; [|split].
    + intros p. rewrite IHf. unfold forward. rewrite lookup_alter.
      case_decide; subst; destruct (g !! p); reflexivity.
    + intros p. rewrite IHb. unfold backward. rewrite lookup_alter.
      apply set_eq. intros x.
      repeat case_decide; subst; destruct (g !! _) eqn:E; simpl;
        rewrite ?E; set_solver.
    + rewrite IHd. apply dom_alter_graph.
Qed.

Lemma erase_forward_all_spec (c : Position) (qs : list Position)
    (g : DependencyGraph) :
  (forall p, backward (erase_forward_all c qs g) p = backward g p) /\
  (forall p, forward (erase_forward_all c qs g) p =
             if decide (p ∈ qs) then forward g p ∖ {[c]} else forward g p) /\
  dom (erase_forward_all c qs g) = dom g.
Proof.
  revert g. induction qs as [|q qs IH]; intros g.
  - split; [reflexivity|]. split; [|reflexivity].
    intros p. destruct (decide (p ∈ [])) as [Hp|Hp]; [|reflexivity].
    apply not_elem_of_nil in Hp. destruct Hp.
  - unfold erase_forward_all in *. simpl.
    destruct (IH (alter (erase_forward c) q g)) as (IHb & IHf & IHd).
    split; [|split].
    + intros p. rewrite IHb. unfold backward. rewrite lookup_alter.
      case_decide; subst; destruct (g !! p); reflexivity.
    + intros p. rewrite IHf. unfold forward. rewrite lookup_alter.
      apply set_eq. intros x.
      repeat case_decide; subst; destruct (g !! _) eqn:E; simpl;
        rewrite ?E; set_solver.
    + rewrite IHd. apply dom_alter_graph.
Qed.

(** What [RemoveCell] leaves: the node is gone, and with it every edge
    into it and out of it, provided the sets mirrored each other. *)
Lemma RemoveCell_spec (g : DependencyGraph) (c : Position) :
  consistent g ->
  (forall p, forward (RemoveCell g c) p =
             if decide (p = c) then ∅ else forward g p ∖ {[c]}) /\
  (forall p, backward (RemoveCell g c) p =
             if decide (p = c) then ∅ else backward g p ∖ {[c]}) /\
  dom (RemoveCell g c) = dom g ∖ {[c]}.
Proof.
  intros Hc. unfold RemoveCell.
  destruct (g !! c) as [n|] eqn:Hn.
  - destruct (erase_backward_all_spec c (elements (forward_ n)) g)
      as (F1 & B1 & D1).
    set (g1 := erase_backward_all c (elements (forward_ n)) g) in *.
    assert (Hin : is_Some (g1 !! c)).
    { apply elem_of_dom. rewrite D1. apply elem_of_dom. eauto. }
    destruct Hin as [n1 Hn1]. rewrite Hn1.
    destruct (erase_forward_all_spec c (elements (backward_ n1)) g1)
      as (B2 & F2 & D2).
    set (g2 := erase_forward_all c (elements (backward_ n1)) g1) in *.
    assert (Hfn : forward_ n = forward g c) by (unfold forward; rewrite Hn; reflexivity).
    assert (Hbn : backward_ n1 = backward g1 c) by (unfold backward; rewrite Hn1; reflexivity).
    split; [|split].
    + intros p. unfold forward at 1.
      destruct (decide (p = c)) as [->|Hne].
      * rewrite lookup_delete_eq. reflexivity.
      * rewrite lookup_delete_ne by congruence.
        change (forward g2 p = forward g p ∖ {[c]}).
        rewrite F2, F1. case_decide as Hp; [reflexivity|].
        apply set_eq. intros x. rewrite elem_of_difference, elem_of_singleton.
        split; [|tauto]. intros Hx. split; [exact Hx|]. intros ->.
        apply Hp. rewrite elem_of_elements, Hbn, B1.
        apply Hc in Hx. case_decide; set_solver.
    + intros p. unfold backward at 1.
      destruct (decide (p = c)) as [->|Hne].
      * rewrite lookup_delete_eq. reflexivity.
      * rewrite lookup_delete_ne by congruence.
        change (backward g2 p = backward g p ∖ {[c]}).
        rewrite B2, B1. case_decide as Hp; [reflexivity|].
        apply set_eq. intros x. rewrite elem_of_difference, elem_of_singleton.
        split; [|tauto]. intros Hx. split; [exact Hx|]. intros ->.
        apply Hp. rewrite elem_of_elements, Hfn. apply Hc. exact Hx.
    + rewrite dom_delete_L, D2, D1. reflexivity.
  - assert (Hf : forward g c = ∅) by (unfold forward; rewrite Hn; reflexivity).
    assert (Hb : backward g c = ∅) by (unfold backward; rewrite Hn; reflexivity).
    split; [|split].
    + intros p. case_decide; [subst; exact Hf|].
      apply set_eq. intros x. rewrite elem_of_difference, elem_of_singleton.
      split; [|tauto]. intros Hx. split; [exact Hx|]. intros ->.
      apply Hc in Hx. rewrite Hb in Hx. set_solver.
    + intros p. case_decide; [subst; exact Hb|].
      apply set_eq. intros x. rewrite elem_of_difference, elem_of_singleton.
      split; [|tauto]. intros Hx. split; [exact Hx|]. intros ->.
      apply Hc in Hx. rewrite Hf in Hx. set_solver.
    + apply not_elem_of_dom in Hn. set_solver.
Qed.

(** Each operation keeps the two sets in step. *)
Lemma consistent_empty : consistent empty_graph.
Proof. intros p q. unfold forward, backward, empty_graph. rewrite !lookup_empty. set_solver. Qed.

Lemma consistent_AddCell (g : DependencyGraph) (c : Position) :
  consistent g -> consistent (AddCell g c).
Proof.
  intros H p q. rewrite forward_AddCell, backward_AddCell. apply H.
Qed.

Lemma consistent_AddDependency (g g' : DependencyGraph) (a b : Position) :
  consistent g -> AddDependency g a b = Good g' -> consistent g'.
Proof.
  intros H E p q. apply AddDependency_Good in E as (_ & _ & F & B & _).
  rewrite F, B. specialize (H p q).
  repeat case_decide; subst; set_solver.
Qed.

Lemma consistent_RemoveDependency (g g' : DependencyGraph) (a b : Position) :
  consistent g -> RemoveDependency g a b = Good g' -> consistent g'.
Proof.
  intros H E p q. apply RemoveDependency_Good in E as (_ & _ & F & B & _).
  rewrite F, B. specialize (H p q).
  repeat case_decide; subst; set_solver.
Qed.

Lemma consistent_RemoveCell (g : DependencyGraph) (c : Position) :
  consistent g -> consistent (RemoveCell g c).
Proof.
  intros H p q. destruct (RemoveCell_spec g c H) as (F & B & _).
  rewrite F, B. specialize (H p q).
  repeat case_decide; subst; set_solver.
Qed.

Lemma consistent_step (g g' : DependencyGraph) (o : Op) :
  consistent g -> step g o = Good g' -> consistent g'.
Proof.
  intros H. destruct o; simpl.
  - intros [= <-]. apply consistent_AddCell, H.
  - apply consistent_AddDependency, H.
  - apply consistent_RemoveDependency, H.
  - intros [= <-]. apply consistent_RemoveCell, H.
Qed.

Lemma consistent_run (ops : list Op) (g g' : DependencyGraph) :
  consistent g -> run ops g = Good g' -> consistent g'.
Proof.
  revert g. induction ops as [|o ops IH]; simpl; intros g H.
  - intros [= <-]. exact H.
  - destruct (step g o) as [g1|] eqn:E; [|discriminate].
    apply IH. eapply consistent_step; eassumption.
Qed.

(** The operations [SetCell] uses keep every node under its own position. *)
Lemma keyed_alter (f : Node -> Node) (k : Position) (g : DependencyGraph) :
  (forall n, cell_ (f n) = cell_ n) -> keyed g -> keyed (alter f k g).
Proof.
  intros Hf Hk p n. rewrite lookup_alter. case_decide; [subst|apply Hk].
  destruct (g !! p) as [n0|] eqn:E; [|discriminate].
  intros [= <-]. rewrite Hf. apply Hk, E.
Qed.

Lemma well_formed_empty : well_formed empty_graph.
Proof.
  split; [exact consistent_empty|]. intros p n.
  unfold empty_graph. rewrite lookup_empty. discriminate.
Qed.

Lemma well_formed_AddCell (g : DependencyGraph) (c : Position) :
  well_formed g -> well_formed (AddCell g c).
Proof.
  intros [Hc Hk]. split; [apply consistent_AddCell, Hc|].
  unfold AddCell. destruct (Contains g c); [exact Hk|].
  intros p n. destruct (decide (c = p)) as [->|Hne].
  - rewrite lookup_insert_eq. intros [= <-]. reflexivity.
  - rewrite lookup_insert_ne by exact Hne. apply Hk.
Qed.

Lemma well_formed_AddDependency (g g' : DependencyGraph) (a b : Position) :
  well_formed g -> AddDependency g a b = Good g' -> well_formed g'.
Proof.
  intros [Hc Hk] E. split; [eapply consistent_AddDependency; eassumption|].
  unfold AddDependency in E.
  destruct (Contains g a); [|discriminate].
  destruct (Contains g b); [|discriminate].
  injection E as <-. apply keyed_alter; [reflexivity|].
  apply keyed_alter; [reflexivity|exact Hk].
Qed.

Lemma well_formed_RemoveDependency (g g' : DependencyGraph) (a b : Position) :
  well_formed g -> RemoveDependency g a b = Good g' -> well_formed g'.
Proof.
  intros [Hc Hk] E. split; [eapply consistent_RemoveDependency; eassumption|].
  unfold RemoveDependency in E.
  destruct (Contains g a); [|discriminate].
  destruct (Contains g b); [|discriminate].
  injection E as <-. apply keyed_alter; [reflexivity|].
  apply keyed_alter; [reflexivity|exact Hk].
Qed.

(** No edge dangles: with every node under its own position, this is what
    lets a position stand for the [Node*] the sets hold. *)
Lemma closed_step (g g' : DependencyGraph) (o : Op) :
  consistent g -> closed g -> step g o = Good g' -> closed g'.
Proof.
  intros Hc Hcl. destruct o as [c|a b|a b|c]; simpl.
  - intros [= <-] p q. rewrite forward_AddCell. intros Hin.
    apply elem_of_dom. rewrite dom_AddCell. apply elem_of_union_l.
    apply elem_of_dom. apply (Hcl p q Hin).
  - intros E p q. apply AddDependency_Good in E as (_ & Hb & F & _ & D).
    rewrite F. intros Hin. apply elem_of_dom. rewrite D. apply elem_of_dom.
    destruct (decide (a = p)) as [_|_]; [|apply (Hcl p q Hin)].
    apply elem_of_union in Hin as [Hin|Hin]; [apply (Hcl a q Hin)|].
    apply elem_of_singleton in Hin. subst q. exact Hb.
  - intros E p q. apply RemoveDependency_Good in E as (_ & _ & F & _ & D).
    rewrite F. intros Hin. apply elem_of_dom. rewrite D. apply elem_of_dom.
    destruct (decide (a = p)) as [_|_]; [|apply (Hcl p q Hin)].
    apply elem_of_difference in Hin as [Hin _]. apply (Hcl a q Hin).
  - intros [= <-] p q. destruct (RemoveCell_spec g c Hc) as (F & _ & D).
    rewrite F.
    destruct (decide (p = c)) as [_|_];
      [intros Hin; apply elem_of_empty in Hin; destruct Hin|].
    intros Hin. apply elem_of_difference in Hin as [Hin Hq].
    apply elem_of_dom. rewrite D. apply elem_of_difference. split; [|exact Hq].
    apply elem_of_dom. apply (Hcl p q Hin).
Qed.

Lemma closed_run (ops : list Op) (g : DependencyGraph) :
  run ops empty_graph = Good g -> closed g.
Proof.
  assert (H : forall g0, consistent g0 -> closed g0 ->
                         run ops g0 = Good g -> closed g).
  { induction ops as [|o ops IH]; simpl; intros g0 Hc Hcl.
    - intros [= <-]. exact Hcl.
    - destruct (step g0 o) as [g1|] eqn:E; [|discriminate].
      apply IH; [eapply consistent_step|eapply closed_step]; eassumption. }
  apply H; [exact consistent_empty|].
  intros p q. unfold forward, empty_graph. rewrite lookup_empty.
  intros Hq. apply elem_of_empty in Hq. destruct Hq.
Qed.

(** C6: after every sequence of AddCell, AddDependency, RemoveDependency
    and RemoveCell run from the empty graph (a run that passes every
    [assert]), [q] is in the forward set of [p] exactly when [p] is in the
    backward set of [q], for all positions [p] and [q]. *)
Theorem graph_forward_backward_mirror (ops : list Op) (g : DependencyGraph) :
  run ops empty_graph = Good g ->
  forall p q : Position, q ∈ forward g p <-> p ∈ backward g q.
Proof.
  intros H. exact (consistent_run ops empty_graph g consistent_empty H).
Qed.

Lemma graph_forward_backward_mirror_witness :
  run [OpAddCell (mkPos 0 0); OpAddCell (mkPos 0 1);
       OpAddDependency (mkPos 0 0) (mkPos 0 1);
       OpAddDependency (mkPos 0 1) (mkPos 0 1);
       OpRemoveDependency (mkPos 0 0) (mkPos 0 1);
       OpAddDependency (mkPos 0 0) (mkPos 0 1);
       OpRemoveCell (mkPos 0 1)] empty_graph
    = Good (AddCell empty_graph (mkPos 0 0)) /\
  forall p q : Position,
    q ∈ forward (AddCell empty_graph (mkPos 0 0)) p <->
    p ∈ backward (AddCell empty_graph (mkPos 0 0)) q.
Proof.
  assert (H : run [OpAddCell (mkPos 0 0); OpAddCell (mkPos 0 1);
       OpAddDependency (mkPos 0 0) (mkPos 0 1);
       OpAddDependency (mkPos 0 1) (mkPos 0 1);
       OpRemoveDependency (mkPos 0 0) (mkPos 0 1);
       OpAddDependency (mkPos 0 0) (mkPos 0 1);
       OpRemoveCell (mkPos 0 1)] empty_graph
    = Good (AddCell empty_graph (mkPos 0 0))).
  { match goal with
    | |- ?x = ?y => exact (@eq_refl _ y <: x = y)
    end. }
  split; [exact H|].
  exact (graph_forward_backward_mirror _ _ H).
Defined.

End GraphFacts.

(* ===================================================================== *)
(** ** Runs of the monad                                                  *)
(* ===================================================================== *)

Section MonadFacts.
Context {api : FormulaAPI}.

Lemma bind_Done {A B : Type} (m : M A) (f : A -> M B) (s s' : Sheet) (b : B) :
  (m ≫= f) s = Done b s' ->
  exists a s1, m s = Done a s1 /\ f a s1 = Done b s'.
Proof.
  unfold mbind, M_bind. destruct (m s) as [a s1|e s1|fl]; try discriminate.
  intros H. exists a, s1. split; [reflexivity|exact H].
Qed.

Lemma bind_Raised {A B : Type} (m : M A) (f : A -> M B) (s s' : Sheet)
    (e : Exception) :
  (m ≫= f) s = Raised e s' ->
  m s = Raised e s' \/ exists a s1, m s = Done a s1 /\ f a s1 = Raised e s'.
Proof.
  unfold mbind, M_bind. destruct (m s) as [a s1|e1 s1|fl]; try discriminate.
  - intros H. right. exists a, s1. split; [reflexivity|exact H].
  - intros [= -> ->]. left. reflexivity.
Qed.

Lemma check_Done {A : Type} (c : Checked A) (s s' : Sheet) (a : A) :
  check c s = Done a s' -> c = Good a /\ s' = s.
Proof.
  destruct c; simpl; unfold mret, M_ret, stuck; [|discriminate].
  intros [= -> ->]. split; reflexivity.
Qed.

Lemma check_not_Raised {A : Type} (c : Checked A) (s s' : Sheet) (e : Exception) :
  check c s = Raised e s' -> False.
Proof. destruct c; simpl; unfold mret, M_ret, stuck; discriminate. Qed.

Lemma ValidatePosition_Done (pos : Position) (s s' : Sheet) (u : unit) :
  ValidatePosition pos s = Done u s' -> IsValid pos = true /\ s' = s.
Proof.
  unfold ValidatePosition. destruct (IsValid pos); unfold mret, M_ret, throw.
  - intros [= _ ->]. split; reflexivity.
  - discriminate.
Qed.

Lemma IsValid_nonneg (p : Position) : IsValid p = true -> nonneg p.
Proof.
  unfold IsValid, nonneg. rewrite !andb_true_iff, !Z.leb_le. tauto.
Qed.

(** The rules of [triple]. *)
Lemma triple_ret {A : Type} (P : Sheet -> Prop) (a : A)
    (Q : A -> Sheet -> Prop) (E : Sheet -> Prop) :
  (forall s, P s -> Q a s) -> triple P (mret a) Q E.
Proof. intros H s Hs. apply H, Hs. Qed.

Lemma triple_bind {A B : Type} (P : Sheet -> Prop) (m : M A) (f : A -> M B)
    (Q : A -> Sheet -> Prop) (R : B -> Sheet -> Prop) (E : Sheet -> Prop) :
  triple P m Q E -> (forall a, triple (Q a) (f a) R E) ->
  triple P (m ≫= f) R E.
Proof.
  intros Hm Hf s Hs. specialize (Hm s Hs). unfold mbind, M_bind.
  destruct (m s) as [a s1|e s1|fl]; [|exact Hm|exact I].
  apply (Hf a s1 Hm).
Qed.

Lemma triple_weaken {A : Type} (P P' : Sheet -> Prop) (m : M A)
    (Q Q' : A -> Sheet -> Prop) (E E' : Sheet -> Prop) :
  triple P m Q E -> (forall s, P' s -> P s) ->
  (forall a s, Q a s -> Q' a s) -> (forall s, E s -> E' s) ->
  triple P' m Q' E'.
Proof.
  intros H HP HQ HE s Hs. specialize (H s (HP s Hs)).
  destruct (m s); auto.
Qed.

Lemma triple_pure_pre {A : Type} (P : Sheet -> Prop) (phi : Prop) (m : M A)
    (Q : A -> Sheet -> Prop) (E : Sheet -> Prop) :
  (phi -> triple P m Q E) -> triple (fun s => P s /\ phi) m Q E.
Proof. intros H s [Hs Hphi]. apply (H Hphi s Hs). Qed.

Lemma triple_throw {A : Type} (P : Sheet -> Prop) (e : Exception)
    (Q : A -> Sheet -> Prop) (E : Sheet -> Prop) :
  (forall s, P s -> E s) -> triple P (throw e) Q E.
Proof. intros H s Hs. apply H, Hs. Qed.

Lemma triple_stuck {A : Type} (P : Sheet -> Prop) (f : Fault)
    (Q : A -> Sheet -> Prop) (E : Sheet -> Prop) :
  triple P (stuck f) Q E.
Proof. intros s Hs. exact I. Qed.




(** A state read by [get] is the state the continuation starts in. *)
Lemma triple_get_bind {B : Type} (P : Sheet -> Prop) (f : Sheet -> M B)
    (R : B -> Sheet -> Prop) (E : Sheet -> Prop) :
  (forall s0, P s0 -> triple (fun s => s = s0) (f s0) R E) ->
  triple P (get ≫= f) R E.
Proof.
  intros H s Hs. unfold mbind, M_bind, get. apply (H s Hs s). reflexivity.
Qed.

Lemma triple_for_each {A : Type} (I : Sheet -> Prop) (l : list A)
    (body : A -> M unit) :
  (forall x, x ∈ l -> triple I (body x) (fun _ => I) I) ->
  triple I (for_each l body) (fun _ => I) I.
Proof.
  induction l as [|x l IH]; intros H; simpl.
  - apply triple_ret. auto.
  - eapply triple_bind.
    + apply H. apply list_elem_of_here.
    + intros u. apply IH. intros y Hy. apply H. apply list_elem_of_further, Hy.
Qed.

End MonadFacts.

(** Splitting a run that returned along its binds. *)
Ltac inv_bind H :=
  let a := fresh "a" in
  let s := fresh "s" in
  let H1 := fresh H "a" in
  apply bind_Done in H as (a & s & H1 & H).

(** Closing an equation between two closed runs by evaluating both sides. *)
Ltac by_evaluation :=
  match goal with
  | |- ?x = ?y => exact (@eq_refl _ y <: x = y)
  end.

(* ===================================================================== *)
(** ** The grid: reading and placing cells                                *)
(* ===================================================================== *)

Section GridFacts.
Context {api : FormulaAPI}.

Lemma vec_at_Good {A : Type} (v : list A) (i : Z) (x : A) :
  vec_at v i = Good x <->
  0 <= i /\ v !! Z.to_nat i = Some x.
Proof.
  unfold vec_at. split.
  - destruct ((0 <=? i) && (i <? Z.of_nat (length v))) eqn:E; [|discriminate].
    apply andb_true_iff in E as [E1 E2]. apply Z.leb_le in E1.
    destruct (v !! Z.to_nat i); [|discriminate].
    intros [= ->]. split; [exact E1|reflexivity].
  - intros [H1 H2].
    assert (Hlt : (Z.to_nat i < length v)%nat) by (eapply lookup_lt_Some, H2).
    replace ((0 <=? i) && (i <? Z.of_nat (length v))) with true.
    + rewrite H2. reflexivity.
    + symmetry. apply andb_true_iff. split; [apply Z.leb_le|apply Z.ltb_lt]; lia.
Qed.

Lemma vec_at_Bad {A : Type} (v : list A) (i : Z) :
  Z.of_nat (length v) <= i -> vec_at v i = Bad OutOfRange.
Proof.
  intros H. unfold vec_at.
  replace (i <? Z.of_nat (length v)) with false
    by (symmetry; apply Z.ltb_ge; exact H).
  rewrite andb_false_r. reflexivity.
Qed.

Lemma lookup_resize_grow {A : Type} (l : list A) (n : nat) (x : A) (i : nat) :
  (length l <= n)%nat ->
  resize n x l !! i =
  if decide (i < length l)%nat then l !! i
  else if decide (i < n)%nat then Some x else None.
Proof.
  intros H. rewrite resize_ge by exact H.
  case_decide as H1.
  - apply lookup_app_l. exact H1.
  - rewrite lookup_app_r by lia. case_decide as H2.
    + apply lookup_replicate_2. lia.
    + apply lookup_ge_None_2. rewrite length_replicate. lia.
Qed.

(** [GetConcreteCell] reads the slot. *)
Lemma concrete_cell_cell_at (cells : list (list (option Cell))) (p : Position) :
  nonneg p -> concrete_cell cells p = Good (cell_at cells p).
Proof.
  intros [Hr Hc]. unfold concrete_cell, cell_at, slot.
  destruct (row p <? Z.of_nat (length cells)) eqn:E1.
  - apply Z.ltb_lt in E1.
    destruct (lookup_lt_is_Some_2 cells (Z.to_nat (row p))) as [r Hrow]; [lia|].
    rewrite Hrow.
    rewrite (proj2 (vec_at_Good cells (row p) r)) by (split; assumption).
    destruct (col p <? Z.of_nat (length r)) eqn:E2.
    + apply Z.ltb_lt in E2.
      destruct (lookup_lt_is_Some_2 r (Z.to_nat (col p))) as [o Ho]; [lia|].
      rewrite Ho.
      rewrite (proj2 (vec_at_Good r (col p) o)) by (split; assumption).
      destruct o; reflexivity.
    + apply Z.ltb_ge in E2.
      rewrite (lookup_ge_None_2 r (Z.to_nat (col p))) by lia. reflexivity.
  - apply Z.ltb_ge in E1.
    rewrite (lookup_ge_None_2 cells (Z.to_nat (row p))) by lia. reflexivity.
Qed.

Lemma GetConcreteCell_nonneg (p : Position) (s : Sheet) :
  nonneg p -> GetConcreteCell p s = Done (cell_at (cells_ s) p) s.
Proof.
  intros H. unfold GetConcreteCell, mbind, M_bind, get.
  rewrite concrete_cell_cell_at by exact H. reflexivity.
Qed.

Lemma GetCell_valid (p : Position) (s : Sheet) :
  IsValid p = true -> GetCell p s = Done (cell_at (cells_ s) p) s.
Proof.
  intros H. unfold GetCell, ValidatePosition, mbind, M_bind. rewrite H.
  unfold mret, M_ret. apply GetConcreteCell_nonneg, IsValid_nonneg, H.
Qed.

Lemma GetCell_invalid (p : Position) (s : Sheet) :
  IsValid p = false -> GetCell p s = Raised InvalidPositionException s.
Proof.
  intros H. unfold GetCell, ValidatePosition, mbind, M_bind. rewrite H.
  reflexivity.
Qed.

(** Writing one slot after the two [resize]s of [PlaceCell]. *)
Lemma slot_place (cells : list (list (option Cell))) (i0 j0 : nat)
    (o : option Cell) (i j : nat) :
  let cells1 := if decide (length cells <= i0)%nat
                then resize (S i0) [] cells else cells in
  forall r, cells1 !! i0 = Some r ->
  let r1 := if decide (length r <= j0)%nat then resize (S j0) None r else r in
  slot (<[i0 := <[j0 := o]> r1]> cells1) i j =
  if decide (i = i0 /\ j = j0) then o else slot cells i j.
Proof.
  intros cells1 r Hr r1.
  assert (Hlen1 : (i0 < length cells1)%nat) by (eapply lookup_lt_Some, Hr).
  assert (Hlenr : (j0 < length r1)%nat).
  { unfold r1. case_decide; [rewrite length_resize|]; lia. }
  assert (Hold : forall k, k <> i0 ->
            slot cells1 k j = slot cells k j).
  { intros k Hk. unfold cells1, slot. case_decide as Hd; [|reflexivity].
    rewrite lookup_resize_grow by lia.
    repeat case_decide; try reflexivity.
    - rewrite lookup_nil. rewrite (lookup_ge_None_2 cells k) by lia. reflexivity.
    - rewrite (lookup_ge_None_2 cells k) by lia. reflexivity. }
  assert (Hrow : forall k, k <> j0 ->
            match r1 !! k with Some (Some c) => Some c | _ => None end =
            slot cells i0 k).
  { intros k Hk. unfold r1, slot.
    assert (Hr' : match r !! k with Some (Some c) => Some c | _ => None end =
                  match cells !! i0 with
                  | Some r0 => match r0 !! k with Some (Some c) => Some c | _ => None end
                  | None => None
                  end).
    { unfold cells1 in Hr. case_decide as Hd.
      - rewrite lookup_resize_grow in Hr by lia.
        rewrite decide_False in Hr by lia. rewrite decide_True in Hr by lia.
        injection Hr as <-. rewrite lookup_nil.
        rewrite (lookup_ge_None_2 cells i0) by lia. reflexivity.
      - rewrite Hr. reflexivity. }
    rewrite <- Hr'. case_decide as Hd; [|reflexivity].
    rewrite lookup_resize_grow by lia.
    repeat case_decide; try reflexivity;
      rewrite (lookup_ge_None_2 r k) by lia; reflexivity. }
  unfold slot at 1.
  destruct (decide (i = i0)) as [->|Hi].
  - rewrite list_lookup_insert_eq by exact Hlen1.
    destruct (decide (j = j0)) as [->|Hj].
    + rewrite list_lookup_insert_eq by exact Hlenr.
      rewrite decide_True by (split; reflexivity). destruct o; reflexivity.
    + rewrite list_lookup_insert_ne by congruence.
      rewrite decide_False by tauto. apply Hrow. exact Hj.
  - rewrite list_lookup_insert_ne by congruence.
    rewrite decide_False by tauto. apply (Hold i Hi).
Qed.

(** [PlaceCell] at a position without negative coordinates returns; it
    writes the slot, leaves the other slots and the graph, and grows the
    printable region and the stored rows to include the position. *)
Lemma PlaceCell_Done (p : Position) (c : Cell) (s : Sheet) :
  nonneg p ->
  exists s', PlaceCell p c s = Done tt s' /\
    graph_ s' = graph_ s /\
    printable_size_ s' =
      mkSize (Z.max (rows (printable_size_ s)) (row p + 1))
             (Z.max (cols (printable_size_ s)) (col p + 1)) /\
    (forall q, nonneg q ->
       cell_at (cells_ s') q =
       if decide (q = p) then Some c else cell_at (cells_ s) q) /\
    Z.of_nat (length (cells_ s')) =
      Z.max (Z.of_nat (length (cells_ s))) (row p + 1).
Proof.
  intros [Hr Hc]. unfold PlaceCell, mbind, M_bind, get.
  set (cells1 := if Z.of_nat (length (cells_ s)) <=? row p
                 then resize (Z.to_nat (row p + 1)) [] (cells_ s)
                 else cells_ s).
  assert (Hc1 : cells1 =
                if decide (length (cells_ s) <= Z.to_nat (row p))%nat
                then resize (S (Z.to_nat (row p))) [] (cells_ s) else cells_ s).
  { unfold cells1. destruct (Z.leb_spec (Z.of_nat (length (cells_ s))) (row p)).
    - rewrite decide_True by lia. f_equal. lia.
    - rewrite decide_False by lia. reflexivity. }
  assert (Hlen1 : (Z.to_nat (row p) < length cells1)%nat).
  { rewrite Hc1. case_decide; [rewrite length_resize|]; lia. }
  destruct (lookup_lt_is_Some_2 _ _ Hlen1) as [r Hrow].
  rewrite (proj2 (vec_at_Good cells1 (row p) r)) by (split; assumption).
  simpl.
  set (r1 := if Z.of_nat (length r) <=? col p
             then resize (Z.to_nat (col p + 1)) None r else r).
  assert (Hr1 : r1 = if decide (length r <= Z.to_nat (col p))%nat
                     then resize (S (Z.to_nat (col p))) None r else r).
  { unfold r1. destruct (Z.leb_spec (Z.of_nat (length r)) (col p)).
    - rewrite decide_True by lia. f_equal. lia.
    - rewrite decide_False by lia. reflexivity. }
  assert (Hlenr : (Z.to_nat (col p) < length r1)%nat).
  { rewrite Hr1. case_decide; [rewrite length_resize|]; lia. }
  destruct (lookup_lt_is_Some_2 _ _ Hlenr) as [o Ho].
  rewrite (proj2 (vec_at_Good r1 (col p) o)) by (split; assumption).
  simpl. eexists. split; [reflexivity|]. simpl.
  split; [reflexivity|]. split; [reflexivity|]. split.
  - intros q [Hqr Hqc]. unfold cell_at. rewrite Hr1.
    rewrite Hc1 in Hrow |- *.
    rewrite (slot_place (cells_ s) (Z.to_nat (row p)) (Z.to_nat (col p))
               (Some c) (Z.to_nat (row q)) (Z.to_nat (col q)) r Hrow).
    destruct (decide (q = p)) as [->|Hne].
    + rewrite decide_True by (split; reflexivity). reflexivity.
    + rewrite decide_False; [reflexivity|].
      intros [H1 H2]. apply Hne. destruct q, p; simpl in *. f_equal; lia.
  - rewrite length_insert, Hc1.
    destruct (decide (length (cells_ s) <= Z.to_nat (row p))%nat);
      [rewrite length_resize|]; lia.
Qed.

End GridFacts.

Section GridUpdates.
Context {api : FormulaAPI}.

(** Overwriting one slot of a stored row. *)
Lemma slot_insert (cells : list (list (option Cell))) (i0 j0 : nat)
    (r : list (option Cell)) (o : option Cell) (i j : nat) :
  cells !! i0 = Some r -> (j0 < length r)%nat ->
  slot (<[i0 := <[j0 := o]> r]> cells) i j =
  if decide (i = i0 /\ j = j0) then o else slot cells i j.
Proof.
  intros Hr Hj.
  assert (Hi : (i0 < length cells)%nat) by (eapply lookup_lt_Some, Hr).
  unfold slot. destruct (decide (i = i0)) as [->|Hne].
  - rewrite list_lookup_insert_eq by exact Hi. rewrite Hr.
    destruct (decide (j = j0)) as [->|Hnj].
    + rewrite list_lookup_insert_eq by exact Hj.
      rewrite decide_True by (split; reflexivity). destruct o; reflexivity.
    + rewrite list_lookup_insert_ne by congruence.
      rewrite decide_False by tauto. reflexivity.
  - rewrite list_lookup_insert_ne by congruence.
    rewrite decide_False by tauto. reflexivity.
Qed.

Lemma position_eq_nat (p q : Position) :
  nonneg p -> nonneg q ->
  Z.to_nat (row q) = Z.to_nat (row p) /\ Z.to_nat (col q) = Z.to_nat (col p) <->
  q = p.
Proof.
  intros [? ?] [? ?]. split.
  - intros [? ?]. destruct p, q; simpl in *. f_equal; lia.
  - intros ->. split; reflexivity.
Qed.

(** A pointer that [GetConcreteCell] returned names a stored slot. *)
Lemma concrete_cell_Some (cells : list (list (option Cell))) (p : Position)
    (c : Cell) :
  concrete_cell cells p = Good (Some c) ->
  nonneg p /\ cell_at cells p = Some c /\
  exists r, cells !! Z.to_nat (row p) = Some r /\
            (Z.to_nat (col p) < length r)%nat /\
            vec_at cells (row p) = Good r.
Proof.
  unfold concrete_cell.
  destruct (row p <? Z.of_nat (length cells)); [|discriminate].
  destruct (vec_at cells (row p)) as [r|] eqn:Er; [|discriminate].
  destruct (col p <? Z.of_nat (length r)); [|discriminate].
  intros Ec. apply vec_at_Good in Er as [Hr0 Hr], Ec as [Hc0 Hc].
  split; [split; assumption|]. split.
  - unfold cell_at, slot. rewrite Hr, Hc. reflexivity.
  - exists r. split; [exact Hr|]. split; [eapply lookup_lt_Some, Hc|].
    reflexivity.
Qed.

(** The sheet after the cell at [p] was rewritten in place. *)
Lemma cell_at_rewrite (cells : list (list (option Cell))) (p : Position)
    (r : list (option Cell)) (o : option Cell) (q : Position) :
  nonneg p -> nonneg q ->
  cells !! Z.to_nat (row p) = Some r -> (Z.to_nat (col p) < length r)%nat ->
  cell_at (<[Z.to_nat (row p) := <[Z.to_nat (col p) := o]> r]> cells) q =
  if decide (q = p) then o else cell_at cells q.
Proof.
  intros Hp Hq Hr Hc. unfold cell_at. rewrite (slot_insert _ _ _ r) by assumption.
  destruct (decide (q = p)) as [->|Hne].
  - rewrite decide_True by (split; reflexivity). reflexivity.
  - rewrite decide_False; [reflexivity|].
    intros H. apply Hne. apply (position_eq_nat p q Hp Hq). exact H.
Qed.

End GridUpdates.

(* ===================================================================== *)
(** ** The phases of SetCell                                              *)
(* ===================================================================== *)

Section SetCellPhases.
Context {api : FormulaAPI}.

(** The first loop, when it runs to its end: every referenced position is
    valid and differs from [pos]; absent referents hold a new Empty cell
    and lie inside the printable region; nothing else changed. *)
Lemma materialize_Done (pos : Position) (l acc res : list Position)
    (s s1 : Sheet) :
  materialize pos l acc s = Done res s1 ->
  graph_ s1 = graph_ s /\
  Forall (fun r => r <> pos /\ IsValid r = true) l /\
  (forall q, nonneg q -> q ∈ l -> cell_at (cells_ s) q = None ->
     cell_at (cells_ s1) q = Some Cell_new /\
     row q < rows (printable_size_ s1) /\ col q < cols (printable_size_ s1)) /\
  (forall q, nonneg q -> q ∉ l \/ cell_at (cells_ s) q <> None ->
     cell_at (cells_ s1) q = cell_at (cells_ s) q) /\
  rows (printable_size_ s) <= rows (printable_size_ s1) /\
  cols (printable_size_ s) <= cols (printable_size_ s1).
Proof.
  revert acc s. induction l as [|next rest IH]; intros acc s; simpl.
  - unfold mret, M_ret. intros [= _ <-].
    split; [reflexivity|]. split; [constructor|]. split.
    + intros q _ Hq. apply not_elem_of_nil in Hq. destruct Hq.
    + split; [reflexivity|]. lia.
  - destruct (decide (next = pos)) as [->|Hne]; [discriminate|].
    intros H. inv_bind H.
    destruct (IsValid next) eqn:Hv.
    2:{ rewrite GetCell_invalid in Ha by exact Hv. discriminate. }
    rewrite GetCell_valid in Ha by exact Hv. injection Ha as <- <-.
    pose proof (IsValid_nonneg next Hv) as Hnn.
    destruct (cell_at (cells_ s) next) as [c|] eqn:Hcell.
    + apply IH in H as (Hg & Hall & Hnew & Hold & Hrows & Hcols).
      split; [exact Hg|]. split; [constructor; [split; assumption|exact Hall]|].
      split; [|split; [|split; assumption]].
      * intros q Hq Hin Habs. apply Hnew; [exact Hq| |exact Habs].
        apply elem_of_cons in Hin as [->|Hin]; [congruence|exact Hin].
      * intros q Hq Hcase. apply Hold; [exact Hq|].
        destruct Hcase as [Hnotin|Hpres]; [left|right; exact Hpres].
        intros Hin. apply Hnotin. apply list_elem_of_further, Hin.
    + inv_bind H.
      destruct (PlaceCell_Done next Cell_new s Hnn)
        as (s' & Hplace & Hg' & Hsz' & Hcells' & _).
      rewrite Hplace in Ha. injection Ha as _ <-.
      apply IH in H as (Hg & Hall & Hnew & Hold & Hrows & Hcols).
      rewrite Hsz' in Hrows, Hcols. simpl in Hrows, Hcols.
      split; [congruence|].
      split; [constructor; [split; assumption|exact Hall]|].
      split; [|split; [|split; lia]].
      * intros q Hq Hin Habs.
        destruct (decide (q = next)) as [->|Hqn].
        -- split; [|lia].
           rewrite Hold; [|exact Hq|].
           ++ rewrite Hcells' by exact Hq. rewrite decide_True by reflexivity.
              reflexivity.
           ++ right. rewrite Hcells' by exact Hq.
              rewrite decide_True by reflexivity. discriminate.
        -- apply Hnew; [exact Hq| |].
           ++ apply elem_of_cons in Hin as [->|Hin]; [congruence|exact Hin].
           ++ rewrite Hcells' by exact Hq. rewrite decide_False by exact Hqn.
              exact Habs.
      * intros q Hq Hcase.
        assert (Hqn : q <> next).
        { destruct Hcase as [Hnotin|Hpres].
          - intros ->. apply Hnotin. apply list_elem_of_here.
          - intros ->. apply Hpres. exact Hcell. }
        rewrite Hold; [|exact Hq|].
        -- rewrite Hcells' by exact Hq. rewrite decide_False by exact Hqn.
           reflexivity.
        -- rewrite Hcells' by exact Hq. rewrite decide_False by exact Hqn.
           destruct Hcase as [Hnotin|Hpres]; [left|right; exact Hpres].
           intros Hin. apply Hnotin. apply list_elem_of_further, Hin.
Qed.

(** The calls into the graph leave the grid and the printable region. *)
Lemma graph_AddCell_Done (c : Position) (s s' : Sheet) (u : unit) :
  graph_AddCell c s = Done u s' ->
  s' = mkSheet (AddCell (graph_ s) c) (cells_ s) (printable_size_ s).
Proof.
  unfold graph_AddCell, set_graph, mbind, M_bind, get, put.
  intros [= _ <-]. reflexivity.
Qed.

Lemma graph_AddDependency_Done (a b : Position) (s s' : Sheet) (u : unit) :
  graph_AddDependency a b s = Done u s' ->
  exists g, AddDependency (graph_ s) a b = Good g /\
            s' = mkSheet g (cells_ s) (printable_size_ s).
Proof.
  unfold graph_AddDependency, set_graph, mbind, M_bind, get, put.
  destruct (AddDependency (graph_ s) a b) as [g|]; simpl; [|discriminate].
  intros [= _ <-]. exists g. split; reflexivity.
Qed.

Lemma graph_RemoveDependency_Done (a b : Position) (s s' : Sheet) (u : unit) :
  graph_RemoveDependency a b s = Done u s' ->
  exists g, RemoveDependency (graph_ s) a b = Good g /\
            s' = mkSheet g (cells_ s) (printable_size_ s).
Proof.
  unfold graph_RemoveDependency, set_graph, mbind, M_bind, get, put.
  destruct (RemoveDependency (graph_ s) a b) as [g|]; simpl; [|discriminate].
  intros [= _ <-]. exists g. split; reflexivity.
Qed.

(** The loop that removes the old edges. *)
Lemma remove_loop_Done (pos : Position) (l : list Position) (s s' : Sheet) :
  for_each l (fun next => graph_RemoveDependency pos next) s = Done tt s' ->
  cells_ s' = cells_ s /\ printable_size_ s' = printable_size_ s /\
  (forall p, forward (graph_ s') p =
     if decide (p = pos) then forward (graph_ s) pos ∖ list_to_set l
     else forward (graph_ s) p) /\
  (forall q, backward (graph_ s') q =
     if decide (q ∈ l) then backward (graph_ s) q ∖ {[pos]}
     else backward (graph_ s) q) /\
  dom (graph_ s') = dom (graph_ s).
Proof.
  revert s. induction l as [|next rest IH]; intros s; simpl.
  - unfold mret, M_ret. intros [= <-].
    split; [reflexivity|]. split; [reflexivity|]. split; [|split; [|reflexivity]].
    + intros p. case_decide; [subst|reflexivity].
      apply set_eq. intros x. set_solver.
    + intros q. destruct (decide (q ∈ [])) as [Hq|]; [|reflexivity].
      apply not_elem_of_nil in Hq. destruct Hq.
  - intros H. inv_bind H.
    apply graph_RemoveDependency_Done in Ha as (g & Hg & ->).
    apply GraphFacts.RemoveDependency_Good in Hg as (_ & _ & F & B & D).
    apply IH in H as (Hc & Hs & F' & B' & D'). simpl in *.
    split; [exact Hc|]. split; [exact Hs|]. split; [|split; [|congruence]].
    + intros p. rewrite F', !F. apply set_eq. intros x.
      repeat case_decide; subst; try congruence; set_solver.
    + intros q. rewrite B', B. apply set_eq. intros x.
      repeat case_decide; subst; set_solver.
Qed.

(** The loop that adds a node and an edge for each position. *)
Lemma attach_Done (pos : Position) (l : list Position) (s s' : Sheet) :
  attach pos l s = Done tt s' ->
  cells_ s' = cells_ s /\ printable_size_ s' = printable_size_ s /\
  (forall p, forward (graph_ s') p =
     if decide (p = pos) then forward (graph_ s) pos ∪ list_to_set l
     else forward (graph_ s) p) /\
  (forall q, backward (graph_ s') q =
     if decide (q ∈ l) then backward (graph_ s) q ∪ {[pos]}
     else backward (graph_ s) q) /\
  dom (graph_ s') = dom (graph_ s) ∪ list_to_set l.
Proof.
  unfold attach. revert s. induction l as [|next rest IH]; intros s; simpl.
  - unfold mret, M_ret. intros [= <-].
    split; [reflexivity|]. split; [reflexivity|]. split; [|split].
    + intros p. case_decide; [subst|reflexivity].
      apply set_eq. intros x. set_solver.
    + intros q. destruct (decide (q ∈ [])) as [Hq|]; [|reflexivity].
      apply not_elem_of_nil in Hq. destruct Hq.
    + set_solver.
  - intros H. inv_bind H. inv_bind Ha.
    apply graph_AddCell_Done in Haa as ->.
    apply graph_AddDependency_Done in Ha as (g & Hg & ->). simpl in Hg.
    apply GraphFacts.AddDependency_Good in Hg as (_ & _ & F & B & D).
    apply IH in H as (Hc & Hs & F' & B' & D'). simpl in *.
    split; [exact Hc|]. split; [exact Hs|]. split; [|split].
    + intros p. rewrite F', !F, !GraphFacts.forward_AddCell.
      apply set_eq. intros x.
      repeat case_decide; subst; try congruence; set_solver.
    + intros q. rewrite B', B, !GraphFacts.backward_AddCell.
      apply set_eq. intros x.
      repeat case_decide; subst; set_solver.
    + rewrite D', D, GraphFacts.dom_AddCell. set_solver.
Qed.

End SetCellPhases.

Section ResetPhase.
Context {api : FormulaAPI}.

Lemma reset_of_refl (s : Sheet) : reset_of s s.
Proof.
  split; [reflexivity|]. split; [reflexivity|]. split; [reflexivity|].
  intros q _. left. reflexivity.
Qed.

(** The callback empties one cache. *)
Lemma reseter_triple (s0 : Sheet) (p : Position) :
  triple (reset_of s0) (reseter p) (fun _ => reset_of s0) (reset_of s0).
Proof.
  intros s (Hg & Hs & Hl & Hc). unfold reseter, GetConcreteCell, mbind, M_bind, get.
  destruct (concrete_cell (cells_ s) p) as [[c|]|] eqn:E; simpl; try exact I.
  apply concrete_cell_Some in E as (Hp & Hcell & r & Hr & Hlt & Hv).
  rewrite Hv. simpl. unfold set_cells, mbind, M_bind, get, put. simpl.
  split; [exact Hg|]. split; [exact Hs|].
  split; [simpl; rewrite length_insert; exact Hl|].
  intros q Hq. simpl. rewrite (cell_at_rewrite _ p r) by assumption.
  destruct (decide (q = p)) as [->|Hne]; [|apply Hc, Hq].
  right. destruct (Hc p Hp) as [Heq|(c0 & H0 & H1)].
  - exists c. split; [congruence|reflexivity].
  - exists c0. split; [exact H0|].
    rewrite Hcell in H1. injection H1 as ->. reflexivity.
Qed.

Lemma reset_node_triple (s0 : Sheet) (fuel : nat) (g : DependencyGraph)
    (current : Position) (verified : gset Position) :
  triple (reset_of s0) (reset_node fuel g reseter current verified)
         (fun _ => reset_of s0) (reset_of s0).
Proof.
  revert current verified. induction fuel as [|fuel IH]; intros current verified.
  - apply triple_stuck.
  - simpl. destruct (g !! current) as [n|]; [|apply triple_stuck].
    eapply triple_bind; [apply reseter_triple|]. intros u.
    generalize (elements (backward_ n)). intros nexts. revert verified.
    induction nexts as [|next rest IHl]; intros verified.
    + apply triple_ret. auto.
    + destruct (decide (next ∈ verified)); [apply IHl|].
      eapply triple_bind; [apply IH|]. intros v. apply IHl.
Qed.

Lemma ResetCache_triple (s0 : Sheet) (fuel : nat) (cell : Position) :
  triple (reset_of s0) (ResetCache fuel cell reseter)
         (fun _ => reset_of s0) (reset_of s0).
Proof.
  unfold ResetCache. apply triple_get_bind. intros s1 Hs1.
  eapply triple_bind with (Q := fun _ => reset_of s0).
  - unfold assert. intros s ->. destruct (Contains (graph_ s1) cell); simpl; auto.
  - intros u. eapply triple_bind; [apply reset_node_triple|].
    intros v. apply triple_ret. auto.
Qed.

Lemma ResetCache_Done (fuel : nat) (cell : Position) (s s' : Sheet) (u : unit) :
  ResetCache fuel cell reseter s = Done u s' -> reset_of s s'.
Proof.
  intros H. pose proof (ResetCache_triple s fuel cell s (reset_of_refl s)) as T.
  rewrite H in T. exact T.
Qed.

(** The probe returns only on the branch that empties caches. *)
Lemma probe_Done (fuel : nat) (pos : Position) (ne old : list Position)
    (s s' : Sheet) (u : unit) :
  probe fuel pos ne old s = Done u s' ->
  CheckCyclicDependencies fuel (graph_ s) pos = Good true /\ reset_of s s'.
Proof.
  unfold probe. intros H. inv_bind H.
  unfold graph_CheckCyclicDependencies, mbind, M_bind, get in Ha.
  apply check_Done in Ha as [Hc ->].
  destruct a; simpl in H.
  - split; [exact Hc|]. eapply ResetCache_Done, H.
  - inv_bind H. inv_bind H. discriminate.
Qed.

End ResetPhase.

Section SetCellDone.
Context {api : FormulaAPI}.

(** A call of [SetCell] that returned went through every phase. *)
Lemma SetCell_Done_inv (fuel : nat) (pos : Position) (text : string)
    (s s' : Sheet) :
  SetCell fuel pos text s = Done tt s' ->
  exists new_cell ne s1 old s2 s4 s5,
    IsValid pos = true /\
    Cell_Set Cell_new text = Some new_cell /\
    materialize pos (Cell_GetReferencedCells new_cell) [] s = Done ne s1 /\
    detach_old pos (Contains (graph_ s1) pos) s1 = Done old s2 /\
    attach pos (Cell_GetReferencedCells new_cell)
      (mkSheet (AddCell (graph_ s2) pos) (cells_ s2) (printable_size_ s2))
      = Done tt s4 /\
    (if Contains (graph_ s1) pos
     then probe fuel pos ne old s4 = Done tt s5
     else s5 = s4) /\
    PlaceCell pos new_cell s5 = Done tt s'.
Proof.
  unfold SetCell. intros H.
  apply bind_Done in H as (u0 & s0 & Hval & H).
  apply ValidatePosition_Done in Hval as [Hv ->].
  apply bind_Done in H as (new_cell & s0 & Hset & H).
  destruct (Cell_Set Cell_new text) as [nc|]; [|discriminate].
  injection Hset as -> ->.
  apply bind_Done in H as (ne & s1 & Hmat & H).
  apply bind_Done in H as (contained & s1' & Hcon & H).
  unfold graph_Contains, mbind, M_bind, get in Hcon.
  injection Hcon as <- <-.
  apply bind_Done in H as (old & s2 & Hdet & H).
  apply bind_Done in H as (u3 & s3 & Hadd & H).
  apply graph_AddCell_Done in Hadd as ->.
  apply bind_Done in H as (u4 & s4 & Hatt & H). destruct u4.
  apply bind_Done in H as (u5 & s5 & Hprobe & H). destruct u5.
  exists new_cell, ne, s1, old, s2, s4, s5.
  split; [exact Hv|]. split; [reflexivity|]. split; [exact Hmat|].
  split; [exact Hdet|]. split; [exact Hatt|]. split; [|exact H].
  destruct (Contains (graph_ s1) pos); [exact Hprobe|].
  injection Hprobe as <-. reflexivity.
Qed.

(** [detach_old] when it returns. *)
Lemma detach_old_Done (pos : Position) (contained : bool) (old : list Position)
    (s s' : Sheet) :
  nonneg pos ->
  detach_old pos contained s = Done old s' ->
  cells_ s' = cells_ s /\ printable_size_ s' = printable_size_ s /\
  old = (if contained
         then match cell_at (cells_ s) pos with
              | Some c => Cell_GetReferencedCells c
              | None => []
              end
         else []) /\
  (contained = true -> is_Some (cell_at (cells_ s) pos)) /\
  (forall p, forward (graph_ s') p =
     if decide (p = pos) then forward (graph_ s) pos ∖ list_to_set old
     else forward (graph_ s) p) /\
  (forall q, backward (graph_ s') q =
     if decide (q ∈ old) then backward (graph_ s) q ∖ {[pos]}
     else backward (graph_ s) q) /\
  dom (graph_ s') = dom (graph_ s).
Proof.
  intros Hp. unfold detach_old. destruct contained.
  - intros H. inv_bind H. rewrite GetConcreteCell_nonneg in Ha by exact Hp.
    injection Ha as <- <-.
    destruct (cell_at (cells_ s) pos) as [c|]; [|discriminate].
    inv_bind H. injection H as <- <-. destruct a.
    apply remove_loop_Done in Ha as (Hc & Hs & F & B & D).
    split; [exact Hc|]. split; [exact Hs|]. split; [reflexivity|].
    split; [eauto|]. split; [exact F|]. split; [exact B|exact D].
  - unfold mret, M_ret. intros [= <- <-].
    split; [reflexivity|]. split; [reflexivity|]. split; [reflexivity|].
    split; [discriminate|]. split; [|split; [|reflexivity]].
    + intros p. case_decide; [subst|reflexivity].
      apply set_eq. intros x. set_solver.
    + intros q. destruct (decide (q ∈ [])) as [Hq|]; [|reflexivity].
      apply not_elem_of_nil in Hq. destruct Hq.
Qed.

(** The grid after a [SetCell] that returned. *)
Lemma SetCell_Done_cells (fuel : nat) (pos : Position) (text : string)
    (s s' : Sheet) :
  SetCell fuel pos text s = Done tt s' ->
  exists new_cell,
    IsValid pos = true /\
    Cell_Set Cell_new text = Some new_cell /\
    Forall (fun r => r <> pos /\ IsValid r = true)
           (Cell_GetReferencedCells new_cell) /\
    cell_at (cells_ s') pos = Some new_cell /\
    (forall q, q ∈ Cell_GetReferencedCells new_cell ->
       cell_at (cells_ s) q = None ->
       cell_at (cells_ s') q = Some Cell_new /\
       row q < rows (printable_size_ s') /\
       col q < cols (printable_size_ s')) /\
    (forall q, nonneg q -> q <> pos ->
       q ∉ Cell_GetReferencedCells new_cell \/ cell_at (cells_ s) q <> None ->
       cell_at (cells_ s') q = cell_at (cells_ s) q \/
       exists c, cell_at (cells_ s) q = Some c /\
                 cell_at (cells_ s') q = Some (Cell_ResetCache c)) /\
    rows (printable_size_ s) <= rows (printable_size_ s') /\
    cols (printable_size_ s) <= cols (printable_size_ s') /\
    row pos < rows (printable_size_ s') /\
    col pos < cols (printable_size_ s').
Proof.
  intros H.
  apply SetCell_Done_inv in H
    as (new_cell & ne & s1 & old & s2 & s4 & s5 & Hv & Hset & Hmat & Hdet
        & Hatt & Hprobe & Hplace).
  pose proof (IsValid_nonneg pos Hv) as Hp.
  apply materialize_Done in Hmat as (Hg1 & Hall & Hnew & Hold & Hrows & Hcols).
  apply detach_old_Done in Hdet as (Hc2 & Hs2 & _); [|exact Hp].
  apply attach_Done in Hatt as (Hc4 & Hs4 & _). simpl in Hc4, Hs4.
  assert (H5 : reset_of s4 s5).
  { destruct (Contains (graph_ s1) pos).
    - apply probe_Done in Hprobe as [_ Hr]. exact Hr.
    - subst s5. apply reset_of_refl. }
  destruct H5 as (_ & Hs5 & _ & Hc5).
  destruct (PlaceCell_Done pos new_cell s5 Hp)
    as (s'' & Hplace' & _ & Hsz & Hcells & _).
  rewrite Hplace' in Hplace. injection Hplace as <-.
  assert (Hsize5 : printable_size_ s5 = printable_size_ s1) by congruence.
  assert (Hc41 : cells_ s4 = cells_ s1) by congruence.
  rewrite Hsz, Hsize5. simpl.
  exists new_cell. split; [exact Hv|]. split; [exact Hset|].
  split; [exact Hall|]. split; [|split; [|split; [|repeat split; lia]]].
  - rewrite Hcells by exact Hp. rewrite decide_True by reflexivity. reflexivity.
  - intros q Hin Habs.
    assert (Hq : q <> pos /\ IsValid q = true).
    { rewrite Forall_forall in Hall. apply Hall. exact Hin. }
    destruct Hq as [Hqp Hqv]. pose proof (IsValid_nonneg q Hqv) as Hq.
    destruct (Hnew q Hq Hin Habs) as (Hcell & Hr & Hc).
    split; [|lia].
    rewrite Hcells by exact Hq. rewrite decide_False by exact Hqp.
    destruct (Hc5 q Hq) as [Heq|(c & H0 & H1)].
    + rewrite Heq, Hc41. exact Hcell.
    + rewrite H1. rewrite Hc41, Hcell in H0. injection H0 as <-. reflexivity.
  - intros q Hq Hqp Hcase.
    rewrite Hcells by exact Hq. rewrite decide_False by exact Hqp.
    specialize (Hold q Hq Hcase).
    destruct (Hc5 q Hq) as [Heq|(c & H0 & H1)].
    + left. rewrite Heq, Hc41. exact Hold.
    + right. exists c. split; [|exact H1]. rewrite <- Hold, <- Hc41. exact H0.
Qed.

(** The graph after a [SetCell] that returned. *)
Lemma SetCell_Done_graph (fuel : nat) (pos : Position) (text : string)
    (s s' : Sheet) :
  SetCell fuel pos text s = Done tt s' ->
  exists new_cell,
    Cell_Set Cell_new text = Some new_cell /\
    cell_at (cells_ s') pos = Some new_cell /\
    (Contains (graph_ s) pos = true -> is_Some (cell_at (cells_ s) pos)) /\
    let new_poses := Cell_GetReferencedCells new_cell in
    let old_poses := old_references s pos in
    (forall p, forward (graph_ s') p =
       if decide (p = pos)
       then (forward (graph_ s) pos ∖ list_to_set old_poses)
              ∪ list_to_set new_poses
       else forward (graph_ s) p) /\
    (forall q, backward (graph_ s') q =
       (if decide (q ∈ old_poses) then backward (graph_ s) q ∖ {[pos]}
        else backward (graph_ s) q)
       ∪ (if decide (q ∈ new_poses) then {[pos]} else ∅)) /\
    dom (graph_ s') = dom (graph_ s) ∪ {[pos]} ∪ list_to_set new_poses.
Proof.
  intros H. destruct (SetCell_Done_cells _ _ _ _ _ H)
    as (nc & _ & Hset' & Hall & Hat & _ & _).
  apply SetCell_Done_inv in H
    as (new_cell & ne & s1 & old & s2 & s4 & s5 & Hv & Hset & Hmat & Hdet
        & Hatt & Hprobe & Hplace).
  assert (nc = new_cell) by congruence. subst nc.
  pose proof (IsValid_nonneg pos Hv) as Hp.
  apply materialize_Done in Hmat as (Hg1 & _ & _ & Hold & _ & _).
  apply detach_old_Done in Hdet as (_ & _ & Hol & Hsome & F2 & B2 & D2); [|exact Hp].
  apply attach_Done in Hatt as (_ & _ & F4 & B4 & D4). simpl in F4, B4, D4.
  assert (H5 : graph_ s5 = graph_ s4).
  { destruct (Contains (graph_ s1) pos).
    - apply probe_Done in Hprobe as [_ (Hg & _)]. exact Hg.
    - subst s5. reflexivity. }
  destruct (PlaceCell_Done pos new_cell s5 Hp)
    as (s'' & Hplace' & Hg' & _ & _ & _).
  rewrite Hplace' in Hplace. injection Hplace as <-.
  assert (Hpos1 : cell_at (cells_ s1) pos = cell_at (cells_ s) pos).
  { apply Hold; [exact Hp|]. left. intros Hin.
    rewrite Forall_forall in Hall. destruct (Hall pos Hin) as [Hne _].
    apply Hne. reflexivity. }
  assert (Hold' : old = old_references s pos).
  { unfold old_references. rewrite <- Hg1, <- Hpos1. exact Hol. }
  rewrite Hg1 in *. rewrite Hpos1 in Hsome. rewrite Hold' in *.
  exists new_cell. split; [exact Hset|]. split; [exact Hat|].
  split; [exact Hsome|]. simpl.
  rewrite Hg', H5. split; [|split].
  - intros p. rewrite F4, !GraphFacts.forward_AddCell, !F2.
    case_decide; [|reflexivity]. rewrite decide_True by reflexivity. reflexivity.
  - intros q. rewrite B4, !GraphFacts.backward_AddCell, !B2.
    apply set_eq. intros x. repeat case_decide; set_solver.
  - rewrite D4, GraphFacts.dom_AddCell, D2. reflexivity.
Qed.

End SetCellDone.

(* ===================================================================== *)
(** ** The text of the installed cell                                     *)
(* ===================================================================== *)

Section InstalledText.
Context {api : FormulaAPI}.

Lemma GetText_cell (pos : Position) (s : Sheet) (c : Cell) :
  IsValid pos = true -> cell_at (cells_ s) pos = Some c ->
  GetText pos s = Done (Cell_GetText c) s.
Proof.
  intros Hv Hc. unfold GetText, mbind, M_bind.
  rewrite GetCell_valid by exact Hv. rewrite Hc. reflexivity.
Qed.

(** What [Cell::Set] builds from a text, case by case. *)
Lemma Cell_Set_text (c0 c : Cell) (text : string) :
  Cell_Set c0 text = Some c ->
  (text = EmptyString -> Cell_GetText c = EmptyString) /\
  (text <> EmptyString ->
   ~ (starts_with FORMULA_SIGN text = true /\ (1 < String.length text)%nat) ->
   Cell_GetText c = text) /\
  (starts_with FORMULA_SIGN text = true -> (1 < String.length text)%nat ->
   exists ast, ParseFormulaAST (substr1 text) = Some ast /\
               Cell_GetText c = String.append "=" (PrintFormula ast)).
Proof.
  unfold Cell_Set, starts_with. destruct text as [|ch rest].
  - intros [= <-]. split; [reflexivity|]. split; [congruence|discriminate].
  - cbn [substr1]. destruct (ascii_dec ch FORMULA_SIGN) as [Hch|Hch]; cbn [andb].
    + destruct (1 <? Z.of_nat (String.length (String ch rest))) eqn:El.
      * destruct (ParseFormulaAST rest) as [ast|] eqn:Ep; [|discriminate].
        intros [= <-]. split; [discriminate|]. split.
        -- intros _ Hn. exfalso. apply Hn. split; [reflexivity|].
           apply Z.ltb_lt in El. lia.
        -- intros _ _. exists ast. split; reflexivity.
      * intros [= <-]. split; [discriminate|]. split; [reflexivity|].
        intros _ Hl. apply Z.ltb_ge in El. lia.
    + intros [= <-]. split; [discriminate|]. split; [reflexivity|discriminate].
Qed.

End InstalledText.

(** C8: after a successful SetCell(p, t) the installed cell's GetText() is
    the canonical text for t: the empty string when t is empty, t itself
    when t is plain text, and "=" followed by the printed form of the
    parsed tree when t begins with '=' and is longer than one character. *)
Theorem SetCell_installs_canonical_text (api : FormulaAPI) (fuel : nat)
    (p : Position) (t : string) (s s' : Sheet) :
  SetCell fuel p t s = Done tt s' ->
  exists txt, GetText p s' = Done txt s' /\
    (t = EmptyString -> txt = EmptyString) /\
    (t <> EmptyString ->
     ~ (starts_with FORMULA_SIGN t = true /\ (1 < String.length t)%nat) ->
     txt = t) /\
    (starts_with FORMULA_SIGN t = true -> (1 < String.length t)%nat ->
     exists ast, ParseFormulaAST (substr1 t) = Some ast /\
                 txt = String.append "=" (PrintFormula ast)).
Proof.
  intros H. apply SetCell_Done_cells in H
    as (c & Hv & Hset & _ & Hat & _).
  exists (Cell_GetText c). split.
  - apply GetText_cell; assumption.
  - apply (Cell_Set_text Cell_new c t Hset).
Qed.

Lemma SetCell_installs_canonical_text_witness :
  SetCell 4 SampleFormula.A1 "=B1+A2+3" Sheet_new =
    Done tt (sheet_after (SetCell 4 SampleFormula.A1 "=B1+A2+3") Sheet_new) /\
  exists txt,
    GetText SampleFormula.A1
      (sheet_after (SetCell 4 SampleFormula.A1 "=B1+A2+3") Sheet_new) =
      Done txt (sheet_after (SetCell 4 SampleFormula.A1 "=B1+A2+3") Sheet_new) /\
    (("=B1+A2+3" : string) = EmptyString -> txt = EmptyString) /\
    (("=B1+A2+3" : string) <> EmptyString ->
     ~ (starts_with FORMULA_SIGN "=B1+A2+3" = true /\
        (1 < String.length "=B1+A2+3")%nat) ->
     txt = "=B1+A2+3"%string) /\
    (starts_with FORMULA_SIGN "=B1+A2+3" = true ->
     (1 < String.length "=B1+A2+3")%nat ->
     exists ast, ParseFormulaAST (substr1 "=B1+A2+3") = Some ast /\
                 txt = String.append "=" (PrintFormula ast)).
Proof.
  split; [by_evaluation|].
  apply (SetCell_installs_canonical_text SampleFormula.api 4
           SampleFormula.A1 "=B1+A2+3" Sheet_new
           (sheet_after (SetCell 4 SampleFormula.A1 "=B1+A2+3") Sheet_new)).
  by_evaluation.
Defined.

(* ===================================================================== *)
(** ** Referents that were absent                                         *)
(* ===================================================================== *)

Section Phantoms.
Context {api : FormulaAPI}.

Lemma GetCell_Done (p : Position) (s s' : Sheet) (o : option Cell) :
  GetCell p s = Done o s' ->
  IsValid p = true /\ s' = s /\ o = cell_at (cells_ s) p.
Proof.
  destruct (IsValid p) eqn:Hv.
  - rewrite GetCell_valid by exact Hv. intros [= <- <-]. auto.
  - rewrite GetCell_invalid by exact Hv. discriminate.
Qed.

(** [GetValue] on a new Empty cell: the empty string, computed and cached. *)
Lemma GetValue_new_cell (fuel : nat) (p : Position) (s : Sheet) :
  IsValid p = true -> cell_at (cells_ s) p = Some Cell_new ->
  exists s', GetValue (S fuel) p s = Done (VString EmptyString) s'.
Proof.
  intros Hv Hc. pose proof (IsValid_nonneg p Hv) as Hp.
  unfold GetValue, mbind, M_bind. rewrite GetCell_valid by exact Hv.
  rewrite Hc. simpl. unfold mbind, M_bind.
  rewrite GetConcreteCell_nonneg by exact Hp. rewrite Hc. simpl.
  unfold mret, M_ret, store_cache, mbind, M_bind, get.
  unfold cell_at, slot in Hc.
  destruct (cells_ s !! Z.to_nat (row p)) as [r|] eqn:Hr; [|discriminate].
  destruct (r !! Z.to_nat (col p)) as [[c|]|] eqn:Hcol; try discriminate.
  injection Hc as ->.
  rewrite (proj2 (vec_at_Good (cells_ s) (row p) r)) by (split; [apply Hp|exact Hr]).
  simpl.
  rewrite (proj2 (vec_at_Good r (col p) (Some Cell_new)))
    by (split; [apply Hp|exact Hcol]).
  simpl. eexists. reflexivity.
Qed.

End Phantoms.

(** C7: when a successful SetCell(pos, text) references a position r whose
    slot was absent, an Empty cell stands at r afterwards: GetCell(r) is
    not null, its GetText() and its GetValue() are the empty string, and
    the printable region includes r.  On the sample formula layer,
    SetCell(A1, "=Z9") on the new sheet succeeds and GetValue(A1) is 0.0:
    the referring cell evaluates as if Z9 held zero. *)
Theorem SetCell_materializes_referent :
  (forall (api : FormulaAPI) (fuel : nat) (pos r : Position) (text : string)
          (new_cell : Cell) (s s' : Sheet),
     SetCell fuel pos text s = Done tt s' ->
     Cell_Set Cell_new text = Some new_cell ->
     r ∈ Cell_GetReferencedCells new_cell ->
     GetCell r s = Done None s ->
     exists c sz,
       GetCell r s' = Done (Some c) s' /\
       GetText r s' = Done EmptyString s' /\
       (exists s'', GetValue 1 r s' = Done (VString EmptyString) s'') /\
       GetPrintableSize s' = Done sz s' /\
       row r < rows sz /\ col r < cols sz) /\
  (SetCell 2 SampleFormula.A1 "=Z9" Sheet_new =
     Done tt (sheet_after (SetCell 2 SampleFormula.A1 "=Z9") Sheet_new) /\
   GetValue 3 SampleFormula.A1
     (sheet_after (SetCell 2 SampleFormula.A1 "=Z9") Sheet_new) =
     Done (VDouble 0%float)
       (sheet_after (GetValue 3 SampleFormula.A1)
          (sheet_after (SetCell 2 SampleFormula.A1 "=Z9") Sheet_new))).
Proof.
  split.
  - intros api fuel pos r text new_cell s s' H Hset Hin Habs.
    apply GetCell_Done in Habs as (Hv & _ & Habs). symmetry in Habs.
    apply SetCell_Done_cells in H
      as (nc & _ & Hset' & _ & _ & Hnew & _).
    assert (nc = new_cell) by congruence. subst nc.
    destruct (Hnew r Hin Habs) as (Hcell & Hr & Hc).
    exists Cell_new, (printable_size_ s').
    split; [rewrite GetCell_valid by exact Hv; rewrite Hcell; reflexivity|].
    split; [apply (GetText_cell r s' Cell_new Hv Hcell)|].
    split; [apply GetValue_new_cell; assumption|].
    split; [reflexivity|]. split; assumption.
  - split; by_evaluation.
Qed.

Lemma SetCell_materializes_referent_witness :
  SetCell 2 SampleFormula.A1 "=Z9" Sheet_new =
    Done tt (sheet_after (SetCell 2 SampleFormula.A1 "=Z9") Sheet_new) /\
  Cell_Set Cell_new "=Z9" =
    Some (mkCell (FormulaImpl (SampleFormula.ECell SampleFormula.Z9)) None) /\
  SampleFormula.Z9 ∈ Cell_GetReferencedCells
    (mkCell (FormulaImpl (SampleFormula.ECell SampleFormula.Z9)) None) /\
  GetCell SampleFormula.Z9 Sheet_new = Done None Sheet_new /\
  exists c sz,
    GetCell SampleFormula.Z9
      (sheet_after (SetCell 2 SampleFormula.A1 "=Z9") Sheet_new) =
      Done (Some c) (sheet_after (SetCell 2 SampleFormula.A1 "=Z9") Sheet_new) /\
    GetText SampleFormula.Z9
      (sheet_after (SetCell 2 SampleFormula.A1 "=Z9") Sheet_new) =
      Done EmptyString
        (sheet_after (SetCell 2 SampleFormula.A1 "=Z9") Sheet_new) /\
    (exists s'',
       GetValue 1 SampleFormula.Z9
         (sheet_after (SetCell 2 SampleFormula.A1 "=Z9") Sheet_new) =
       Done (VString EmptyString) s'') /\
    GetPrintableSize
      (sheet_after (SetCell 2 SampleFormula.A1 "=Z9") Sheet_new) =
      Done sz (sheet_after (SetCell 2 SampleFormula.A1 "=Z9") Sheet_new) /\
    row SampleFormula.Z9 < rows sz /\ col SampleFormula.Z9 < cols sz.
Proof.
  assert (H1 : SetCell 2 SampleFormula.A1 "=Z9" Sheet_new =
    Done tt (sheet_after (SetCell 2 SampleFormula.A1 "=Z9") Sheet_new))
    by by_evaluation.
  assert (H2 : Cell_Set Cell_new "=Z9" =
    Some (mkCell (FormulaImpl (SampleFormula.ECell SampleFormula.Z9)) None))
    by reflexivity.
  assert (H3 : SampleFormula.Z9 ∈ Cell_GetReferencedCells
    (mkCell (FormulaImpl (SampleFormula.ECell SampleFormula.Z9)) None))
    by apply list_elem_of_here.
  assert (H4 : GetCell SampleFormula.Z9 Sheet_new = Done None Sheet_new)
    by reflexivity.
  split; [exact H1|]. split; [exact H2|]. split; [exact H3|].
  split; [exact H4|].
  exact (proj1 SetCell_materializes_referent SampleFormula.api 2%nat
           SampleFormula.A1 SampleFormula.Z9 "=Z9"%string _ Sheet_new _ H1 H2 H3 H4).
Defined.

(* ===================================================================== *)
(** ** An invariant of the reachable sheets                               *)
(* ===================================================================== *)

Section Invariant.
Context {api : FormulaAPI}.

Lemma cell_at_clamp (cells : list (list (option Cell))) (p : Position) :
  cell_at cells p = cell_at cells (mkPos (Z.max 0 (row p)) (Z.max 0 (col p))).
Proof.
  unfold cell_at. simpl. f_equal; lia.
Qed.

Lemma all_sound_nonneg (s : Sheet) :
  (forall q c, nonneg q -> cell_at (cells_ s) q = Some c -> cache_sound c) ->
  all_sound s.
Proof.
  intros H p c Hc. rewrite cell_at_clamp in Hc.
  apply (H _ c) in Hc; [exact Hc|]. split; simpl; lia.
Qed.

(** The bounding box depends on the region and on which slots are
    occupied. *)
Lemma bounding_same_occupancy (s0 s : Sheet) :
  printable_size_ s = printable_size_ s0 ->
  (forall q, nonneg q ->
     is_Some (cell_at (cells_ s) q) <-> is_Some (cell_at (cells_ s0) q)) ->
  bounding s0 -> bounding s.
Proof.
  intros Hs Ho [H1 H2]. unfold bounding, occupied. rewrite Hs.
  assert (Hocc : forall p, occupied s p <-> occupied s0 p).
  { intros p. unfold occupied. split; intros [Hp Hc]; (split; [exact Hp|]);
      apply (Ho p Hp); exact Hc. }
  split.
  - intros p Hp. apply H1, Hocc, Hp.
  - destruct H2 as [H2|[(p & Hp & Hr) (q & Hq & Hc)]]; [left; exact H2|].
    right. split; [exists p|exists q]; (split; [apply Hocc|]); assumption.
Qed.

Lemma grid_ok_same_occupancy (s0 s : Sheet) :
  printable_size_ s = printable_size_ s0 ->
  length (cells_ s) = length (cells_ s0) ->
  (forall q, nonneg q ->
     is_Some (cell_at (cells_ s) q) <-> is_Some (cell_at (cells_ s0) q)) ->
  grid_ok s0 -> grid_ok s.
Proof.
  intros Hs Hl Ho [Ht Hb]. split.
  - unfold storage_tight. rewrite Hl, Hs. exact Ht.
  - eapply bounding_same_occupancy; eassumption.
Qed.

Lemma invariant_same_grid (s s' : Sheet) :
  cells_ s' = cells_ s -> printable_size_ s' = printable_size_ s ->
  well_formed (graph_ s') ->
  invariant s -> invariant s'.
Proof.
  intros Hc Hs Hg (Ha & Ht & _). split; [|split].
  - intros p c. rewrite Hc. apply Ha.
  - eapply grid_ok_same_occupancy; [exact Hs| | |exact Ht].
    + rewrite Hc. reflexivity.
    + intros q _. rewrite Hc. reflexivity.
  - exact Hg.
Qed.

Lemma invariant_new : invariant Sheet_new.
Proof.
  split; [|split].
  - intros p c. unfold cell_at, slot. simpl. discriminate.
  - split; [reflexivity|]. split.
    + intros p [_ [c Hc]]. unfold cell_at, slot in Hc. simpl in Hc. discriminate.
    + left. split; reflexivity.
  - exact GraphFacts.well_formed_empty.
Qed.

Lemma cache_sound_new : cache_sound Cell_new.
Proof. exact I. Qed.

Lemma cache_sound_reset (c : Cell) : cache_sound (Cell_ResetCache c).
Proof. unfold cache_sound. simpl. destruct (impl_ c); auto. Qed.

Lemma Cell_Set_cache (c0 c : Cell) (text : string) :
  Cell_Set c0 text = Some c -> cache_ c = cache_ c0.
Proof.
  unfold Cell_Set. destruct text as [|ch rest]; [intros [= <-]; reflexivity|].
  destruct (_ && _).
  - destruct (ParseFormulaAST _); [|discriminate]. intros [= <-]. reflexivity.
  - intros [= <-]. reflexivity.
Qed.

Lemma cache_sound_empty_cache (c : Cell) : cache_ c = None -> cache_sound c.
Proof. unfold cache_sound. intros ->. destruct (impl_ c); auto. Qed.

(** [PlaceCell] of a cell with a sound cache. *)
Lemma PlaceCell_invariant (p : Position) (c : Cell) :
  nonneg p -> cache_sound c ->
  triple invariant (PlaceCell p c) (fun _ => invariant) invariant.
Proof.
  intros Hp Hc s (Ha & [Ht [Hb1 Hb2]] & Hg).
  destruct (PlaceCell_Done p c s Hp) as (s' & -> & Hg' & Hsz & Hcells & Hlen).
  assert (Hoccp : occupied s' p).
  { split; [exact Hp|]. rewrite Hcells by exact Hp.
    rewrite decide_True by reflexivity. eauto. }
  assert (Hocc : forall q, occupied s q -> occupied s' q).
  { intros q [Hq Hs]. split; [exact Hq|]. rewrite Hcells by exact Hq.
    case_decide; [eauto|exact Hs]. }
  split; [|split].
  - apply all_sound_nonneg. intros q c' Hq. rewrite Hcells by exact Hq.
    case_decide; [intros [= <-]; exact Hc|apply Ha].
  - split.
    + unfold storage_tight in *. rewrite Hlen, Hsz, Ht. reflexivity.
    + unfold bounding. rewrite Hsz. simpl. split.
      * intros q [Hq Hs]. rewrite Hcells in Hs by exact Hq.
        destruct (decide (q = p)) as [->|Hne]; [lia|].
        destruct (Hb1 q (conj Hq Hs)). lia.
      * right. split.
        -- destruct (Z_lt_le_dec (row p + 1) (rows (printable_size_ s)))
             as [Hlt|Hge].
           ++ destruct Hb2 as [[H0 _]|[(q & Hq & Hr) _]]; [destruct Hp; lia|].
              exists q. split; [apply Hocc, Hq|lia].
           ++ exists p. split; [exact Hoccp|lia].
        -- destruct (Z_lt_le_dec (col p + 1) (cols (printable_size_ s)))
             as [Hlt|Hge].
           ++ destruct Hb2 as [[_ H0]|[_ (q & Hq & Hr)]]; [destruct Hp; lia|].
              exists q. split; [apply Hocc, Hq|lia].
           ++ exists p. split; [exact Hoccp|lia].
  - rewrite Hg'. exact Hg.
Qed.

(** [ClearCell]: on a sheet whose stored rows are as many as the printable
    region has, a call that returns has not rescanned. *)
Lemma scan_rows_tight (cells : list (list (option Cell))) (cols0 : Z) :
  scan_rows cells cols0 (S (length cells)) = Bad OutOfRange.
Proof.
  simpl. rewrite vec_at_Bad by lia. reflexivity.
Qed.

Lemma ClearCell_invariant (pos : Position) :
  triple invariant (ClearCell pos) (fun _ => invariant) invariant.
Proof.
  intros s (Ha & [Ht Hb] & Hg). pose proof (conj Ht Hb : grid_ok s) as Hgrid.
  rename Hgrid into Ht'. unfold ClearCell, mbind, M_bind, ValidatePosition.
  destruct (IsValid pos) eqn:Hv; simpl; [|exact (conj Ha (conj Ht' Hg))].
  pose proof (IsValid_nonneg pos Hv) as Hp.
  destruct (row pos <? Z.of_nat (length (cells_ s))); simpl;
    [|exact (conj Ha (conj Ht' Hg))].
  destruct (vec_at (cells_ s) (row pos)) as [r|] eqn:Er; simpl; [|exact I].
  apply vec_at_Good in Er as [_ Hr].
  destruct (col pos <? Z.of_nat (length r)) eqn:Ec; simpl;
    [|exact (conj Ha (conj Ht' Hg))].
  apply Z.ltb_lt in Ec.
  destruct (vec_at r (col pos)) as [o|]; simpl; [|exact I].
  unfold set_cells, set_printable_size, mbind, M_bind, get, put. simpl.
  set (cells1 := <[Z.to_nat (row pos) := <[Z.to_nat (col pos) := None]> r]> (cells_ s)).
  assert (Hlen : length cells1 = length (cells_ s)) by apply length_insert.
  destruct ((row pos + 1 =? rows (printable_size_ s))
            || (col pos + 1 =? cols (printable_size_ s))) eqn:Hbd.
  - replace (Z.to_nat (rows (printable_size_ s) + 1)) with (S (length cells1)).
    + rewrite scan_rows_tight. exact I.
    + unfold storage_tight in Ht. rewrite Hlen. lia.
  - apply orb_false_iff in Hbd as [Hbr Hbc].
    apply Z.eqb_neq in Hbr, Hbc.
    assert (Hat : forall q, nonneg q ->
              cell_at cells1 q = if decide (q = pos) then None
                                 else cell_at (cells_ s) q).
    { intros q Hq. unfold cells1. destruct Hp as [Hp1 Hp2].
      apply cell_at_rewrite; try assumption; try split; lia. }
    simpl. split; [|split].
    + apply all_sound_nonneg. intros q c Hq. simpl. rewrite Hat by exact Hq.
      case_decide; [discriminate|apply Ha].
    + split; [unfold storage_tight; simpl; rewrite Hlen; exact Ht|].
      destruct Hb as [Hb1 Hb2]. unfold bounding, occupied. simpl. split.
      * intros q [Hq Hs]. rewrite Hat in Hs by exact Hq.
        destruct (decide (q = pos)); [destruct Hs; discriminate|].
        apply Hb1. split; assumption.
      * destruct Hb2 as [H0|[(q1 & [Hq1 Hs1] & Hr1) (q2 & [Hq2 Hs2] & Hr2)]];
          [left; exact H0|].
        right. split; [exists q1|exists q2]; (split; [split; [assumption|]|assumption]);
          rewrite Hat by assumption;
          (rewrite decide_False; [assumption|intros ->; lia]).
    + exact Hg.
Qed.

(** The calls into the graph. *)
Lemma graph_AddCell_invariant (c : Position) :
  triple invariant (graph_AddCell c) (fun _ => invariant) invariant.
Proof.
  intros s H. simpl. eapply invariant_same_grid; [| | |exact H];
    [reflexivity|reflexivity|].
  simpl. apply GraphFacts.well_formed_AddCell, H.
Qed.

Lemma graph_AddDependency_invariant (a b : Position) :
  triple invariant (graph_AddDependency a b) (fun _ => invariant) invariant.
Proof.
  intros s H. unfold graph_AddDependency, mbind, M_bind, get.
  destruct (AddDependency (graph_ s) a b) as [g|] eqn:E; simpl; [|exact I].
  eapply invariant_same_grid; [| | |exact H]; [reflexivity|reflexivity|].
  simpl. eapply GraphFacts.well_formed_AddDependency; [apply H|exact E].
Qed.

Lemma graph_RemoveDependency_invariant (a b : Position) :
  triple invariant (graph_RemoveDependency a b) (fun _ => invariant) invariant.
Proof.
  intros s H. unfold graph_RemoveDependency, mbind, M_bind, get.
  destruct (RemoveDependency (graph_ s) a b) as [g|] eqn:E; simpl; [|exact I].
  eapply invariant_same_grid; [| | |exact H]; [reflexivity|reflexivity|].
  simpl. eapply GraphFacts.well_formed_RemoveDependency; [apply H|exact E].
Qed.

Lemma attach_invariant (pos : Position) (l : list Position) :
  triple invariant (attach pos l) (fun _ => invariant) invariant.
Proof.
  unfold attach. apply triple_for_each. intros next _.
  eapply triple_bind; [apply graph_AddCell_invariant|].
  intros u. apply graph_AddDependency_invariant.
Qed.

Lemma detach_old_invariant (pos : Position) (contained : bool) :
  triple invariant (detach_old pos contained) (fun _ => invariant) invariant.
Proof.
  unfold detach_old. destruct contained; [|apply triple_ret; auto].
  eapply triple_bind with (Q := fun _ => invariant).
  - intros s H. unfold GetConcreteCell, mbind, M_bind, get.
    destruct (concrete_cell (cells_ s) pos); simpl; [exact H|exact I].
  - intros [c|]; [|apply triple_stuck].
    eapply triple_bind.
    + apply triple_for_each. intros next _.
      apply graph_RemoveDependency_invariant.
    + intros u. apply triple_ret. auto.
Qed.

Lemma GetCell_invariant (p : Position) :
  triple invariant (GetCell p)
         (fun _ s => invariant s /\ IsValid p = true) invariant.
Proof.
  intros s H. destruct (IsValid p) eqn:Hv.
  - rewrite GetCell_valid by exact Hv. split; [exact H|reflexivity].
  - rewrite GetCell_invalid by exact Hv. exact H.
Qed.

Lemma materialize_invariant (pos : Position) (l acc : list Position) :
  triple invariant (materialize pos l acc) (fun _ => invariant) invariant.
Proof.
  revert acc. induction l as [|next rest IH]; intros acc; simpl.
  - apply triple_ret. auto.
  - destruct (decide (next = pos)); [apply triple_throw; auto|].
    eapply triple_bind; [apply GetCell_invariant|].
    intros [c|].
    + eapply triple_weaken; [apply IH| |auto|auto]. intros s [H _]. exact H.
    + apply triple_pure_pre. intros Hv.
      apply triple_bind with (Q := fun _ => invariant).
      * apply PlaceCell_invariant; [apply IsValid_nonneg, Hv|apply cache_sound_new].
      * intros u. apply IH.
Qed.

Lemma reset_of_invariant (s0 s : Sheet) :
  invariant s0 -> reset_of s0 s -> invariant s.
Proof.
  intros (Ha & Ht & Hg0) (Hg & Hs & Hl & Hc). split; [|split].
  - apply all_sound_nonneg. intros q c Hq Hcell.
    destruct (Hc q Hq) as [Heq|(c0 & H0 & H1)].
    + apply (Ha q). rewrite <- Heq. exact Hcell.
    + rewrite H1 in Hcell. injection Hcell as <-. apply cache_sound_reset.
  - eapply grid_ok_same_occupancy; [exact Hs|exact Hl| |exact Ht].
    intros q Hq. destruct (Hc q Hq) as [Heq|(c0 & H0 & H1)].
    + rewrite Heq. reflexivity.
    + rewrite H0, H1. split; eauto.
  - rewrite Hg. exact Hg0.
Qed.

Lemma ResetCache_invariant (fuel : nat) (cell : Position) :
  triple invariant (ResetCache fuel cell reseter) (fun _ => invariant) invariant.
Proof.
  intros s H. pose proof (ResetCache_triple s fuel cell s (reset_of_refl s)) as T.
  destruct (ResetCache fuel cell reseter s); try exact I;
    eapply reset_of_invariant; eassumption.
Qed.

Lemma probe_invariant (fuel : nat) (pos : Position) (ne old : list Position) :
  triple invariant (probe fuel pos ne old) (fun _ => invariant) invariant.
Proof.
  unfold probe. eapply triple_bind with (Q := fun _ => invariant).
  - intros s H. unfold graph_CheckCyclicDependencies, mbind, M_bind, get.
    destruct (CheckCyclicDependencies fuel (graph_ s) pos); simpl; [exact H|exact I].
  - intros acyclic. destruct acyclic; simpl.
    + apply ResetCache_invariant.
    + eapply triple_bind.
      * apply triple_for_each. intros next _. apply ClearCell_invariant.
      * intros u. eapply triple_bind; [apply attach_invariant|].
        intros v. apply triple_throw. auto.
Qed.

Lemma SetCell_invariant (fuel : nat) (pos : Position) (text : string) :
  triple invariant (SetCell fuel pos text) (fun _ => invariant) invariant.
Proof.
  unfold SetCell.
  eapply triple_bind with (Q := fun _ s => invariant s /\ IsValid pos = true).
  { intros s H. unfold ValidatePosition. destruct (IsValid pos); simpl; auto. }
  intros u. apply triple_pure_pre. intros Hv.
  eapply triple_bind
    with (Q := fun c s => invariant s /\ Cell_Set Cell_new text = Some c).
  { intros s H. destruct (Cell_Set Cell_new text); simpl; auto. }
  intros new_cell. apply triple_pure_pre. intros Hset.
  eapply triple_bind; [apply materialize_invariant|]. intros ne.
  eapply triple_bind with (Q := fun _ => invariant).
  { intros s H. exact H. }
  intros contained.
  eapply triple_bind; [apply detach_old_invariant|]. intros old.
  eapply triple_bind; [apply graph_AddCell_invariant|]. intros u1.
  eapply triple_bind; [apply attach_invariant|]. intros u2.
  eapply triple_bind with (Q := fun _ => invariant).
  { destruct contained; [apply probe_invariant|apply triple_ret; auto]. }
  intros u3. apply PlaceCell_invariant; [apply IsValid_nonneg, Hv|].
  apply cache_sound_empty_cache.
  rewrite (Cell_Set_cache Cell_new new_cell text Hset). reflexivity.
Qed.

End Invariant.

Section ValueCaching.
Context {api : FormulaAPI}.

Lemma cached_of_refl (s : Sheet) : cached_of s s.
Proof.
  split; [reflexivity|]. split; [reflexivity|]. split; [reflexivity|].
  intros q _. left. reflexivity.
Qed.

(** Filling caches leaves every variant where it is. *)
Lemma cached_of_impl (s0 s : Sheet) (q : Position) (c : Cell) :
  cached_of s0 s -> nonneg q -> cell_at (cells_ s) q = Some c ->
  exists c0, cell_at (cells_ s0) q = Some c0 /\ impl_ c0 = impl_ c.
Proof.
  intros (_ & _ & _ & H) Hq Hc. destruct (H q Hq) as [Heq|(c0 & v & H0 & H1 & _)].
  - exists c. split; [congruence|reflexivity].
  - exists c0. split; [exact H0|]. rewrite H1 in Hc. injection Hc as <-. reflexivity.
Qed.

Lemma cached_of_invariant (s0 s : Sheet) :
  invariant s0 -> cached_of s0 s -> invariant s.
Proof.
  intros (Ha & Ht & Hg0) (Hg & Hs & Hl & Hc). split; [|split].
  - apply all_sound_nonneg. intros q c Hq Hcell.
    destruct (Hc q Hq) as [Heq|(c0 & v & H0 & H1 & Hv)].
    + apply (Ha q). rewrite <- Heq. exact Hcell.
    + rewrite H1 in Hcell. injection Hcell as <-.
      unfold cache_sound. simpl. destruct (impl_ c0) eqn:Ei; auto.
      right. f_equal. apply Hv. reflexivity.
  - eapply grid_ok_same_occupancy; [exact Hs|exact Hl| |exact Ht].
    intros q Hq. destruct (Hc q Hq) as [Heq|(c0 & v & H0 & H1 & _)].
    + rewrite Heq. reflexivity.
    + rewrite H0, H1. split; eauto.
  - rewrite Hg. exact Hg0.
Qed.

(** The assignment to the cache, for a value that fits the variant. *)
Lemma store_cache_triple (s0 : Sheet) (pos : Position) (i : Impl) (v : Value) :
  (forall t, i = TextImpl t -> v = TextImpl_GetValue t) ->
  triple (fun s => cached_of s0 s /\
                   exists c0, cell_at (cells_ s0) pos = Some c0 /\ impl_ c0 = i)
         (store_cache pos v) (fun _ => cached_of s0) (cached_of s0).
Proof.
  intros Hv s [(Hg & Hs & Hl & Hc) (c0 & Hc0 & Hi)].
  unfold store_cache, mbind, M_bind, get.
  destruct (vec_at (cells_ s) (row pos)) as [r|] eqn:Er; simpl; [|exact I].
  destruct (vec_at r (col pos)) as [[c|]|] eqn:Ec; simpl; try exact I.
  apply vec_at_Good in Er as [Hr0 Hr], Ec as [Hc0' Hcol].
  assert (Hp : nonneg pos) by (split; assumption).
  assert (Hcell : cell_at (cells_ s) pos = Some c).
  { unfold cell_at, slot. rewrite Hr, Hcol. reflexivity. }
  unfold set_cells, mbind, M_bind, get, put. simpl.
  split; [exact Hg|]. split; [exact Hs|].
  split; [simpl; rewrite length_insert; exact Hl|].
  intros q Hq. simpl.
  rewrite (cell_at_rewrite _ pos r)
    by (try assumption; eapply lookup_lt_Some, Hcol).
  destruct (decide (q = pos)) as [->|Hne]; [|apply Hc, Hq].
  right. exists c0, v. split; [exact Hc0|].
  assert (Himpl : impl_ c = impl_ c0).
  { destruct (Hc pos Hp) as [Heq|(c1 & v1 & H0 & H1 & _)].
    - congruence.
    - rewrite Hcell in H1. injection H1 as ->. simpl. congruence. }
  rewrite Himpl. split; [reflexivity|].
  intros t Ht. apply Hv. congruence.
Qed.

(** The evaluation of a tree whose questions fill caches. *)
Lemma execute_triple (s0 : Sheet) (getter : Position -> M Value) (e : Eval) :
  (forall p, triple (cached_of s0) (getter p) (fun _ => cached_of s0)
                    (cached_of s0)) ->
  triple (cached_of s0) (execute getter e) (fun _ => cached_of s0)
         (cached_of s0).
Proof.
  intros Hg. induction e as [d|err|p k IH]; simpl.
  - apply triple_ret. auto.
  - apply triple_ret. auto.
  - eapply triple_bind; [apply Hg|]. intros v. apply IH.
Qed.

Lemma cell_value_getter_triple (s0 : Sheet) (cell_value : Position -> M Value)
    (p : Position) :
  (forall q, triple (cached_of s0) (cell_value q) (fun _ => cached_of s0)
                    (cached_of s0)) ->
  triple (cached_of s0) (cell_value_getter cell_value p)
         (fun _ => cached_of s0) (cached_of s0).
Proof.
  intros H. unfold cell_value_getter.
  eapply triple_bind with (Q := fun _ => cached_of s0).
  - intros s Hs. destruct (IsValid p) eqn:Hv.
    + rewrite GetCell_valid by exact Hv. exact Hs.
    + rewrite GetCell_invalid by exact Hv. exact Hs.
  - intros [c|]; [apply H|apply triple_ret; auto].
Qed.

Lemma Impl_GetValue_triple (s0 : Sheet) (cell_value : Position -> M Value)
    (i : Impl) :
  (forall q, triple (cached_of s0) (cell_value q) (fun _ => cached_of s0)
                    (cached_of s0)) ->
  triple (cached_of s0) (Impl_GetValue cell_value i)
         (fun v s => cached_of s0 s /\
                     forall t, i = TextImpl t -> v = TextImpl_GetValue t)
         (cached_of s0).
Proof.
  intros H. destruct i as [|t|f]; simpl.
  - apply triple_ret. intros s Hs. split; [exact Hs|discriminate].
  - apply triple_ret. intros s Hs. split; [exact Hs|].
    intros t' [= <-]. reflexivity.
  - eapply triple_bind.
    + unfold Formula_Evaluate. apply execute_triple.
      intros p. apply cell_value_getter_triple, H.
    + intros [d|err]; apply triple_ret; intros s Hs; (split; [exact Hs|discriminate]).
Qed.

(** [Cell::GetValue] fills caches and changes nothing else. *)
Lemma Cell_GetValue_triple (s0 : Sheet) (fuel : nat) (pos : Position) :
  triple (cached_of s0) (Cell_GetValue fuel pos) (fun _ => cached_of s0)
         (cached_of s0).
Proof.
  revert pos. induction fuel as [|fuel IH]; intros pos; [apply triple_stuck|].
  intros s Hs. simpl. unfold mbind at 1, M_bind at 1.
  unfold GetConcreteCell, mbind at 1, M_bind at 1, get.
  destruct (concrete_cell (cells_ s) pos) as [[c|]|] eqn:E; simpl; try exact I.
  apply concrete_cell_Some in E as (Hp & Hcell & _).
  destruct (cache_ c) as [v|]; [exact Hs|].
  destruct (cached_of_impl s0 s pos c Hs Hp Hcell) as (c0 & Hc0 & Hi).
  pose proof (Impl_GetValue_triple s0 (Cell_GetValue fuel) (impl_ c) IH s Hs) as T.
  unfold mbind, M_bind.
  destruct (Impl_GetValue (Cell_GetValue fuel) (impl_ c) s) as [v s1|e s1|f];
    [|exact T|exact I].
  destruct T as [Hs1 Hv].
  pose proof (store_cache_triple s0 pos (impl_ c) v Hv s1) as T2.
  destruct (store_cache pos v s1) as [u s2|e s2|f].
  - simpl. apply T2. split; [exact Hs1|]. exists c0. split; assumption.
  - apply T2. split; [exact Hs1|]. exists c0. split; assumption.
  - exact I.
Qed.

Lemma GetValue_invariant (fuel : nat) (pos : Position) :
  triple invariant (GetValue fuel pos) (fun _ => invariant) invariant.
Proof.
  intros s H. unfold GetValue, mbind, M_bind.
  destruct (IsValid pos) eqn:Hv.
  - rewrite GetCell_valid by exact Hv.
    destruct (cell_at (cells_ s) pos); [|exact I].
    pose proof (Cell_GetValue_triple s fuel pos s (cached_of_refl s)) as T.
    destruct (Cell_GetValue fuel pos s); try exact I;
      eapply cached_of_invariant; eassumption.
  - rewrite GetCell_invalid by exact Hv. exact H.
Qed.

Lemma call_invariant (fuel : nat) (c : Call) :
  triple invariant (call fuel c) (fun _ => invariant) invariant.
Proof.
  destruct c as [pos text|pos|pos]; simpl.
  - apply SetCell_invariant.
  - apply ClearCell_invariant.
  - eapply triple_bind; [apply GetValue_invariant|].
    intros v. apply triple_ret. auto.
Qed.

(** Every reachable sheet satisfies the invariant. *)
Lemma reachable_invariant (s : Sheet) : reachable s -> invariant s.
Proof.
  induction 1 as [|fuel c s s' _ IH Hc|fuel c e s s' _ IH Hc].
  - apply invariant_new.
  - pose proof (call_invariant fuel c s IH) as T. rewrite Hc in T. exact T.
  - pose proof (call_invariant fuel c s IH) as T. rewrite Hc in T. exact T.
Qed.

End ValueCaching.

(* ===================================================================== *)
(** ** Setting a cell twice                                               *)
(* ===================================================================== *)

Section SetTwice.
Context {api : FormulaAPI}.

Lemma Contains_dom (g : DependencyGraph) (p : Position) :
  p ∈ dom g -> Contains g p = true.
Proof. intros H. apply GraphFacts.Contains_true, elem_of_dom, H. Qed.


End SetTwice.

(** C5, as stated, fails: on the new sheet, SetCell(A1, "=B1") followed by
    SetCell(A1, "=C1") leaves a node for B1 in the graph, and
    SetCell(A1, "=C1") alone leaves none. *)
Lemma two_SetCell_node_sets_differ :
  SetCell 4 SampleFormula.A1 "=B1" Sheet_new = Done tt Scenarios.twice_first /\
  SetCell 4 SampleFormula.A1 "=C1" Scenarios.twice_first
    = Done tt Scenarios.twice_second /\
  SetCell 4 SampleFormula.A1 "=C1" Sheet_new = Done tt Scenarios.once /\
  nodes (graph_ Scenarios.twice_second) <> nodes (graph_ Scenarios.once).
Proof.
  split; [by_evaluation|]. split; [by_evaluation|]. split; [by_evaluation|].
  intros Heq.
  assert (H1 : SampleFormula.B1 ∈ nodes (graph_ Scenarios.twice_second)).
  { apply (bool_decide_eq_true_1 (_ ∈ _)). by_evaluation. }
  assert (H2 : SampleFormula.B1 ∉ nodes (graph_ Scenarios.once)).
  { apply (bool_decide_eq_false_1 (_ ∈ _)). by_evaluation. }
  rewrite Heq in H1. exact (H2 H1).
Qed.

(** C5, amended: from a reachable sheet in which every edge out of pos
    leads to a reference of the cell stored at pos, two successive
    successful SetCell calls at pos with t1 then t2 leave the same forward
    set and the same backward set at every position as one successful
    SetCell(pos, t2), and a node set that is the node set of the single
    call together with the positions t1 references. *)
Theorem two_SetCell_same_edges (api : FormulaAPI) (fuel1 fuel2 fuel3 : nat)
    (pos : Position) (t1 t2 : string) (c1 : Cell) (s s1 s2 s2' : Sheet) :
  reachable s ->
  forward (graph_ s) pos ⊆ list_to_set (old_references s pos) ->
  SetCell fuel1 pos t1 s = Done tt s1 ->
  SetCell fuel2 pos t2 s1 = Done tt s2 ->
  SetCell fuel3 pos t2 s = Done tt s2' ->
  Cell_Set Cell_new t1 = Some c1 ->
  (forall p, forward (graph_ s2) p = forward (graph_ s2') p) /\
  (forall p, backward (graph_ s2) p = backward (graph_ s2') p) /\
  nodes (graph_ s2) =
    nodes (graph_ s2') ∪ list_to_set (Cell_GetReferencedCells c1).
Proof.
  intros Hreach Hstale H1 H2 H3 Hc1.
  destruct (reachable_invariant s Hreach) as (_ & _ & Hcons & _).
  apply SetCell_Done_graph in H1 as (n1 & Hn1 & Hat1 & _ & F1 & B1 & D1).
  apply SetCell_Done_graph in H2 as (n2 & Hn2 & _ & _ & F2 & B2 & D2).
  apply SetCell_Done_graph in H3 as (n3 & Hn3 & _ & _ & F3 & B3 & D3).
  assert (n1 = c1) by congruence. subst n1.
  assert (n3 = n2) by congruence. subst n3.
  simpl in *.
  assert (Hold1 : old_references s1 pos = Cell_GetReferencedCells c1).
  { unfold old_references. rewrite Contains_dom, Hat1; [reflexivity|].
    rewrite D1. set_solver. }
  rewrite Hold1 in *.
  set (R1 := Cell_GetReferencedCells c1) in *.
  set (R2 := Cell_GetReferencedCells n2) in *.
  set (Old := old_references s pos) in *.
  assert (Hno : forall q, pos ∈ backward (graph_ s) q -> q ∈ Old).
  { intros q Hq. apply Hcons in Hq. apply Hstale in Hq.
    apply elem_of_list_to_set in Hq. exact Hq. }
  split; [|split].
  - intros p. rewrite F2, F3, !F1.
    case_decide; [|reflexivity]. rewrite decide_True by reflexivity.
    apply set_eq. intros x. set_solver.
  - intros q. rewrite B2, B3, !B1. specialize (Hno q).
    apply set_eq. intros x.
    repeat case_decide; set_solver.
  - unfold nodes. rewrite D2, D3, D1. set_solver.
Qed.

Lemma two_SetCell_same_edges_witness :
  reachable Sheet_new /\
  forward (graph_ Sheet_new) SampleFormula.A1
    ⊆ list_to_set (old_references Sheet_new SampleFormula.A1) /\
  SetCell 4 SampleFormula.A1 "=B1" Sheet_new = Done tt Scenarios.twice_first /\
  SetCell 4 SampleFormula.A1 "=C1" Scenarios.twice_first
    = Done tt Scenarios.twice_second /\
  SetCell 4 SampleFormula.A1 "=C1" Sheet_new = Done tt Scenarios.once /\
  Cell_Set Cell_new "=B1" =
    Some (mkCell (FormulaImpl (SampleFormula.ECell SampleFormula.B1)) None) /\
  (forall p, forward (graph_ Scenarios.twice_second) p
             = forward (graph_ Scenarios.once) p) /\
  (forall p, backward (graph_ Scenarios.twice_second) p
             = backward (graph_ Scenarios.once) p) /\
  nodes (graph_ Scenarios.twice_second) =
    nodes (graph_ Scenarios.once)
    ∪ list_to_set (Cell_GetReferencedCells
         (mkCell (FormulaImpl (SampleFormula.ECell SampleFormula.B1)) None)).
Proof.
  assert (H0 : reachable Sheet_new) by exact reachable_new.
  assert (Hs : forward (graph_ Sheet_new) SampleFormula.A1
                 ⊆ list_to_set (old_references Sheet_new SampleFormula.A1)).
  { intros x Hx. unfold forward, Sheet_new, empty_graph in Hx.
    simpl in Hx. rewrite lookup_empty in Hx.
    apply elem_of_empty in Hx. destruct Hx. }
  assert (H1 : SetCell 4 SampleFormula.A1 "=B1" Sheet_new
               = Done tt Scenarios.twice_first) by by_evaluation.
  assert (H2 : SetCell 4 SampleFormula.A1 "=C1" Scenarios.twice_first
               = Done tt Scenarios.twice_second) by by_evaluation.
  assert (H3 : SetCell 4 SampleFormula.A1 "=C1" Sheet_new
               = Done tt Scenarios.once) by by_evaluation.
  assert (H4 : Cell_Set Cell_new "=B1" =
    Some (mkCell (FormulaImpl (SampleFormula.ECell SampleFormula.B1)) None))
    by reflexivity.
  split; [exact H0|]. split; [exact Hs|]. split; [exact H1|].
  split; [exact H2|]. split; [exact H3|]. split; [exact H4|].
  exact (two_SetCell_same_edges SampleFormula.api 4%nat 4%nat 4%nat
           SampleFormula.A1 "=B1"%string "=C1"%string _ Sheet_new _ _ _
           H0 Hs H1 H2 H3 H4).
Defined.

(* ===================================================================== *)
(** ** Text cells                                                         *)
(* ===================================================================== *)

Section TextCells.
Context {api : FormulaAPI}.

(** [GetValue] on a stored cell whose cache is sound for a text. *)
Lemma GetValue_text (fuel : nat) (pos : Position) (c : Cell) (t : string)
    (s : Sheet) :
  IsValid pos = true -> cell_at (cells_ s) pos = Some c ->
  impl_ c = TextImpl t -> cache_sound c ->
  exists s', GetValue (S fuel) pos s = Done (TextImpl_GetValue t) s'.
Proof.
  intros Hv Hc Hi Hs. pose proof (IsValid_nonneg pos Hv) as Hp.
  unfold GetValue, mbind, M_bind. rewrite GetCell_valid by exact Hv.
  rewrite Hc. simpl. unfold mbind, M_bind.
  rewrite GetConcreteCell_nonneg by exact Hp. rewrite Hc.
  unfold cache_sound in Hs. rewrite Hi in Hs.
  destruct Hs as [Hn|Hn]; rewrite Hn.
  - rewrite Hi. simpl.
    unfold mret, M_ret, store_cache, mbind, M_bind, get.
    unfold cell_at, slot in Hc.
    destruct (cells_ s !! Z.to_nat (row pos)) as [r|] eqn:Hr; [|discriminate].
    destruct (r !! Z.to_nat (col pos)) as [[c'|]|] eqn:Hcol; try discriminate.
    rewrite (proj2 (vec_at_Good (cells_ s) (row pos) r))
      by (split; [apply Hp|exact Hr]).
    simpl.
    rewrite (proj2 (vec_at_Good r (col pos) (Some c')))
      by (split; [apply Hp|exact Hcol]).
    simpl. eexists. reflexivity.
  - eexists. reflexivity.
Qed.

End TextCells.

(** C9: for every Text cell of a reachable sheet, with stored text t,
    GetText() returns t unchanged, and GetValue() returns t without its
    first character when t begins with the escape sign and t itself (that
    is, GetText()) otherwise. *)
Theorem text_cell_value_and_text (api : FormulaAPI) (fuel : nat)
    (pos : Position) (c : Cell) (t : string) (s : Sheet) :
  reachable s ->
  GetCell pos s = Done (Some c) s ->
  impl_ c = TextImpl t ->
  GetText pos s = Done t s /\
  exists s',
    GetValue (S fuel) pos s =
    Done (if starts_with ESCAPE_SIGN t then VString (substr1 t) else VString t)
         s'.
Proof.
  intros Hr Hc Hi. apply GetCell_Done in Hc as (Hv & _ & Hc). symmetry in Hc.
  destruct (reachable_invariant s Hr) as (Ha & _ & _). split.
  - rewrite (GetText_cell pos s c Hv Hc). unfold Cell_GetText. rewrite Hi.
    reflexivity.
  - apply (GetValue_text fuel pos c t s Hv Hc Hi). apply (Ha pos c Hc).
Qed.

Lemma text_cell_value_and_text_witness :
  reachable Scenarios.escaped /\
  GetCell SampleFormula.A1 Scenarios.escaped =
    Done (Some (mkCell (TextImpl "'=1+2") None)) Scenarios.escaped /\
  GetText SampleFormula.A1 Scenarios.escaped = Done "'=1+2"%string Scenarios.escaped /\
  exists s',
    GetValue 1 SampleFormula.A1 Scenarios.escaped =
    Done (if starts_with ESCAPE_SIGN "'=1+2"
          then VString (substr1 "'=1+2") else VString "'=1+2") s'.
Proof.
  assert (H1 : reachable Scenarios.escaped).
  { apply (reachable_done 4 (CallSetCell SampleFormula.A1 "'=1+2") Sheet_new).
    - apply reachable_new.
    - by_evaluation. }
  assert (H2 : GetCell SampleFormula.A1 Scenarios.escaped =
    Done (Some (mkCell (TextImpl "'=1+2") None)) Scenarios.escaped)
    by by_evaluation.
  split; [exact H1|]. split; [exact H2|].
  exact (text_cell_value_and_text SampleFormula.api 0 SampleFormula.A1 _
           "'=1+2"%string Scenarios.escaped H1 H2 eq_refl).
Defined.

(* ===================================================================== *)
(** ** SetCell empties the caches of the cells that depend on it          *)
(* ===================================================================== *)

Section Ancestors.
Context {api : FormulaAPI}.

Lemma reset_of_trans (s0 s1 s2 : Sheet) :
  reset_of s0 s1 -> reset_of s1 s2 -> reset_of s0 s2.
Proof.
  intros (Hg1 & Hs1 & Hl1 & Hc1) (Hg2 & Hs2 & Hl2 & Hc2).
  split; [congruence|]. split; [congruence|]. split; [congruence|].
  intros q Hq.
  destruct (Hc1 q Hq) as [E1|(c1 & A1 & B1)];
    destruct (Hc2 q Hq) as [E2|(c2 & A2 & B2)].
  - left. congruence.
  - right. exists c2. split; congruence.
  - right. exists c1. split; congruence.
  - right. exists c1. split; [exact A1|].
    rewrite B2. rewrite B1 in A2. injection A2 as <-. reflexivity.
Qed.

Lemma cache_empty_at_reset (s s' : Sheet) (p : Position) :
  reset_of s s' -> cache_empty_at s p -> cache_empty_at s' p.
Proof.
  intros (_ & _ & _ & Hc) (Hp & c & Hcell & Hn). split; [exact Hp|].
  destruct (Hc p Hp) as [E|(c0 & A & B)].
  - exists c. split; congruence.
  - exists (Cell_ResetCache c0). split; [exact B|reflexivity].
Qed.

(** The callback, when it returns. *)
Lemma reseter_Done (p : Position) (s s' : Sheet) (u : unit) :
  reseter p s = Done u s' -> cache_empty_at s' p /\ reset_of s s'.
Proof.
  intros H. pose proof (reseter_triple s p s (reset_of_refl s)) as T.
  rewrite H in T. split; [|exact T].
  unfold reseter, GetConcreteCell, mbind, M_bind, get in H.
  destruct (concrete_cell (cells_ s) p) as [[c|]|] eqn:E; simpl in H;
    try discriminate.
  apply concrete_cell_Some in E as (Hp & Hcell & r & Hr & Hlt & Hv).
  rewrite Hv in H. simpl in H.
  unfold set_cells, mbind, M_bind, get, put in H. simpl in H.
  injection H as _ <-. split; [exact Hp|]. simpl.
  exists (Cell_ResetCache c). split; [|reflexivity].
  rewrite (cell_at_rewrite _ p r) by assumption.
  rewrite decide_True by reflexivity. reflexivity.
Qed.

(** The search along the backward edges, when it returns, has emptied
    the cache of the node it started from and of every node it added to
    the verified set, and the verified set is closed under backward
    edges. *)
Lemma reset_node_complete (g : DependencyGraph) (fuel : nat) :
  keyed g ->
  forall (cur : Position) (V V' : gset Position) (s s' : Sheet),
  reset_node fuel g reseter cur V s = Done V' s' ->
  (forall v, v ∈ V -> backward g v ⊆ V) ->
  (forall v, v ∈ V -> cache_empty_at s v) ->
  V ⊆ V' /\ backward g cur ⊆ V' /\
  (forall v, v ∈ V' -> backward g v ⊆ V') /\
  (forall v, v ∈ V' -> cache_empty_at s' v) /\
  cache_empty_at s' cur /\ reset_of s s'.
Proof.
  intros Hk. induction fuel as [|fuel IH]; intros cur V V' s s' H Hcl Hem;
    [discriminate|].
  simpl in H. destruct (g !! cur) as [n|] eqn:Hn; [|discriminate].
  apply bind_Done in H as (u & s0 & Hres & H).
  rewrite (Hk cur n Hn) in Hres.
  apply reseter_Done in Hres as [Hcur Hr0].
  assert (Hb : backward g cur = backward_ n)
    by (unfold backward; rewrite Hn; reflexivity).
  assert (Hem0 : forall v, v ∈ V -> cache_empty_at s0 v).
  { intros v Hv. eapply cache_empty_at_reset; [exact Hr0|apply Hem, Hv]. }
  assert (Hloop : V ⊆ V' /\ (forall x, x ∈ elements (backward_ n) -> x ∈ V') /\
                  (forall v, v ∈ V' -> backward g v ⊆ V') /\
                  (forall v, v ∈ V' -> cache_empty_at s' v) /\ reset_of s0 s').
  { clear Hem Hr0 Hcur Hb. revert V s0 H Hcl Hem0.
    induction (elements (backward_ n)) as [|next rest IHl];
      intros V s0 H Hcl Hem0.
    - injection H as <- <-.
      split; [reflexivity|]. split; [intros x Hx; apply not_elem_of_nil in Hx; destruct Hx|].
      split; [exact Hcl|]. split; [exact Hem0|apply reset_of_refl].
    - destruct (decide (next ∈ V)) as [Hin|Hnin].
      + destruct (IHl V s0 H Hcl Hem0) as (A & B & C & D & E).
        split; [exact A|]. split; [|split; [exact C|split; [exact D|exact E]]].
        intros x Hx. apply elem_of_cons in Hx as [->|Hx]; [apply A, Hin|apply B, Hx].
      + apply bind_Done in H as (V1 & s1 & Hrec & H).
        destruct (IH next V V1 s0 s1 Hrec Hcl Hem0)
          as (A1 & B1 & C1 & D1 & E1 & F1).
        assert (Hcl1 : forall v, v ∈ V1 ∪ {[next]} -> backward g v ⊆ V1 ∪ {[next]}).
        { intros v Hv. apply elem_of_union in Hv as [Hv|Hv].
          - intros x Hx. apply elem_of_union_l. apply (C1 v Hv x Hx).
          - apply elem_of_singleton in Hv. subst v.
            intros x Hx. apply elem_of_union_l. apply (B1 x Hx). }
        assert (Hem1 : forall v, v ∈ V1 ∪ {[next]} -> cache_empty_at s1 v).
        { intros v Hv. apply elem_of_union in Hv as [Hv|Hv]; [apply D1, Hv|].
          apply elem_of_singleton in Hv. subst v. exact E1. }
        destruct (IHl (V1 ∪ {[next]}) s1 H Hcl1 Hem1) as (A & B & C & D & E).
        split; [|split; [|split; [exact C|split; [exact D|]]]].
        * intros x Hx. apply A. apply elem_of_union_l. apply A1, Hx.
        * intros x Hx. apply elem_of_cons in Hx as [->|Hx]; [|apply B, Hx].
          apply A. apply elem_of_union_r. apply elem_of_singleton. reflexivity.
        * eapply reset_of_trans; eassumption. }
  destruct Hloop as (A & B & C & D & E).
  split; [exact A|]. split; [|split; [exact C|split; [exact D|split]]].
  - rewrite Hb. intros x Hx. apply B. apply elem_of_elements. exact Hx.
  - eapply cache_empty_at_reset; [exact E|exact Hcur].
  - eapply reset_of_trans; eassumption.
Qed.

(** After [ResetCache] the cache of every ancestor is empty. *)
Lemma ResetCache_complete (fuel : nat) (d : Position) (s s' : Sheet) (u : unit) :
  keyed (graph_ s) ->
  ResetCache fuel d reseter s = Done u s' ->
  forall a, ancestor (graph_ s) d a -> cache_empty_at s' a.
Proof.
  intros Hk H. unfold ResetCache in H.
  apply bind_Done in H as (s0 & s1 & Hget & H). injection Hget as <- <-.
  apply bind_Done in H as (u1 & s1 & Has & H).
  unfold assert in Has. destruct (Contains (graph_ s) d); [|discriminate].
  injection Has as _ <-.
  apply bind_Done in H as (V' & s2 & Hrec & H). injection H as _ <-.
  destruct (reset_node_complete (graph_ s) fuel Hk d ∅ V' s s2 Hrec)
    as (_ & B & C & D & E & _).
  { intros v Hv. apply elem_of_empty in Hv. destruct Hv. }
  { intros v Hv. apply elem_of_empty in Hv. destruct Hv. }
  assert (Hall : forall a, ancestor (graph_ s) d a -> a = d \/ a ∈ V').
  { intros a Ha. unfold ancestor in Ha. revert a Ha.
    apply (rtc_ind_r (fun a => a = d \/ a ∈ V')).
    - left. reflexivity.
    - intros x y _ Hy IHa. right. destruct IHa as [->|Hx].
      + apply B, Hy.
      + apply (C x Hx), Hy. }
  intros a Ha. destruct (Hall a Ha) as [->|Hin]; [exact E|apply D, Hin].
Qed.

End Ancestors.

Section AncestorsOfSetCell.
Context {api : FormulaAPI}.

Lemma probe_Done_ResetCache (fuel : nat) (pos : Position)
    (ne old : list Position) (s s' : Sheet) (u : unit) :
  probe fuel pos ne old s = Done u s' ->
  ResetCache fuel pos reseter s = Done u s'.
Proof.
  unfold probe. intros H.
  apply bind_Done in H as (acyclic & s0 & Hc & H).
  unfold graph_CheckCyclicDependencies, mbind, M_bind, get in Hc.
  apply check_Done in Hc as [_ ->].
  destruct acyclic; simpl in H; [exact H|].
  apply bind_Done in H as (u1 & s1 & _ & H).
  apply bind_Done in H as (u2 & s2 & _ & H). discriminate.
Qed.

(** A triple read at a run that returned. *)
Lemma triple_Done {A : Type} (P : Sheet -> Prop) (m : M A)
    (Q : A -> Sheet -> Prop) (E : Sheet -> Prop) (s s' : Sheet) (a : A) :
  triple P m Q E -> P s -> m s = Done a s' -> Q a s'.
Proof. intros T Hs H. specialize (T s Hs). rewrite H in T. exact T. Qed.


(** After a [SetCell] that returned, the cache of every ancestor of the
    position in the graph is empty. *)
Lemma SetCell_empties_ancestors (fuel : nat) (d : Position) (text : string)
    (s s' : Sheet) :
  invariant s ->
  SetCell fuel d text s = Done tt s' ->
  forall a, ancestor (graph_ s') d a -> cache_empty_at s' a.
Proof.
  intros Hinv H.
  destruct (SetCell_Done_graph _ _ _ _ _ H)
    as (nc & Hset' & Hat & _ & F & B & D).
  destruct (SetCell_Done_cells _ _ _ _ _ H)
    as (nc' & Hv & Hset'' & Hall & _).
  assert (nc' = nc) by congruence. subst nc'. clear Hset''.
  pose proof (IsValid_nonneg d Hv) as Hd.
  assert (Hnew : cache_empty_at s' d).
  { split; [exact Hd|]. exists nc. split; [exact Hat|].
    rewrite (Cell_Set_cache Cell_new nc text Hset'). reflexivity. }
  apply SetCell_Done_inv in H
    as (new_cell & ne & s1 & old & s2 & s4 & s5 & _ & Hset & Hmat & Hdet
        & Hatt & Hprobe & Hplace).
  assert (nc = new_cell) by congruence. subst nc.
  pose proof (triple_Done _ _ _ _ _ _ _
                (materialize_invariant d _ []) Hinv Hmat) as Hinv1.
  pose proof (triple_Done _ _ _ _ _ _ _
                (detach_old_invariant d _) Hinv1 Hdet) as Hinv2.
  pose proof (graph_AddCell_invariant d s2 Hinv2) as Hinv3. simpl in Hinv3.
  pose proof (triple_Done _ _ _ _ _ _ _
                (attach_invariant d _) Hinv3 Hatt) as Hinv4.
  destruct (PlaceCell_Done d new_cell s5 Hd)
    as (s'' & Hplace' & Hg' & _ & Hcells & _).
  rewrite Hplace' in Hplace. injection Hplace as <-.
  assert (Hg1 : graph_ s1 = graph_ s).
  { apply materialize_Done in Hmat as (Hg1 & _). exact Hg1. }
  destruct (Contains (graph_ s1) d) eqn:Hcon.
  - apply probe_Done_ResetCache in Hprobe.
    assert (Hg5 : graph_ s5 = graph_ s4).
    { apply ResetCache_Done in Hprobe as (Hg5 & _). exact Hg5. }
    intros a Ha. rewrite Hg', Hg5 in Ha.
    destruct Hinv4 as (_ & _ & _ & Hk4).
    pose proof (ResetCache_complete fuel d s4 s5 tt Hk4 Hprobe a Ha)
      as (Hna & c & Hc & Hn).
    destruct (decide (a = d)) as [->|Hne]; [exact Hnew|].
    split; [exact Hna|]. exists c. split; [|exact Hn].
    rewrite Hcells by exact Hna. rewrite decide_False by exact Hne. exact Hc.
  - rewrite Hg1 in Hcon.
    assert (Hb : backward (graph_ s'') d = ∅).
    { rewrite B. unfold old_references. rewrite Hcon.
      rewrite decide_False by apply not_elem_of_nil.
      rewrite decide_False.
      - unfold backward. apply GraphFacts.Contains_false in Hcon.
        rewrite Hcon. apply union_empty_r_L.
      - intros Hin. rewrite Forall_forall in Hall.
        destruct (Hall d Hin) as [Hne _]. apply Hne. reflexivity. }
    intros a Ha. unfold ancestor in Ha.
    apply rtc_inv in Ha as [<-|(y & Hy & _)]; [exact Hnew|].
    rewrite Hb in Hy. apply elem_of_empty in Hy. destruct Hy.
Qed.

End AncestorsOfSetCell.

(* ===================================================================== *)
(** ** The graph covers the references of the stored cells                *)
(* ===================================================================== *)

Section Covers.
Context {api : FormulaAPI}.

Lemma kept_refl (s : Sheet) : kept s s.
Proof. intros q c _ H. right. exists c. split; [exact H|reflexivity]. Qed.

Lemma kept_trans (s0 s1 s2 : Sheet) : kept s0 s1 -> kept s1 s2 -> kept s0 s2.
Proof.
  intros H1 H2 q c2 Hq Hc2. destruct (H2 q c2 Hq Hc2) as [He|(c1 & Hc1 & Hi)].
  - left. exact He.
  - destruct (H1 q c1 Hq Hc1) as [He|(c0 & Hc0 & Hi0)].
    + left. congruence.
    + right. exists c0. split; [exact Hc0|congruence].
Qed.

Lemma kept_same_cells (s0 s s' : Sheet) :
  cells_ s' = cells_ s -> kept s0 s -> kept s0 s'.
Proof. intros E H q c Hq. rewrite E. apply H, Hq. Qed.

Lemma kept_reset_of (s s' : Sheet) : reset_of s s' -> kept s s'.
Proof.
  intros (_ & _ & _ & H) q c' Hq Hc'. right.
  destruct (H q Hq) as [E|(c & A & B)].
  - exists c'. split; [congruence|reflexivity].
  - exists c. split; [exact A|]. rewrite B in Hc'. injection Hc' as <-. reflexivity.
Qed.

Lemma kept_cached_of (s s' : Sheet) : cached_of s s' -> kept s s'.
Proof.
  intros (_ & _ & _ & H) q c' Hq Hc'. right.
  destruct (H q Hq) as [E|(c & v & A & B & _)].
  - exists c'. split; [congruence|reflexivity].
  - exists c. split; [exact A|]. rewrite B in Hc'. injection Hc' as <-. reflexivity.
Qed.

(** Cells that were kept, under a graph whose forward sets did not
    shrink, are still covered. *)
Lemma covers_kept (s s' : Sheet) :
  covers s -> kept s s' ->
  (forall p, forward (graph_ s) p ⊆ forward (graph_ s') p) ->
  covers s'.
Proof.
  intros Hc Hk Hf p q (Hp & c' & Hc' & Hin).
  destruct (Hk p c' Hp Hc') as [He|(c & Hcell & Hi)].
  - unfold Cell_GetReferencedCells in Hin. rewrite He in Hin.
    apply not_elem_of_nil in Hin. destruct Hin.
  - apply Hf. apply Hc. split; [exact Hp|]. exists c. split; [exact Hcell|].
    unfold Cell_GetReferencedCells in *. rewrite Hi. exact Hin.
Qed.

Lemma covers_new : covers Sheet_new.
Proof.
  intros p q (_ & c & Hc & _). unfold cell_at, slot in Hc. simpl in Hc.
  discriminate.
Qed.

(** [ClearCell]. *)
Lemma ClearCell_outcome (pos : Position) (s : Sheet) :
  match ClearCell pos s with
  | Done _ s' => graph_ s' = graph_ s /\ kept s s'
  | Raised _ s' => s' = s /\ IsValid pos = false
  | Stuck _ => True
  end.
Proof.
  unfold ClearCell, mbind, M_bind, ValidatePosition.
  destruct (IsValid pos) eqn:Hv; simpl; [|split; reflexivity].
  pose proof (IsValid_nonneg pos Hv) as [Hp1 Hp2].
  destruct (row pos <? Z.of_nat (length (cells_ s))); simpl;
    [|split; [reflexivity|apply kept_refl]].
  destruct (vec_at (cells_ s) (row pos)) as [r|] eqn:Er; simpl; [|exact I].
  apply vec_at_Good in Er as [_ Hr].
  destruct (col pos <? Z.of_nat (length r)) eqn:Ec; simpl;
    [|split; [reflexivity|apply kept_refl]].
  apply Z.ltb_lt in Ec.
  destruct (vec_at r (col pos)) as [o|]; simpl; [|exact I].
  unfold set_cells, set_printable_size, mbind, M_bind, get, put. simpl.
  assert (Hk : forall sz,
            kept s (mkSheet (graph_ s)
                      (<[Z.to_nat (row pos) := <[Z.to_nat (col pos) := None]> r]>
                         (cells_ s)) sz)).
  { intros sz q c' Hq. simpl.
    rewrite (cell_at_rewrite _ pos r) by (try assumption; try split; lia).
    case_decide; [discriminate|]. intros Hc. right. exists c'.
    split; [exact Hc|reflexivity]. }
  destruct (_ || _); simpl.
  - destruct (scan_rows _ _ _) as [[[r' c']|]|]; simpl;
      try exact I; (split; [reflexivity|apply Hk]).
  - split; [reflexivity|apply Hk].
Qed.

Lemma ClearCell_loop_outcome (l : list Position) (s : Sheet) :
  Forall (fun x => IsValid x = true) l ->
  match for_each l (fun next => ClearCell next) s with
  | Done _ s' => graph_ s' = graph_ s /\ kept s s'
  | Raised _ _ => False
  | Stuck _ => True
  end.
Proof.
  intros Hl. revert s. induction Hl as [|x l Hx Hl IH]; intros s; simpl.
  - split; [reflexivity|apply kept_refl].
  - unfold mbind, M_bind. pose proof (ClearCell_outcome x s) as T.
    destruct (ClearCell x s) as [u s1|e s1|f]; [|destruct T; congruence|exact I].
    destruct T as [Hg Hk]. specialize (IH s1).
    destruct (for_each l _ s1) as [u2 s2|e s2|f]; [|exact IH|exact I].
    destruct IH as [Hg2 Hk2]. split; [congruence|eapply kept_trans; eassumption].
Qed.

(** The phases of [SetCell] that throw nothing. *)
Lemma for_each_not_Raised {A : Type} (l : list A) (body : A -> M unit)
    (s s' : Sheet) (e : Exception) :
  (forall x s0 s1 e0, body x s0 <> Raised e0 s1) ->
  for_each l body s <> Raised e s'.
Proof.
  intros Hb. revert s. induction l as [|x l IH]; intros s; simpl.
  - discriminate.
  - unfold mbind, M_bind. destruct (body x s) as [u s1|e1 s1|f] eqn:E.
    + apply IH.
    + exfalso. apply (Hb x s s1 e1 E).
    + discriminate.
Qed.

Lemma graph_RemoveDependency_not_Raised (a b : Position) (s s' : Sheet)
    (e : Exception) :
  graph_RemoveDependency a b s <> Raised e s'.
Proof.
  unfold graph_RemoveDependency, set_graph, mbind, M_bind, get, put.
  destruct (RemoveDependency (graph_ s) a b); simpl; discriminate.
Qed.

Lemma attach_step_not_Raised (pos next : Position) (s s' : Sheet)
    (e : Exception) :
  (graph_AddCell next ;; graph_AddDependency pos next) s <> Raised e s'.
Proof.
  unfold graph_AddCell, graph_AddDependency, set_graph, mbind, M_bind, get, put.
  simpl. destruct (AddDependency _ pos next); simpl; discriminate.
Qed.

Lemma attach_not_Raised (pos : Position) (l : list Position) (s s' : Sheet)
    (e : Exception) :
  attach pos l s <> Raised e s'.
Proof.
  unfold attach. apply for_each_not_Raised.
  intros x s0 s1 e0. apply attach_step_not_Raised.
Qed.

Lemma detach_old_not_Raised (pos : Position) (contained : bool) (s s' : Sheet)
    (e : Exception) :
  detach_old pos contained s <> Raised e s'.
Proof.
  unfold detach_old. destruct contained; [|discriminate].
  unfold mbind at 1, M_bind at 1, GetConcreteCell, mbind at 1, M_bind at 1, get.
  destruct (concrete_cell (cells_ s) pos) as [[c|]|]; simpl; try discriminate.
  unfold mbind, M_bind.
  destruct (for_each _ _ s) as [u s1|e1 s1|f] eqn:E; try discriminate.
  exfalso. revert E. apply for_each_not_Raised.
  intros x s0 s2 e0. apply graph_RemoveDependency_not_Raised.
Qed.

Lemma ResetCache_not_Raised (fuel : nat) (cell : Position) (s s' : Sheet)
    (e : Exception) :
  ResetCache fuel cell reseter s <> Raised e s'.
Proof.
  assert (Hres : forall p, triple (fun _ => True) (reseter p)
                                  (fun _ _ => True) (fun _ => False)).
  { intros p s0 _. unfold reseter, GetConcreteCell, mbind, M_bind, get.
    destruct (concrete_cell (cells_ s0) p) as [[c|]|]; simpl; try exact I.
    destruct (vec_at (cells_ s0) (row p)); simpl; exact I. }
  assert (Hnode : forall fuel0 cur V,
            triple (fun _ => True) (reset_node fuel0 (graph_ s) reseter cur V)
                   (fun _ _ => True) (fun _ => False)).
  { induction fuel0 as [|fuel0 IH]; intros cur V; [apply triple_stuck|].
    simpl. destruct (graph_ s !! cur) as [n|]; [|apply triple_stuck].
    eapply triple_bind; [apply Hres|]. intros u.
    generalize (elements (backward_ n)). intros nexts. revert V.
    induction nexts as [|next rest IHl]; intros V.
    - apply triple_ret. auto.
    - destruct (decide (next ∈ V)); [apply IHl|].
      eapply triple_bind; [apply IH|]. intros v. apply IHl. }
  intros H. unfold ResetCache, mbind, M_bind, get, assert in H.
  destruct (Contains (graph_ s) cell); simpl in H; [|discriminate].
  pose proof (Hnode fuel cell ∅ s I) as T.
  destruct (reset_node fuel (graph_ s) reseter cell ∅ s); try discriminate.
  exact T.
Qed.

Lemma PlaceCell_not_Raised (p : Position) (c : Cell) (s s' : Sheet)
    (e : Exception) :
  PlaceCell p c s <> Raised e s'.
Proof.
  unfold PlaceCell, mbind, M_bind, get.
  destruct (vec_at _ (row p)) as [r|]; simpl; [|discriminate].
  destruct (vec_at _ (col p)); simpl; discriminate.
Qed.

(** The first loop keeps the cells and the graph, whether it runs to its
    end or throws. *)
Lemma materialize_outcome (pos : Position) (l acc : list Position) (s : Sheet) :
  Forall (fun x => IsValid x = true) acc ->
  match materialize pos l acc s with
  | Done ne s' =>
      graph_ s' = graph_ s /\ kept s s' /\ Forall (fun x => IsValid x = true) ne
  | Raised _ s' => graph_ s' = graph_ s /\ kept s s'
  | Stuck _ => True
  end.
Proof.
  revert acc s. induction l as [|next rest IH]; intros acc s Hacc; simpl.
  - split; [reflexivity|]. split; [apply kept_refl|exact Hacc].
  - destruct (decide (next = pos)); [split; [reflexivity|apply kept_refl]|].
    unfold mbind, M_bind. destruct (IsValid next) eqn:Hv.
    2:{ rewrite GetCell_invalid by exact Hv. split; [reflexivity|apply kept_refl]. }
    rewrite GetCell_valid by exact Hv.
    pose proof (IsValid_nonneg next Hv) as Hnn.
    destruct (cell_at (cells_ s) next) as [c|] eqn:Hcell; [apply IH, Hacc|].
    destruct (PlaceCell_Done next Cell_new s Hnn)
      as (s1 & -> & Hg1 & _ & Hcells & _).
    assert (Hk1 : kept s s1).
    { intros q c' Hq. rewrite Hcells by exact Hq.
      case_decide; [intros [= <-]; left; reflexivity|].
      intros Hc. right. exists c'. split; [exact Hc|reflexivity]. }
    assert (Hacc1 : Forall (fun x => IsValid x = true) (acc ++ [next])).
    { apply Forall_app. split; [exact Hacc|]. constructor; [exact Hv|constructor]. }
    specialize (IH (acc ++ [next]) s1 Hacc1).
    destruct (materialize pos rest (acc ++ [next]) s1) as [ne s2|e s2|f];
      [|destruct IH as [A B]|exact I].
    + destruct IH as (A & B & C).
      split; [congruence|]. split; [eapply kept_trans; eassumption|exact C].
    + split; [congruence|eapply kept_trans; eassumption].
Qed.

End Covers.

Section CoversSetCell.
Context {api : FormulaAPI}.

Lemma covers_kept_but (pos : Position) (s s' : Sheet) :
  covers s -> kept s s' ->
  (forall p, p <> pos -> forward (graph_ s) p ⊆ forward (graph_ s') p) ->
  (forall q, references s' pos q -> q ∈ forward (graph_ s') pos) ->
  covers s'.
Proof.
  intros Hc Hk Hf Hpos p q Hr.
  destruct (decide (p = pos)) as [->|Hne]; [apply Hpos, Hr|].
  destruct Hr as (Hp & c' & Hc' & Hin).
  destruct (Hk p c' Hp Hc') as [He|(c & Hcell & Hi)].
  - unfold Cell_GetReferencedCells in Hin. rewrite He in Hin.
    apply not_elem_of_nil in Hin. destruct Hin.
  - apply (Hf p Hne). apply Hc. split; [exact Hp|]. exists c.
    split; [exact Hcell|].
    unfold Cell_GetReferencedCells in *. rewrite Hi. exact Hin.
Qed.

(** A [SetCell] that returned. *)
Lemma SetCell_Done_covers (fuel : nat) (pos : Position) (text : string)
    (s s' : Sheet) :
  covers s -> SetCell fuel pos text s = Done tt s' -> covers s'.
Proof.
  intros Hc H.
  destruct (SetCell_Done_graph _ _ _ _ _ H)
    as (nc & Hset & Hat & _ & F & _ & _).
  destruct (SetCell_Done_cells _ _ _ _ _ H)
    as (nc' & Hv & Hset' & Hall & _ & Hnew & Hold & _).
  assert (nc' = nc) by congruence. subst nc'.
  intros p q (Hp & c' & Hc' & Hin). rewrite F.
  destruct (decide (p = pos)) as [->|Hne].
  - rewrite Hat in Hc'. injection Hc' as <-.
    apply elem_of_union_r, elem_of_list_to_set. exact Hin.
  - destruct (cell_at (cells_ s) p) as [c|] eqn:Hcell.
    + assert (Hpre : p ∉ Cell_GetReferencedCells nc \/
                       cell_at (cells_ s) p <> None)
        by (right; rewrite Hcell; discriminate).
      destruct (Hold p Hp Hne Hpre) as [E|(c0 & A & B)].
      * apply Hc. split; [exact Hp|]. exists c'. split; [congruence|exact Hin].
      * apply Hc. split; [exact Hp|]. exists c0. split; [exact A|].
        rewrite B in Hc'. injection Hc' as <-. exact Hin.
    + destruct (decide (p ∈ Cell_GetReferencedCells nc)) as [Hr|Hr].
      * destruct (Hnew p Hr Hcell) as (E & _). rewrite E in Hc'.
        injection Hc' as <-. apply not_elem_of_nil in Hin. destruct Hin.
      * destruct (Hold p Hp Hne (or_introl Hr)) as [E|(c0 & A & B)].
        -- congruence.
        -- congruence.
Qed.

(** The rollback: the edges of the cell that stays at [pos] are back. *)
Lemma probe_Raised_covers (fuel : nat) (pos : Position)
    (ne old : list Position) (s s' : Sheet) (e : Exception) :
  Forall (fun x => IsValid x = true) ne ->
  probe fuel pos ne old s = Raised e s' ->
  kept s s' /\
  forall p, forward (graph_ s') p =
            if decide (p = pos) then forward (graph_ s) pos ∪ list_to_set old
            else forward (graph_ s) p.
Proof.
  intros Hne H. unfold probe in H.
  apply bind_Raised in H as [H|(acyclic & s0 & Hc & H)].
  { unfold graph_CheckCyclicDependencies, mbind, M_bind, get in H.
    apply check_not_Raised in H. destruct H. }
  unfold graph_CheckCyclicDependencies, mbind, M_bind, get in Hc.
  apply check_Done in Hc as [_ ->].
  destruct acyclic; simpl in H.
  { apply ResetCache_not_Raised in H. destruct H. }
  apply bind_Raised in H as [H|(u1 & s1 & Hclear & H)].
  { pose proof (ClearCell_loop_outcome ne s Hne) as T. rewrite H in T.
    destruct T. }
  pose proof (ClearCell_loop_outcome ne s Hne) as T. rewrite Hclear in T.
  destruct T as [Hg1 Hk1].
  apply bind_Raised in H as [H|(u2 & s2 & Hatt & H)].
  { apply attach_not_Raised in H. destruct H. }
  injection H as _ <-. destruct u2.
  apply attach_Done in Hatt as (Hc2 & _ & F2 & _ & _).
  split.
  - eapply kept_trans; [exact Hk1|]. eapply kept_same_cells; [exact Hc2|].
    apply kept_refl.
  - intros p. rewrite F2, Hg1. reflexivity.
Qed.

(** A [SetCell] that threw. *)
Lemma SetCell_Raised_covers (fuel : nat) (pos : Position) (text : string)
    (s s' : Sheet) (e : Exception) :
  covers s -> SetCell fuel pos text s = Raised e s' -> covers s'.
Proof.
  intros Hc H. unfold SetCell in H.
  apply bind_Raised in H as [H|(u0 & s0 & Hval & H)].
  { unfold ValidatePosition in H. destruct (IsValid pos); [discriminate|].
    injection H as _ <-. exact Hc. }
  apply ValidatePosition_Done in Hval as [Hv ->].
  pose proof (IsValid_nonneg pos Hv) as Hp.
  apply bind_Raised in H as [H|(new_cell & s0 & Hset & H)].
  { destruct (Cell_Set Cell_new text); [discriminate|].
    injection H as _ <-. exact Hc. }
  destruct (Cell_Set Cell_new text) as [nc|]; [|discriminate].
  injection Hset as Hnc Hs0. subst nc s0.
  pose proof (materialize_outcome pos (Cell_GetReferencedCells new_cell) [] s
                (Forall_nil_2 _)) as Tm.
  apply bind_Raised in H as [H|(ne & s1 & Hmat & H)].
  { rewrite H in Tm. destruct Tm as [Hg Hk].
    eapply covers_kept; [exact Hc|exact Hk|]. intros p. rewrite Hg. reflexivity. }
  rewrite Hmat in Tm. destruct Tm as (Hg1 & Hk1 & Hne).
  apply bind_Raised in H as [H|(contained & s1' & Hcon & H)].
  { discriminate. }
  unfold graph_Contains, mbind, M_bind, get in Hcon. injection Hcon as <- <-.
  apply bind_Raised in H as [H|(old & s2 & Hdet & H)].
  { apply detach_old_not_Raised in H. destruct H. }
  apply bind_Raised in H as [H|(u3 & s3 & Hadd & H)].
  { discriminate. }
  apply graph_AddCell_Done in Hadd as ->.
  apply bind_Raised in H as [H|(u4 & s4 & Hatt & H)].
  { apply attach_not_Raised in H. destruct H. }
  destruct u4.
  apply bind_Raised in H as [H|(u5 & s5 & _ & H)].
  2:{ apply PlaceCell_not_Raised in H. destruct H. }
  destruct (Contains (graph_ s1) pos) eqn:Hcont; [|discriminate].
  apply detach_old_Done in Hdet as (Hc2 & _ & Hold & _ & F2 & _ & _);
    [|exact Hp].
  apply attach_Done in Hatt as (Hc4 & _ & F4 & _ & _). simpl in Hc4, F4.
  apply probe_Raised_covers in H as [Hk5 F5]; [|exact Hne].
  assert (Hk14 : kept s1 s4).
  { eapply kept_same_cells; [|apply kept_refl]. congruence. }
  assert (Hk15 : kept s1 s') by (eapply kept_trans; eassumption).
  assert (Hfw : forall p, p <> pos ->
            forward (graph_ s') p = forward (graph_ s) p).
  { intros p Hpp. rewrite F5, decide_False by exact Hpp.
    rewrite F4, decide_False by exact Hpp.
    rewrite GraphFacts.forward_AddCell, F2, decide_False by exact Hpp.
    rewrite Hg1. reflexivity. }
  apply (covers_kept_but pos s s' Hc).
  - eapply kept_trans; eassumption.
  - intros p Hpp. rewrite (Hfw p Hpp). reflexivity.
  - intros q (_ & c' & Hc' & Hin).
    rewrite F5, decide_True by reflexivity.
    apply elem_of_union_r, elem_of_list_to_set. rewrite Hold.
    destruct (Hk15 pos c' Hp Hc') as [He|(c1 & Hc1 & Hi)].
    + unfold Cell_GetReferencedCells in Hin. rewrite He in Hin.
      apply not_elem_of_nil in Hin. destruct Hin.
    + rewrite Hc1. unfold Cell_GetReferencedCells in *. rewrite Hi. exact Hin.
Qed.

Lemma call_covers (fuel : nat) (c : Call) (s : Sheet) :
  covers s ->
  match call fuel c s with
  | Done _ s' => covers s'
  | Raised _ s' => covers s'
  | Stuck _ => True
  end.
Proof.
  intros Hc. destruct c as [pos text|pos|pos]; simpl.
  - destruct (SetCell fuel pos text s) as [[] s'|e s'|f] eqn:E; [| |exact I].
    + eapply SetCell_Done_covers; eassumption.
    + eapply SetCell_Raised_covers; eassumption.
  - pose proof (ClearCell_outcome pos s) as T.
    destruct (ClearCell pos s) as [u s'|e s'|f]; [| |exact I].
    + destruct T as [Hg Hk]. eapply covers_kept; [exact Hc|exact Hk|].
      intros p. rewrite Hg. reflexivity.
    + destruct T as [-> _]. exact Hc.
  - unfold mbind, M_bind, GetValue, mbind, M_bind.
    destruct (IsValid pos) eqn:Hv.
    2:{ rewrite GetCell_invalid by exact Hv. exact Hc. }
    rewrite GetCell_valid by exact Hv.
    destruct (cell_at (cells_ s) pos); [|exact I].
    pose proof (Cell_GetValue_triple s fuel pos s (cached_of_refl s)) as T.
    destruct (Cell_GetValue fuel pos s) as [v s'|e s'|f]; [| |exact I].
    + simpl. eapply covers_kept; [exact Hc|apply kept_cached_of, T|].
      intros p. destruct T as (-> & _). reflexivity.
    + eapply covers_kept; [exact Hc|apply kept_cached_of, T|].
      intros p. destruct T as (-> & _). reflexivity.
Qed.

Lemma reachable_covers (s : Sheet) : reachable s -> covers s.
Proof.
  induction 1 as [|fuel c s s' _ IH Hc|fuel c e s s' _ IH Hc].
  - apply covers_new.
  - pose proof (call_covers fuel c s IH) as T. rewrite Hc in T. exact T.
  - pose proof (call_covers fuel c s IH) as T. rewrite Hc in T. exact T.
Qed.

(** On a reachable sheet, a [SetCell] that returns leaves an empty cache
    at every cell that reaches the position through the references of the
    stored cells: the next [GetValue] there computes. *)
Lemma SetCell_empties_dependent_caches (fuel : nat) (d p : Position)
    (text : string) (s s' : Sheet) :
  reachable s ->
  SetCell fuel d text s = Done tt s' ->
  depends_on s p d ->
  cache_empty_at s' p.
Proof.
  intros Hr H Hdep.
  pose proof (reachable_invariant s Hr) as Hinv.
  pose proof (reachable_covers s Hr) as Hcov.
  assert (Hr' : reachable s')
    by (apply (reachable_done fuel (CallSetCell d text) s s' Hr H)).
  destruct (reachable_invariant s' Hr') as (_ & _ & Hcons' & _).
  apply (SetCell_empties_ancestors fuel d text s s' Hinv H).
  destruct (SetCell_Done_graph _ _ _ _ _ H) as (nc & _ & _ & _ & F & _ & _).
  unfold depends_on in Hdep. unfold ancestor.
  revert p Hdep. apply (rtc_ind_l (fun p => rtc _ d p)); [apply rtc_refl|].
  intros x y Hxy _ IH.
  destruct (decide (x = d)) as [->|Hne]; [apply rtc_refl|].
  eapply rtc_r; [exact IH|]. simpl.
  apply Hcons'. rewrite F, decide_False by exact Hne.
  apply Hcov, Hxy.
Qed.

End CoversSetCell.

(* ===================================================================== *)
(** ** Where the code leaves the specified behaviour                      *)
(* ===================================================================== *)

Section BoundaryClear.
Context {api : FormulaAPI}.

(** On a reachable sheet, clearing a stored slot that lies on the boundary
    of the printable region starts the rescan at row [rows], one past the
    last stored row. *)
Lemma ClearCell_boundary_out_of_range (pos : Position) (s : Sheet) :
  reachable s ->
  IsValid pos = true ->
  is_Some (cell_at (cells_ s) pos) ->
  row pos + 1 = rows (printable_size_ s) \/
  col pos + 1 = cols (printable_size_ s) ->
  ClearCell pos s = Stuck OutOfRange.
Proof.
  intros Hr Hv [c Hc] Hb.
  destruct (reachable_invariant s Hr) as (_ & [Ht _] & _).
  pose proof (IsValid_nonneg pos Hv) as [Hp1 Hp2].
  unfold cell_at, slot in Hc.
  destruct (cells_ s !! Z.to_nat (row pos)) as [r|] eqn:Hrow; [|discriminate].
  destruct (r !! Z.to_nat (col pos)) as [o|] eqn:Hcol; [|discriminate].
  assert (Hlr : (Z.to_nat (row pos) < length (cells_ s))%nat)
    by (eapply lookup_lt_Some, Hrow).
  assert (Hlc : (Z.to_nat (col pos) < length r)%nat)
    by (eapply lookup_lt_Some, Hcol).
  unfold ClearCell, mbind, M_bind, ValidatePosition. rewrite Hv. simpl.
  replace (row pos <? Z.of_nat (length (cells_ s))) with true
    by (symmetry; apply Z.ltb_lt; lia).
  rewrite (proj2 (vec_at_Good (cells_ s) (row pos) r)) by (split; assumption).
  simpl.
  replace (col pos <? Z.of_nat (length r)) with true
    by (symmetry; apply Z.ltb_lt; lia).
  rewrite (proj2 (vec_at_Good r (col pos) o)) by (split; assumption).
  simpl. unfold set_cells, mbind, M_bind, get, put. simpl.
  replace ((row pos + 1 =? rows (printable_size_ s))
           || (col pos + 1 =? cols (printable_size_ s))) with true.
  - replace (Z.to_nat (rows (printable_size_ s) + 1))
      with (S (length (<[Z.to_nat (row pos) := <[Z.to_nat (col pos) := None]> r]>
                         (cells_ s)))).
    + rewrite scan_rows_tight. reflexivity.
    + rewrite length_insert. unfold storage_tight in Ht. lia.
  - symmetry. apply orb_true_iff.
    destruct Hb as [Hb|Hb]; [left|right]; apply Z.eqb_eq; exact Hb.
Qed.

End BoundaryClear.

Import SampleFormula.

(** C1 (the code departs from it): A1 holds "=B1" and B1 holds "=C1";
    SetCell(C1, "=A1") fails with the circular-dependency exception after
    the cycle probe, and the edge from C1 to A1, absent before the call,
    is in the graph after it.  The grid, the printable region and the
    output of PrintTexts are as before the call. *)
Theorem failed_SetCell_keeps_new_edge :
  script 4 [CallSetCell A1 "=B1"; CallSetCell B1 "=C1"] Sheet_new
    = Done tt Scenarios.chain /\
  SetCell 4 C1 "=A1" Scenarios.chain
    = Raised CircularDependencyException Scenarios.chain_closed /\
  (A1 ∉ forward (graph_ Scenarios.chain) C1) /\
  (A1 ∈ forward (graph_ Scenarios.chain_closed) C1) /\
  cells_ Scenarios.chain_closed = cells_ Scenarios.chain /\
  printable_size_ Scenarios.chain_closed = printable_size_ Scenarios.chain /\
  PrintTexts Scenarios.chain_closed
    = Done (printed_texts Scenarios.chain) Scenarios.chain_closed.
Proof.
  split; [by_evaluation|]. split; [by_evaluation|]. split; [|split].
  - apply (bool_decide_eq_false_1 (_ ∈ _)). by_evaluation.
  - apply (bool_decide_eq_true_1 (_ ∈ _)). by_evaluation.
  - repeat split; by_evaluation.
Qed.

(** The edge that stayed makes later calls fail: a plain text at C1, and
    the text A1 already holds, are both refused as circular. *)
Lemma kept_edge_refuses_later_calls :
  SetCell 4 C1 "5" Scenarios.chain_closed
    = Raised CircularDependencyException
        (sheet_after (SetCell 4 C1 "5") Scenarios.chain_closed) /\
  SetCell 4 A1 "=B1" Scenarios.chain_closed
    = Raised CircularDependencyException
        (sheet_after (SetCell 4 A1 "=B1") Scenarios.chain_closed).
Proof. split; by_evaluation. Qed.

(** When the rollback has a referent to clear that lies on the boundary
    of the printable region, the call does not even throw: with A1
    holding "=B1", SetCell(B1, "=A1+Z9") creates Z9, finds the cycle, and
    the ClearCell(Z9) of the rollback reads past the stored rows. *)
Lemma rollback_reads_past_stored_rows :
  SetCell 4 A1 "=B1" Sheet_new = Done tt Scenarios.pair /\
  SetCell 4 B1 "=A1+Z9" Scenarios.pair = Stuck OutOfRange.
Proof. split; by_evaluation. Qed.

(** C2 (the code departs from it): on the new sheet
    SetCell(B1, "=A1+B1+C1") fails with the circular-dependency exception,
    and the slot A1, absent before the call, holds an Empty cell after it;
    the printable region has grown from (0, 0) to (1, 1).  The graph is as
    before, and B1 holds no cell. *)
Theorem self_reference_keeps_phantom :
  SetCell 4 B1 "=A1+B1+C1" Sheet_new
    = Raised CircularDependencyException Scenarios.self_reference /\
  Cell_GetReferencedCells
    (mkCell (FormulaImpl (EAdd (EAdd (ECell A1) (ECell B1)) (ECell C1))) None)
    = [A1; B1; C1] /\
  GetCell A1 Sheet_new = Done None Sheet_new /\
  GetCell A1 Scenarios.self_reference
    = Done (Some Cell_new) Scenarios.self_reference /\
  GetPrintableSize Sheet_new = Done (mkSize 0 0) Sheet_new /\
  GetPrintableSize Scenarios.self_reference
    = Done (mkSize 1 1) Scenarios.self_reference /\
  graph_ Scenarios.self_reference = graph_ Sheet_new /\
  GetCell B1 Scenarios.self_reference = Done None Scenarios.self_reference.
Proof.
  repeat split; by_evaluation.
Qed.

(** C3 (the code departs from it): A1 holds "2", B2 holds "=A1+3" and its
    value 5 is cached; ClearCell(A1) returns and leaves the cache of B2
    filled, so the next GetValue(B2) answers the stale 5, where the
    formula of B2 on that sheet evaluates to 3. *)
Theorem ClearCell_keeps_stale_cache :
  script 4 [CallSetCell A1 "2"; CallSetCell B2 "=A1+3"; CallGetValue B2]
    Sheet_new = Done tt Scenarios.summed /\
  GetCell B2 Scenarios.summed
    = Done (Some (mkCell (FormulaImpl (EAdd (ECell A1) (ENum 3)))
                         (Some (VDouble 5%float)))) Scenarios.summed /\
  ClearCell A1 Scenarios.summed = Done tt Scenarios.summed_cleared /\
  GetCell A1 Scenarios.summed_cleared = Done None Scenarios.summed_cleared /\
  GetValue 4 B2 Scenarios.summed_cleared
    = Done (VDouble 5%float) Scenarios.summed_cleared /\
  Formula_Evaluate (Cell_GetValue 3) (EAdd (ECell A1) (ENum 3))
    Scenarios.summed_cleared
    = Done (inl 3%float) Scenarios.summed_cleared.
Proof.
  repeat split; by_evaluation.
Qed.

(** The sibling path: SetCell on the referenced cell does empty the cache
    of the formula that reads it (scenario 2 of the specification). *)
Lemma SetCell_empties_dependent_cache :
  script 4 [CallSetCell A1 "2"; CallSetCell A2 "=A1+3"; CallGetValue A2;
            CallSetCell A1 "10"] Sheet_new = Done tt Scenarios.rewritten /\
  GetCell A2 Scenarios.rewritten
    = Done (Some (mkCell (FormulaImpl (EAdd (ECell A1) (ENum 3))) None))
           Scenarios.rewritten /\
  GetValue 4 A2 Scenarios.rewritten
    = Done (VDouble 13%float)
           (sheet_after (GetValue 4 A2) Scenarios.rewritten).
Proof.
  repeat split; by_evaluation.
Qed.

(** The printable region of every reachable sheet is the bounding box of
    its occupied slots: the bookkeeping of PlaceCell is right, and no
    reachable sheet has been through a rescan. *)
Lemma reachable_printable_region (api : FormulaAPI) (s : Sheet) :
  reachable s -> bounding s.
Proof.
  intros Hr. destruct (reachable_invariant s Hr) as (_ & [_ Hb] & _). exact Hb.
Qed.

(** C4 (the code departs from it): with text cells at A1 and B2 the
    printable region is (2, 2); ClearCell(B2) should leave (1, 1), but the
    rescan reads the row after the last stored one and the call does not
    return.  And where the stored rows have room to spare, the rescan
    stops at the first occupied slot it meets, here (1, 0), which makes
    the region (2, 1), although the cell at (0, 2) needs three columns. *)
Theorem ClearCell_corner_never_shrinks :
  script 4 [CallSetCell A1 "x"; CallSetCell B2 "y"] Sheet_new
    = Done tt Scenarios.diagonal /\
  GetPrintableSize Scenarios.diagonal = Done (mkSize 2 2) Scenarios.diagonal /\
  ClearCell B2 Scenarios.diagonal = Stuck OutOfRange /\
  scan_rows Scenarios.spare_rows 3 (Z.to_nat (3 + 1)) = Good (Some (1, 0)) /\
  is_Some (cell_at Scenarios.spare_rows (mkPos 0 2)).
Proof.
  split; [by_evaluation|]. split; [by_evaluation|]. split; [by_evaluation|].
  split; [reflexivity|]. eexists. reflexivity.
Qed.

(** C10 (the code departs from it): after SetCell(A1, "x") on the new
    sheet one row is stored; ClearCell(A1) rescans from row 1 and reads
    [cells_[1]], past the end of the stored rows. *)
Theorem ClearCell_reads_past_stored_rows :
  SetCell 4 A1 "x" Sheet_new = Done tt Scenarios.one_cell /\
  length (cells_ Scenarios.one_cell) = 1%nat /\
  vec_at (cells_ Scenarios.one_cell) (rows (printable_size_ Scenarios.one_cell))
    = Bad OutOfRange /\
  ClearCell A1 Scenarios.one_cell = Stuck OutOfRange.
Proof.
  repeat split; by_evaluation.
Qed.
(* ===================================================================== *)
(** ** The graph: round trips, removal, and the search for a cycle        *)
(* ===================================================================== *)

Section GraphSearch.
Import GraphFacts.

Lemma tc_first_step (g : DependencyGraph) (p q : Position) :
  tc (edge g) p q -> exists y, y ∈ forward g p /\ rtc (edge g) y q.
Proof.
  intros H. destruct H as [p q H|p y q H Ht].
  - exists q. split; [exact H|apply rtc_refl].
  - exists y. split; [exact H|apply tc_rtc, Ht].
Qed.

(** A set of positions that holds the successors of its members holds
    everything they reach. *)
Lemma successors_closed_rtc (g : DependencyGraph) (V : gset Position) :
  (forall v, v ∈ V -> forward g v ⊆ V) ->
  forall y z, rtc (edge g) y z -> y ∈ V -> z ∈ V.
Proof.
  intros Hcl y z H. induction H as [y|y w z Hyw _ IH]; [tauto|].
  intros Hy. apply IH. apply (Hcl y Hy w Hyw).
Qed.

(** What one activation of the lambda [check_node] establishes when it
    returns: the verified set only grows and stays in that state, an
    answer [true] has put every successor of [current] into it, and an
    answer [false] comes with a walk from [current] to the start. *)
Lemma check_node_exact (g : DependencyGraph) (start : Position) (fuel : nat) :
  forall (current : Position) (V V' : gset Position) (b : bool),
  check_node fuel g start current V = Good (b, V') ->
  verified_ok g start V ->
  verified_ok g start V' /\
  V ⊆ V' /\
  (b = true -> forward g current ⊆ V') /\
  (b = false -> tc (edge g) current start).
Proof.
  induction fuel as [|fuel IH]; intros current V V' b H HV; [discriminate|].
  simpl in H. destruct (g !! current) as [n|] eqn:Hn; [|discriminate].
  assert (Hf : forward g current = forward_ n)
    by (unfold forward; rewrite Hn; reflexivity).
  assert (Hloop :
    verified_ok g start V' /\ V ⊆ V' /\
    (b = true -> forall x, x ∈ elements (forward_ n) -> x ∈ V') /\
    (b = false -> exists x, x ∈ elements (forward_ n) /\ rtc (edge g) x start)).
  { revert V H HV.
    induction (elements (forward_ n)) as [|next rest IHl]; intros V H HV.
    - injection H as <- <-. split; [exact HV|]. split; [reflexivity|].
      split; [intros _ x Hx; apply not_elem_of_nil in Hx; destruct Hx|].
      discriminate.
    - destruct (decide (next ∈ V)) as [Hin|Hnin].
      + destruct (IHl V H HV) as (A & B & C & D).
        split; [exact A|]. split; [exact B|]. split.
        * intros Hb x Hx.
          apply elem_of_cons in Hx as [->|Hx]; [apply B, Hin|apply (C Hb x Hx)].
        * intros Hb. destruct (D Hb) as (x & Hx & Hr).
          exists x. split; [apply list_elem_of_further, Hx|exact Hr].
      + destruct (decide (next = start)) as [->|Hns].
        * injection H as <- <-. split; [exact HV|]. split; [reflexivity|].
          split; [discriminate|]. intros _. exists start.
          split; [apply list_elem_of_here|apply rtc_refl].
        * destruct (check_node fuel g start next V) as [[[|] V1]|f] eqn:Hrec;
            [| |discriminate].
          -- destruct (IH next V V1 true Hrec HV) as ((K1 & K2 & K3) & B1 & C1 & _).
             assert (HV1 : verified_ok g start (V1 ∪ {[next]})).
             { split; [|split].
               - intros v Hv x Hx. apply elem_of_union_l.
                 apply elem_of_union in Hv as [Hv|Hv]; [apply (K1 v Hv x Hx)|].
                 apply elem_of_singleton in Hv. subst v.
                 apply (C1 eq_refl x Hx).
               - intros v Hv. apply elem_of_union in Hv as [Hv|Hv];
                   [apply K2, Hv|].
                 apply elem_of_singleton in Hv. subst v.
                 destruct (decide (next ∈ V1)) as [Hin1|Hnin1];
                   [apply K2, Hin1|].
                 intros Ht. apply tc_first_step in Ht as (y & Hy & Hr).
                 apply Hnin1.
                 apply (successors_closed_rtc g V1 K1 y next Hr).
                 apply (C1 eq_refl y Hy).
               - intros Hx. apply elem_of_union in Hx as [Hx|Hx];
                   [exact (K3 Hx)|].
                 apply elem_of_singleton in Hx. exact (Hns (eq_sym Hx)). }
             destruct (IHl (V1 ∪ {[next]}) H HV1) as (A & B & C & D).
             split; [exact A|]. split.
             { intros x Hx. apply B, elem_of_union_l, B1, Hx. }
             split.
             ++ intros Hb x Hx. apply elem_of_cons in Hx as [->|Hx];
                  [|apply (C Hb x Hx)].
                apply B, elem_of_union_r, elem_of_singleton. reflexivity.
             ++ intros Hb. destruct (D Hb) as (x & Hx & Hr).
                exists x. split; [apply list_elem_of_further, Hx|exact Hr].
          -- injection H as <- <-.
             destruct (IH next V V1 false Hrec HV) as (A1 & B1 & _ & D1).
             split; [exact A1|]. split; [exact B1|]. split; [discriminate|].
             intros _. exists next.
             split; [apply list_elem_of_here|apply tc_rtc, (D1 eq_refl)]. }
  destruct Hloop as (A & B & C & D).
  split; [exact A|]. split; [exact B|]. split.
  - intros Hb x Hx. rewrite Hf in Hx. apply (C Hb), elem_of_elements, Hx.
  - intros Hb. destruct (D Hb) as (x & Hx & Hr).
    apply elem_of_elements in Hx. rewrite <- Hf in Hx.
    eapply tc_rtc_r; [apply tc_once; exact Hx|exact Hr].
Qed.

(** The search from the empty verified set, when it returns. *)
Lemma check_node_answer (g : DependencyGraph) (cell : Position) (fuel : nat)
    (b : bool) (V : gset Position) :
  check_node fuel g cell cell ∅ = Good (b, V) ->
  (b = false <-> tc (edge g) cell cell) /\
  (b = true -> forall v, rtc (edge g) cell v -> ~ tc (edge g) v v).
Proof.
  intros H.
  destruct (check_node_exact g cell fuel cell ∅ V b H)
    as ((K1 & K2 & K3) & _ & C & D).
  { split; [|split]; try (intros v Hv; apply elem_of_empty in Hv; destruct Hv).
    apply not_elem_of_empty. }
  assert (Hno : b = true -> ~ tc (edge g) cell cell).
  { intros Hb Ht. apply tc_first_step in Ht as (y & Hy & Hr).
    apply K3. apply (successors_closed_rtc g V K1 y cell Hr).
    apply (C Hb y Hy). }
  split; [split|].
  - exact D.
  - intros Ht. destruct b; [|reflexivity]. destruct (Hno eq_refl Ht).
  - intros Hb v Hr. apply rtc_inv in Hr as [<-|(y & Hy & Hr)];
      [exact (Hno Hb)|].
    apply K2. apply (successors_closed_rtc g V K1 y v Hr).
    apply (C Hb y Hy).
Qed.

Lemma tc_last_step (g : DependencyGraph) (c p q : Position) :
  tc (edge_off g c) p q -> exists y, edge_off g c y q.
Proof.
  induction 1 as [p q H|p y q H _ IH]; [exists p; exact H|exact IH].
Qed.

(** With enough fuel the search returns, on a graph where no edge
    dangles and no cycle stays away from the start: the positions on the
    recursion stack are then pairwise distinct. *)
Lemma check_node_returns (g : DependencyGraph) (start : Position) :
  closed g -> is_Some (g !! start) ->
  (forall v, ~ tc (edge_off g start) v v) ->
  forall (fuel : nat) (current : Position) (V seen : gset Position),
  is_Some (g !! current) -> seen ⊆ dom g -> start ∉ seen ->
  (forall u, u ∈ seen -> tc (edge_off g start) u current) ->
  (size (dom g) <= fuel + size seen
                   + (if decide (current = start) then 0 else 1))%nat ->
  exists r, check_node fuel g start current V = Good r.
Proof.
  intros Hcl Hst Hac.
  assert (Hempty : forall seen : gset Position,
            (forall u, u ∈ seen -> tc (edge_off g start) u start) ->
            size seen = 0%nat).
  { intros seen Hseen. apply size_empty_iff, elem_of_equiv_empty. intros x Hx.
    destruct (tc_last_step _ _ _ _ (Hseen x Hx)) as (y & _ & _ & Hy).
    apply Hy. reflexivity. }
  induction fuel as [|fuel IH]; intros current V seen Hcur Hsub Hns Hseen Hsz.
  - exfalso.
    assert (Hcs : current ∉ seen).
    { intros Hin. apply (Hac current), Hseen, Hin. }
    destruct (decide (current = start)) as [->|Hne].
    + assert (Hle : (size ({[start]} : gset Position) <= size (dom g))%nat).
      { apply subseteq_size. intros x Hx. apply elem_of_singleton in Hx.
        subst x. apply elem_of_dom, Hst. }
      rewrite size_singleton in Hle.
      pose proof (Hempty seen Hseen) as Hz.
      lia.
    + assert (Hle : (size (seen ∪ {[current]} ∪ {[start]}) <= size (dom g))%nat).
      { apply subseteq_size. intros x Hx.
        apply elem_of_union in Hx as [Hx|Hx].
        - apply elem_of_union in Hx as [Hx|Hx]; [apply Hsub, Hx|].
          apply elem_of_singleton in Hx. subst x. apply elem_of_dom, Hcur.
        - apply elem_of_singleton in Hx. subst x. apply elem_of_dom, Hst. }
      rewrite size_union in Hle by set_solver.
      rewrite size_union in Hle by set_solver.
      rewrite !size_singleton in Hle. lia.
  - simpl. destruct Hcur as [n Hn]. rewrite Hn.
    assert (Hf : forward g current = forward_ n)
      by (unfold forward; rewrite Hn; reflexivity).
    assert (Hrec : forall next V0, next ∈ forward_ n -> next <> start ->
                     exists r, check_node fuel g start next V0 = Good r).
    { intros next V0 Hin Hne. rewrite <- Hf in Hin.
      destruct (decide (current = start)) as [Heq|Hcne].
      - subst current. pose proof (Hempty seen Hseen) as Hz.
        apply (IH next V0 ∅).
        + apply (Hcl start next Hin).
        + apply empty_subseteq.
        + apply not_elem_of_empty.
        + intros u Hu. apply elem_of_empty in Hu. destruct Hu.
        + rewrite decide_False by exact Hne. rewrite size_empty. lia.
      - assert (Hcs : current ∉ seen).
        { intros Hc. apply (Hac current), Hseen, Hc. }
        apply (IH next V0 (seen ∪ {[current]})).
        + apply (Hcl current next Hin).
        + intros x Hx. apply elem_of_union in Hx as [Hx|Hx]; [apply Hsub, Hx|].
          apply elem_of_singleton in Hx. subst x. apply elem_of_dom. eauto.
        + intros Hx. apply elem_of_union in Hx as [Hx|Hx]; [exact (Hns Hx)|].
          apply elem_of_singleton in Hx. exact (Hcne (eq_sym Hx)).
        + assert (Hstep : edge_off g start current next)
            by (split; [exact Hin|split; [exact Hcne|exact Hne]]).
          intros u Hu. apply elem_of_union in Hu as [Hu|Hu].
          * eapply tc_r; [apply Hseen, Hu|exact Hstep].
          * apply elem_of_singleton in Hu. subst u. apply tc_once, Hstep.
        + rewrite decide_False by exact Hne.
          rewrite size_union by set_solver. rewrite size_singleton. lia. }
    clear Hsz Hseen Hf. revert V.
    assert (Hall : forall x, x ∈ elements (forward_ n) -> x ∈ forward_ n)
      by (intros x Hx; apply elem_of_elements, Hx).
    induction (elements (forward_ n)) as [|next rest IHl]; intros V.
    + eexists. reflexivity.
    + destruct (decide (next ∈ V)) as [Hin|Hnin].
      * apply IHl. intros x Hx. apply Hall, list_elem_of_further, Hx.
      * destruct (decide (next = start)) as [->|Hne]; [eexists; reflexivity|].
        destruct (Hrec next V (Hall next (list_elem_of_here _ _)) Hne)
          as [[[|] V1] E]; rewrite E.
        -- apply IHl. intros x Hx. apply Hall, list_elem_of_further, Hx.
        -- eexists. reflexivity.
Qed.

(** An answer [true] of the whole search. *)
Lemma CheckCyclicDependencies_true (fuel : nat) (g : DependencyGraph)
    (cell : Position) :
  CheckCyclicDependencies fuel g cell = Good true ->
  ~ tc (edge g) cell cell.
Proof.
  unfold CheckCyclicDependencies. intros H.
  destruct (Contains g cell); [|discriminate]. simpl in H.
  destruct (check_node fuel g cell cell ∅) as [[b V]|f] eqn:E;
    [|discriminate].
  injection H as ->.
  destruct (check_node_answer g cell fuel true V E) as [Hiff _].
  intros Ht. apply Hiff in Ht. discriminate.
Qed.

(** On a graph where no edge dangles the search leaves defined behaviour
    in one way only: the recursion does not end. *)
Lemma check_node_Bad (g : DependencyGraph) (start : Position) :
  closed g ->
  forall (fuel : nat) (current : Position) (V : gset Position) (f : Fault),
  is_Some (g !! current) ->
  check_node fuel g start current V = Bad f -> f = FuelExhausted.
Proof.
  intros Hcl. induction fuel as [|fuel IH]; intros current V f [n Hn] H.
  - injection H as <-. reflexivity.
  - simpl in H. rewrite Hn in H.
    assert (Hall : forall x, x ∈ elements (forward_ n) -> is_Some (g !! x)).
    { intros x Hx. apply elem_of_elements in Hx. apply (Hcl current x).
      unfold forward. rewrite Hn. exact Hx. }
    revert V H. induction (elements (forward_ n)) as [|next rest IHl];
      intros V H; [discriminate|].
    assert (Hrest : forall x, x ∈ rest -> is_Some (g !! x))
      by (intros x Hx; apply Hall, list_elem_of_further, Hx).
    destruct (decide (next ∈ V)) as [Hin|Hnin]; [apply (IHl Hrest V H)|].
    destruct (decide (next = start)) as [->|Hns]; [discriminate|].
    destruct (check_node fuel g start next V) as [[[|] V1]|f1] eqn:Hrec.
    + apply (IHl Hrest _ H).
    + discriminate.
    + injection H as <-.
      apply (IH next V f1 (Hall next (list_elem_of_here _ _)) Hrec).
Qed.

End GraphSearch.

(** X1: a dependency added between two nodes of a graph that did not have
    it is there in both directions, and RemoveDependency of the same pair
    gives back the graph as it was, node for node. *)
Theorem AddDependency_RemoveDependency_round_trip (g : DependencyGraph)
    (a b : Position) :
  consistent g -> is_Some (g !! a) -> is_Some (g !! b) -> b ∉ forward g a ->
  exists g1, AddDependency g a b = Good g1 /\
             b ∈ forward g1 a /\ a ∈ backward g1 b /\
             RemoveDependency g1 a b = Good g.
Proof.
  intros Hc Ha Hb Hnot.
  assert (Hnb : a ∉ backward g b) by (intros H; apply Hnot, Hc, H).
  pose proof (proj2 (GraphFacts.Contains_true g a) Ha) as Ca.
  pose proof (proj2 (GraphFacts.Contains_true g b) Hb) as Cb.
  set (g1 := alter (insert_backward a) b (alter (insert_forward b) a g)).
  assert (E : AddDependency g a b = Good g1)
    by (unfold AddDependency; rewrite Ca, Cb; reflexivity).
  exists g1. split; [exact E|].
  destruct (GraphFacts.AddDependency_Good g g1 a b E) as (_ & _ & F & B & _).
  split; [rewrite F, decide_True by reflexivity; set_solver|].
  split; [rewrite B, decide_True by reflexivity; set_solver|].
  unfold RemoveDependency.
  rewrite (proj2 (GraphFacts.Contains_true g1 a))
    by (unfold g1; rewrite !GraphFacts.is_Some_alter; exact Ha).
  rewrite (proj2 (GraphFacts.Contains_true g1 b))
    by (unfold g1; rewrite !GraphFacts.is_Some_alter; exact Hb).
  simpl. f_equal. apply map_eq. intros k. unfold g1.
  unfold forward in Hnot. unfold backward in Hnb.
  rewrite !lookup_alter.
  destruct Ha as [na Hna]. destruct Hb as [nb Hnb']. rewrite Hna in Hnot.
  rewrite Hnb' in Hnb.
  repeat case_decide; subst; rewrite ?Hna, ?Hnb'; simpl; try reflexivity;
    try congruence.
  all: try (rewrite Hna in Hnb'; injection Hnb' as <-).
  all: f_equal; try destruct na as [c fw bw]; try destruct nb as [c' fw' bw'];
    unfold erase_backward, erase_forward, insert_backward, insert_forward;
    simpl in *; f_equal; set_solver.
Qed.

Lemma AddDependency_RemoveDependency_round_trip_witness :
  consistent GraphScenarios.two_nodes /\
  is_Some (GraphScenarios.two_nodes !! SampleFormula.A1) /\
  is_Some (GraphScenarios.two_nodes !! SampleFormula.B1) /\
  (SampleFormula.B1 ∉ forward GraphScenarios.two_nodes SampleFormula.A1) /\
  exists g1,
    AddDependency GraphScenarios.two_nodes SampleFormula.A1 SampleFormula.B1
      = Good g1 /\
    SampleFormula.B1 ∈ forward g1 SampleFormula.A1 /\
    SampleFormula.A1 ∈ backward g1 SampleFormula.B1 /\
    RemoveDependency g1 SampleFormula.A1 SampleFormula.B1
      = Good GraphScenarios.two_nodes.
Proof.
  assert (H1 : consistent GraphScenarios.two_nodes).
  { apply (GraphFacts.consistent_run GraphScenarios.two_nodes_ops empty_graph);
      [exact GraphFacts.consistent_empty|by_evaluation]. }
  assert (H2 : is_Some (GraphScenarios.two_nodes !! SampleFormula.A1)).
  { apply GraphFacts.Contains_true. by_evaluation. }
  assert (H3 : is_Some (GraphScenarios.two_nodes !! SampleFormula.B1)).
  { apply GraphFacts.Contains_true. by_evaluation. }
  assert (H4 : SampleFormula.B1
                 ∉ forward GraphScenarios.two_nodes SampleFormula.A1).
  { assert (E : forward GraphScenarios.two_nodes SampleFormula.A1 = ∅)
      by by_evaluation.
    rewrite E. apply not_elem_of_empty. }
  split; [exact H1|]. split; [exact H2|]. split; [exact H3|].
  split; [exact H4|].
  exact (AddDependency_RemoveDependency_round_trip _ _ _ H1 H2 H3 H4).
Defined.

(** X2: RemoveCell on a graph whose two edge sets mirror each other
    leaves no trace of the cell: its node is gone, no forward or backward
    set names it any more, and the edges between the other nodes are the
    ones the graph had. *)
Theorem RemoveCell_leaves_no_trace (g : DependencyGraph) (c : Position) :
  consistent g ->
  Contains (RemoveCell g c) c = false /\
  (forall p, (c ∉ forward (RemoveCell g c) p) /\
             (c ∉ backward (RemoveCell g c) p)) /\
  (forall p, p <> c ->
     Contains (RemoveCell g c) p = Contains g p /\
     forall q, q <> c -> (q ∈ forward (RemoveCell g c) p <-> q ∈ forward g p)).
Proof.
  intros Hc. destruct (GraphFacts.RemoveCell_spec g c Hc) as (F & B & D).
  assert (Hdom : forall p, is_Some (RemoveCell g c !! p) <->
                           is_Some (g !! p) /\ p <> c).
  { intros p. rewrite <- !elem_of_dom, D. set_solver. }
  split; [|split].
  - apply GraphFacts.Contains_false, eq_None_not_Some.
    intros H. apply Hdom in H as [_ H]. apply H. reflexivity.
  - intros p. rewrite F, B. destruct (decide (p = c)); set_solver.
  - intros p Hp. split.
    + unfold Contains. apply bool_decide_ext. rewrite Hdom. tauto.
    + intros q Hq. rewrite F. rewrite decide_False by exact Hp. set_solver.
Qed.

Lemma RemoveCell_leaves_no_trace_witness :
  consistent GraphScenarios.triangle /\
  Contains (RemoveCell GraphScenarios.triangle SampleFormula.B1)
    SampleFormula.B1 = false /\
  (forall p,
     (SampleFormula.B1
        ∉ forward (RemoveCell GraphScenarios.triangle SampleFormula.B1) p) /\
     (SampleFormula.B1
        ∉ backward (RemoveCell GraphScenarios.triangle SampleFormula.B1) p)) /\
  (forall p, p <> SampleFormula.B1 ->
     Contains (RemoveCell GraphScenarios.triangle SampleFormula.B1) p
       = Contains GraphScenarios.triangle p /\
     forall q, q <> SampleFormula.B1 ->
       (q ∈ forward (RemoveCell GraphScenarios.triangle SampleFormula.B1) p
        <-> q ∈ forward GraphScenarios.triangle p)).
Proof.
  assert (H1 : consistent GraphScenarios.triangle).
  { apply (GraphFacts.consistent_run GraphScenarios.triangle_ops empty_graph);
      [exact GraphFacts.consistent_empty|by_evaluation]. }
  split; [exact H1|].
  exact (RemoveCell_leaves_no_trace _ SampleFormula.B1 H1).
Defined.

(** X3: after every sequence of AddCell, AddDependency, RemoveDependency
    and RemoveCell run from the empty graph, both ends of every edge, read
    from a forward set or from a backward set, are nodes of the map: no
    stored node pointer dangles. *)
Theorem graph_run_no_dangling_edge (ops : list Op) (g : DependencyGraph) :
  run ops empty_graph = Good g ->
  forall p q : Position, q ∈ forward g p \/ q ∈ backward g p ->
  Contains g p = true /\ Contains g q = true.
Proof.
  intros H.
  pose proof (GraphFacts.closed_run ops g H) as Hcl.
  pose proof (GraphFacts.consistent_run ops empty_graph g
                GraphFacts.consistent_empty H) as Hc.
  assert (Hf : forall p q, q ∈ forward g p ->
                 Contains g p = true /\ Contains g q = true).
  { intros p q Hq. split; apply GraphFacts.Contains_true.
    - unfold forward in Hq. destruct (g !! p); [eauto|].
      apply elem_of_empty in Hq. destruct Hq.
    - apply (Hcl p q Hq). }
  intros p q [Hq|Hq]; [apply (Hf p q Hq)|].
  apply Hc in Hq. destruct (Hf q p Hq). tauto.
Qed.

Lemma graph_run_no_dangling_edge_witness :
  run GraphScenarios.triangle_ops empty_graph = Good GraphScenarios.triangle /\
  forall p q : Position,
    q ∈ forward GraphScenarios.triangle p \/
    q ∈ backward GraphScenarios.triangle p ->
    Contains GraphScenarios.triangle p = true /\
    Contains GraphScenarios.triangle q = true.
Proof.
  assert (H : run GraphScenarios.triangle_ops empty_graph
              = Good GraphScenarios.triangle) by by_evaluation.
  split; [exact H|]. exact (graph_run_no_dangling_edge _ _ H).
Defined.

(** X4: when CheckCyclicDependencies returns, its answer is exact: it is
    [false] exactly when the graph has a cycle through the cell, and an
    answer [true] moreover means that no position the cell reaches lies
    on any cycle. *)
Theorem CheckCyclicDependencies_exact (fuel : nat) (g : DependencyGraph)
    (cell : Position) (b : bool) :
  CheckCyclicDependencies fuel g cell = Good b ->
  is_Some (g !! cell) /\
  (b = false <-> tc (edge g) cell cell) /\
  (b = true -> forall v, rtc (edge g) cell v -> ~ tc (edge g) v v).
Proof.
  unfold CheckCyclicDependencies. intros H.
  destruct (Contains g cell) eqn:Hc; [|discriminate]. simpl in H.
  split; [apply GraphFacts.Contains_true, Hc|].
  destruct (check_node fuel g cell cell ∅) as [[b' V]|f] eqn:E;
    [|discriminate].
  injection H as <-. apply (check_node_answer g cell fuel b' V E).
Qed.

Lemma CheckCyclicDependencies_exact_witness :
  CheckCyclicDependencies 3 GraphScenarios.triangle SampleFormula.A1
    = Good false /\
  is_Some (GraphScenarios.triangle !! SampleFormula.A1) /\
  (false = false <->
   tc (edge GraphScenarios.triangle) SampleFormula.A1 SampleFormula.A1) /\
  (false = true -> forall v,
     rtc (edge GraphScenarios.triangle) SampleFormula.A1 v ->
     ~ tc (edge GraphScenarios.triangle) v v).
Proof.
  assert (H : CheckCyclicDependencies 3 GraphScenarios.triangle
                SampleFormula.A1 = Good false) by by_evaluation.
  split; [exact H|].
  exact (CheckCyclicDependencies_exact _ _ _ _ H).
Defined.

(** X5: on a graph where no edge dangles and every cycle passes through
    the cell, CheckCyclicDependencies returns once the recursion may go
    as deep as the graph has nodes. *)
Theorem CheckCyclicDependencies_returns (fuel : nat) (g : DependencyGraph)
    (cell : Position) :
  closed g -> is_Some (g !! cell) ->
  (forall v, ~ tc (edge_off g cell) v v) ->
  (size (dom g) <= fuel)%nat ->
  exists b, CheckCyclicDependencies fuel g cell = Good b.
Proof.
  intros Hcl Hc Hac Hsz. unfold CheckCyclicDependencies.
  rewrite (proj2 (GraphFacts.Contains_true g cell) Hc). simpl.
  destruct (check_node_returns g cell Hcl Hc Hac fuel cell ∅ ∅) as [[b V] E].
  - exact Hc.
  - apply empty_subseteq.
  - apply not_elem_of_empty.
  - intros u Hu. apply elem_of_empty in Hu. destruct Hu.
  - rewrite decide_True by reflexivity. rewrite size_empty. lia.
  - rewrite E. exists b. reflexivity.
Qed.

(** The edges of the triangle. *)
Lemma triangle_edges (p q : Position) :
  q ∈ forward GraphScenarios.triangle p ->
  (p = SampleFormula.A1 /\ q = SampleFormula.B1) \/
  (p = SampleFormula.B1 /\ q = SampleFormula.C1) \/
  (p = SampleFormula.C1 /\ q = SampleFormula.A1).
Proof.
  intros H.
  assert (Hp : p ∈ dom GraphScenarios.triangle).
  { apply elem_of_dom. unfold forward in H.
    destruct (GraphScenarios.triangle !! p); [eauto|].
    apply elem_of_empty in H. destruct H. }
  assert (Hd : dom GraphScenarios.triangle =
               {[SampleFormula.A1; SampleFormula.B1; SampleFormula.C1]})
    by by_evaluation.
  rewrite Hd in Hp.
  assert (F1 : forward GraphScenarios.triangle SampleFormula.A1
               = {[SampleFormula.B1]}) by by_evaluation.
  assert (F2 : forward GraphScenarios.triangle SampleFormula.B1
               = {[SampleFormula.C1]}) by by_evaluation.
  assert (F3 : forward GraphScenarios.triangle SampleFormula.C1
               = {[SampleFormula.A1]}) by by_evaluation.
  apply elem_of_union in Hp as [Hp|Hp];
    [apply elem_of_union in Hp as [Hp|Hp]|];
    apply elem_of_singleton in Hp; subst p.
  - rewrite F1 in H. apply elem_of_singleton in H. tauto.
  - rewrite F2 in H. apply elem_of_singleton in H. tauto.
  - rewrite F3 in H. apply elem_of_singleton in H. tauto.
Defined.

Lemma triangle_off_start (v w : Position) :
  tc (edge_off GraphScenarios.triangle SampleFormula.A1) v w ->
  v = SampleFormula.B1 /\ w = SampleFormula.C1.
Proof.
  assert (Hstep : forall x y,
            edge_off GraphScenarios.triangle SampleFormula.A1 x y ->
            x = SampleFormula.B1 /\ y = SampleFormula.C1).
  { intros x y (He & Hx & Hy).
    destruct (triangle_edges x y He) as [[E1 E2]|[[E1 E2]|[E1 E2]]];
      [destruct (Hx E1)|tauto|destruct (Hy E2)]. }
  induction 1 as [x y H|x y z H _ IH].
  - apply (Hstep x y H).
  - destruct (Hstep x y H) as [_ Ey]. destruct IH as [Ey' _].
    rewrite Ey in Ey'. discriminate.
Defined.

Lemma CheckCyclicDependencies_returns_witness :
  closed GraphScenarios.triangle /\
  is_Some (GraphScenarios.triangle !! SampleFormula.A1) /\
  (forall v, ~ tc (edge_off GraphScenarios.triangle SampleFormula.A1) v v) /\
  (size (dom GraphScenarios.triangle) <= 3)%nat /\
  exists b,
    CheckCyclicDependencies 3 GraphScenarios.triangle SampleFormula.A1 = Good b.
Proof.
  assert (H1 : closed GraphScenarios.triangle).
  { apply (GraphFacts.closed_run GraphScenarios.triangle_ops). by_evaluation. }
  assert (H2 : is_Some (GraphScenarios.triangle !! SampleFormula.A1)).
  { apply GraphFacts.Contains_true. by_evaluation. }
  assert (H3 : forall v,
            ~ tc (edge_off GraphScenarios.triangle SampleFormula.A1) v v).
  { intros v Ht. destruct (triangle_off_start v v Ht) as [E1 E2].
    rewrite E1 in E2. discriminate. }
  assert (H4 : (size (dom GraphScenarios.triangle) <= 3)%nat).
  { apply Nat.leb_le. by_evaluation. }
  split; [exact H1|]. split; [exact H2|]. split; [exact H3|].
  split; [exact H4|].
  exact (CheckCyclicDependencies_returns 3 _ _ H1 H2 H3 H4).
Defined.

(** X6: where the cell reaches a cycle and lies on none, in a graph
    where no edge dangles, CheckCyclicDependencies has no answer to give,
    however deep the recursion may go: the lambda calls itself without
    end. *)
Theorem CheckCyclicDependencies_unbounded (g : DependencyGraph)
    (cell v : Position) :
  closed g -> is_Some (g !! cell) ->
  ~ tc (edge g) cell cell ->
  rtc (edge g) cell v -> tc (edge g) v v ->
  forall fuel, CheckCyclicDependencies fuel g cell = Bad FuelExhausted.
Proof.
  intros Hcl Hc Hno Hr Hv fuel. unfold CheckCyclicDependencies.
  rewrite (proj2 (GraphFacts.Contains_true g cell) Hc). simpl.
  destruct (check_node fuel g cell cell ∅) as [[b V]|f] eqn:E.
  - exfalso.
    destruct (check_node_answer g cell fuel b V E) as (A & B).
    destruct b.
    + apply (B eq_refl v Hr Hv).
    + apply Hno, A. reflexivity.
  - rewrite (check_node_Bad g cell Hcl fuel cell ∅ f Hc E). reflexivity.
Qed.

Lemma CheckCyclicDependencies_unbounded_witness :
  closed GraphScenarios.tail_loop /\
  is_Some (GraphScenarios.tail_loop !! SampleFormula.A1) /\
  ~ tc (edge GraphScenarios.tail_loop) SampleFormula.A1 SampleFormula.A1 /\
  rtc (edge GraphScenarios.tail_loop) SampleFormula.A1 SampleFormula.B1 /\
  tc (edge GraphScenarios.tail_loop) SampleFormula.B1 SampleFormula.B1 /\
  forall fuel,
    CheckCyclicDependencies fuel GraphScenarios.tail_loop SampleFormula.A1
      = Bad FuelExhausted.
Proof.
  assert (Hrun : run GraphScenarios.tail_loop_ops empty_graph
                 = Good GraphScenarios.tail_loop) by by_evaluation.
  assert (H1 : closed GraphScenarios.tail_loop)
    by apply (GraphFacts.closed_run _ _ Hrun).
  assert (H2 : is_Some (GraphScenarios.tail_loop !! SampleFormula.A1)).
  { apply GraphFacts.Contains_true. by_evaluation. }
  assert (E1 : SampleFormula.B1
                 ∈ forward GraphScenarios.tail_loop SampleFormula.A1).
  { apply (bool_decide_eq_true_1 (_ ∈ _)). by_evaluation. }
  assert (E2 : SampleFormula.C1
                 ∈ forward GraphScenarios.tail_loop SampleFormula.B1).
  { apply (bool_decide_eq_true_1 (_ ∈ _)). by_evaluation. }
  assert (E3 : SampleFormula.B1
                 ∈ forward GraphScenarios.tail_loop SampleFormula.C1).
  { apply (bool_decide_eq_true_1 (_ ∈ _)). by_evaluation. }
  assert (H3 : ~ tc (edge GraphScenarios.tail_loop)
                    SampleFormula.A1 SampleFormula.A1).
  { assert (Hb : backward GraphScenarios.tail_loop SampleFormula.A1 = ∅)
      by by_evaluation.
    assert (Hin : forall p q, tc (edge GraphScenarios.tail_loop) p q ->
                    exists y, y ∈ backward GraphScenarios.tail_loop q).
    { induction 1 as [p q H|p y q H _ IH]; [|exact IH].
      exists p.
      apply (GraphFacts.consistent_run _ _ _ GraphFacts.consistent_empty Hrun).
      exact H. }
    intros Ht. destruct (Hin _ _ Ht) as [y Hy]. rewrite Hb in Hy.
    apply elem_of_empty in Hy. exact Hy. }
  assert (H4 : rtc (edge GraphScenarios.tail_loop)
                   SampleFormula.A1 SampleFormula.B1)
    by (apply rtc_once; exact E1).
  assert (H5 : tc (edge GraphScenarios.tail_loop)
                  SampleFormula.B1 SampleFormula.B1)
    by (eapply tc_l; [exact E2|apply tc_once; exact E3]).
  split; [exact H1|]. split; [exact H2|]. split; [exact H3|].
  split; [exact H4|]. split; [exact H5|].
  exact (CheckCyclicDependencies_unbounded _ _ _ H1 H2 H3 H4 H5).
Defined.
(* ===================================================================== *)
(** ** The public operations: errors, round trips, frames                 *)
(* ===================================================================== *)

(** X7: a position that is not valid is refused by every operation that
    takes one: InvalidPositionException is thrown before anything is read
    or written, and the sheet is as it was. *)
Theorem invalid_position_is_refused (api : FormulaAPI) (fuel : nat)
    (pos : Position) (text : string) (s : Sheet) :
  IsValid pos = false ->
  SetCell fuel pos text s = Raised InvalidPositionException s /\
  ClearCell pos s = Raised InvalidPositionException s /\
  GetCell pos s = Raised InvalidPositionException s /\
  GetText pos s = Raised InvalidPositionException s /\
  GetValue fuel pos s = Raised InvalidPositionException s.
Proof.
  intros H.
  unfold SetCell, ClearCell, GetText, GetValue, GetCell, mbind, M_bind,
    ValidatePosition.
  rewrite H. repeat split; reflexivity.
Qed.

Lemma invalid_position_is_refused_witness :
  IsValid MoreScenarios.outside = false /\
  SetCell 1 MoreScenarios.outside "x" Sheet_new
    = Raised InvalidPositionException Sheet_new /\
  ClearCell MoreScenarios.outside Sheet_new
    = Raised InvalidPositionException Sheet_new /\
  GetCell MoreScenarios.outside Sheet_new
    = Raised InvalidPositionException Sheet_new /\
  GetText MoreScenarios.outside Sheet_new
    = Raised InvalidPositionException Sheet_new /\
  GetValue 1 MoreScenarios.outside Sheet_new
    = Raised InvalidPositionException Sheet_new.
Proof.
  split; [reflexivity|].
  exact (invalid_position_is_refused SampleFormula.api 1 MoreScenarios.outside
           "x" Sheet_new eq_refl).
Defined.

(** X8: a text that begins with the formula sign and has more than one
    character is parsed before the sheet is touched: when the parser
    refuses the expression, SetCell throws FormulaException and the sheet,
    its graph included, is as it was. *)
Theorem unparsable_formula_leaves_sheet (api : FormulaAPI) (fuel : nat)
    (pos : Position) (text : string) (s : Sheet) :
  IsValid pos = true ->
  starts_with FORMULA_SIGN text = true ->
  (1 < String.length text)%nat ->
  ParseFormulaAST (substr1 text) = None ->
  SetCell fuel pos text s = Raised FormulaException s.
Proof.
  intros Hv Hs Hl Hp.
  unfold SetCell, mbind, M_bind, ValidatePosition. rewrite Hv. simpl.
  destruct text as [|c0 rest]; [discriminate|].
  unfold Cell_Set. simpl in Hs.
  destruct (ascii_dec c0 FORMULA_SIGN) as [_|_]; [|discriminate].
  replace (1 <? Z.of_nat (String.length (String c0 rest))) with true
    by (symmetry; apply Z.ltb_lt; lia).
  simpl. simpl in Hp. rewrite Hp. reflexivity.
Qed.

Lemma unparsable_formula_leaves_sheet_witness :
  IsValid SampleFormula.A1 = true /\
  starts_with FORMULA_SIGN "=1+" = true /\
  (1 < String.length "=1+")%nat /\
  ParseFormulaAST (substr1 "=1+") = None /\
  SetCell 1 SampleFormula.A1 "=1+" Scenarios.one_cell
    = Raised FormulaException Scenarios.one_cell.
Proof.
  split; [reflexivity|]. split; [reflexivity|].
  split; [simpl; lia|]. split; [reflexivity|].
  apply (unparsable_formula_leaves_sheet SampleFormula.api 1 SampleFormula.A1
           "=1+" Scenarios.one_cell); [reflexivity|reflexivity|simpl; lia|
           reflexivity].
Defined.

Section SelfReference.
Context {api : FormulaAPI}.

(** The first loop of [SetCell] on a list that names the position
    itself: it throws, and on the way it has only filled absent slots that
    the list names before the position. *)
Lemma materialize_self (pos : Position) (l : list Position) :
  forall (acc : list Position) (s : Sheet),
  pos ∈ l -> Forall (fun r => IsValid r = true) l ->
  exists s', materialize pos l acc s = Raised CircularDependencyException s' /\
    graph_ s' = graph_ s /\
    forall q, nonneg q ->
      q = pos \/ q ∉ l \/ cell_at (cells_ s) q <> None ->
      cell_at (cells_ s') q = cell_at (cells_ s) q.
Proof.
  induction l as [|next rest IH]; intros acc s Hin Hall.
  - apply not_elem_of_nil in Hin. destruct Hin.
  - simpl. destruct (decide (next = pos)) as [->|Hne].
    + exists s. split; [reflexivity|]. split; reflexivity.
    + apply elem_of_cons in Hin as [Hin|Hin]; [destruct (Hne (eq_sym Hin))|].
      apply Forall_cons in Hall as [Hv Hall].
      pose proof (IsValid_nonneg next Hv) as Hn.
      unfold mbind, M_bind. rewrite GetCell_valid by exact Hv.
      destruct (cell_at (cells_ s) next) as [c|] eqn:Hc.
      * destruct (IH acc s Hin Hall) as (s' & E & Hg & Hk).
        exists s'. split; [exact E|]. split; [exact Hg|].
        intros q Hq [->|[Hq'|Hq']]; apply Hk; auto.
        right. left. intros Hr. apply Hq', list_elem_of_further, Hr.
      * destruct (PlaceCell_Done next Cell_new s Hn)
          as (s1 & E1 & Hg1 & _ & Hc1 & _).
        unfold mbind, M_bind. rewrite E1.
        destruct (IH (acc ++ [next]) s1 Hin Hall) as (s' & E & Hg & Hk).
        exists s'. split; [exact E|]. split; [congruence|].
        intros q Hq Hcase.
        assert (Hqn : q <> next).
        { destruct Hcase as [->|[Hq'|Hq']].
          - intros Heq. apply Hne. symmetry. exact Heq.
          - intros ->. apply Hq', list_elem_of_here.
          - intros ->. apply Hq', Hc. }
        rewrite <- (decide_False (A := option Cell) (P := q = next)
                      (Some Cell_new) (cell_at (cells_ s) q) Hqn).
        rewrite <- (Hc1 q Hq). apply Hk; [exact Hq|].
        destruct Hcase as [->|[Hq'|Hq']]; [tauto| |].
        -- right. left. intros Hr. apply Hq', list_elem_of_further, Hr.
        -- right. right. rewrite (Hc1 q Hq), decide_False by exact Hqn.
           exact Hq'.
Qed.

End SelfReference.

(** X9: a formula that names the position it is set at is always
    refused: SetCell throws CircularDependencyException whatever the
    sheet holds; the graph is as it was, and so is every slot that held a
    cell, the slot at the position, and every slot the formula does not
    name. *)
Theorem self_reference_is_refused (api : FormulaAPI) (fuel : nat)
    (pos : Position) (text : string) (new_cell : Cell) (s : Sheet) :
  IsValid pos = true ->
  Cell_Set Cell_new text = Some new_cell ->
  pos ∈ Cell_GetReferencedCells new_cell ->
  Forall (fun r => IsValid r = true) (Cell_GetReferencedCells new_cell) ->
  exists s',
    SetCell fuel pos text s = Raised CircularDependencyException s' /\
    graph_ s' = graph_ s /\
    forall q, nonneg q ->
      q = pos \/ q ∉ Cell_GetReferencedCells new_cell \/
      cell_at (cells_ s) q <> None ->
      cell_at (cells_ s') q = cell_at (cells_ s) q.
Proof.
  intros Hv Hset Hin Hall.
  destruct (materialize_self pos _ [] s Hin Hall) as (s' & E & Hg & Hk).
  exists s'. split; [|split; [exact Hg|exact Hk]].
  unfold SetCell, mbind, M_bind, ValidatePosition. rewrite Hv. simpl.
  rewrite Hset. simpl. rewrite E. reflexivity.
Qed.

Lemma self_reference_is_refused_witness :
  IsValid SampleFormula.B1 = true /\
  Cell_Set Cell_new "=A1+B1+C1" =
    Some (mkCell (FormulaImpl
            (SampleFormula.EAdd
               (SampleFormula.EAdd (SampleFormula.ECell SampleFormula.A1)
                                   (SampleFormula.ECell SampleFormula.B1))
               (SampleFormula.ECell SampleFormula.C1))) None) /\
  exists s',
    SetCell 4 SampleFormula.B1 "=A1+B1+C1" Scenarios.one_cell
      = Raised CircularDependencyException s' /\
    graph_ s' = graph_ Scenarios.one_cell /\
    forall q, nonneg q ->
      q = SampleFormula.B1 \/
      q ∉ [SampleFormula.A1; SampleFormula.B1; SampleFormula.C1] \/
      cell_at (cells_ Scenarios.one_cell) q <> None ->
      cell_at (cells_ s') q = cell_at (cells_ Scenarios.one_cell) q.
Proof.
  split; [reflexivity|]. split; [reflexivity|].
  apply (self_reference_is_refused SampleFormula.api 4 SampleFormula.B1
           "=A1+B1+C1" _ Scenarios.one_cell eq_refl eq_refl).
  - apply list_elem_of_further, list_elem_of_here.
  - repeat constructor.
Defined.

(** X10: GetValue is memoized: once it has returned a value for a
    position, the call repeated on the sheet it left returns the same
    value without evaluating anything and leaves that sheet as it is. *)
Theorem GetValue_is_memoized (api : FormulaAPI) (fuel fuel' : nat)
    (pos : Position) (v : Value) (s s' : Sheet) :
  GetValue fuel pos s = Done v s' ->
  GetValue (S fuel') pos s' = Done v s'.
Proof.
  intros H. unfold GetValue in H.
  apply bind_Done in H as (o & s0 & Hget & H).
  apply GetCell_Done in Hget as (Hv & -> & ->).
  pose proof (IsValid_nonneg pos Hv) as Hp.
  destruct (cell_at (cells_ s) pos) as [c|] eqn:Hc; [|discriminate].
  assert (Hcached : exists c', cell_at (cells_ s') pos = Some c' /\
                               cache_ c' = Some v).
  { destruct fuel as [|fuel]; [discriminate|]. simpl in H.
    apply bind_Done in H as (o & s0 & Hget & H).
    rewrite GetConcreteCell_nonneg in Hget by exact Hp.
    injection Hget as <- <-. rewrite Hc in H.
    destruct (cache_ c) as [v0|] eqn:Hcache.
    - injection H as <- <-. exists c. split; [exact Hc|exact Hcache].
    - apply bind_Done in H as (v1 & s1 & _ & H).
      apply bind_Done in H as (u & s2 & Hst & H). injection H as <- <-.
      unfold store_cache in Hst.
      apply bind_Done in Hst as (s3 & s4 & Hg & Hst). injection Hg as <- <-.
      apply bind_Done in Hst as (r & s4 & Hr & Hst).
      apply check_Done in Hr as [Hr ->].
      apply bind_Done in Hst as (sl & s4 & Hsl & Hst).
      apply check_Done in Hsl as [Hsl ->].
      destruct sl as [c1|]; [|discriminate].
      unfold set_cells, mbind, M_bind, get, put in Hst.
      injection Hst as _ Hs2. subst s2.
      apply vec_at_Good in Hr as [_ Hr]. apply vec_at_Good in Hsl as [_ Hsl].
      exists (mkCell (impl_ c1) (Some v1)). split; [|reflexivity].
      cbn [cells_].
      rewrite (cell_at_rewrite _ pos r) by
        (try assumption; apply lookup_lt_Some in Hsl; exact Hsl).
      rewrite decide_True by reflexivity. reflexivity. }
  destruct Hcached as (c' & Hc' & Hcache).
  unfold GetValue, mbind, M_bind. rewrite GetCell_valid by exact Hv.
  rewrite Hc'. simpl. unfold mbind, M_bind.
  rewrite GetConcreteCell_nonneg by exact Hp. rewrite Hc', Hcache.
  reflexivity.
Qed.

Lemma GetValue_is_memoized_witness :
  GetValue 4 SampleFormula.B1 MoreScenarios.sum_unread
    = Done (VDouble 5%float) MoreScenarios.sum_read /\
  GetValue 1 SampleFormula.B1 MoreScenarios.sum_read
    = Done (VDouble 5%float) MoreScenarios.sum_read.
Proof.
  assert (H : GetValue 4 SampleFormula.B1 MoreScenarios.sum_unread
              = Done (VDouble 5%float) MoreScenarios.sum_read)
    by by_evaluation.
  split; [exact H|].
  exact (GetValue_is_memoized SampleFormula.api 4 0 _ _ _ _ H).
Defined.

(** [GetValue], when it returns or throws, has only filled caches. *)
Lemma GetValue_cached_of {api : FormulaAPI} (fuel : nat) (pos : Position)
    (s s' : Sheet) :
  (exists v, GetValue fuel pos s = Done v s') \/
  (exists e, GetValue fuel pos s = Raised e s') ->
  cached_of s s'.
Proof.
  intros H. unfold GetValue, mbind, M_bind in H.
  destruct (IsValid pos) eqn:Hv.
  - rewrite GetCell_valid in H by exact Hv.
    destruct (cell_at (cells_ s) pos);
      [|destruct H as [[v H]|[e H]]; discriminate].
    pose proof (Cell_GetValue_triple s fuel pos s (cached_of_refl s)) as T.
    destruct H as [[v H]|[e H]]; rewrite H in T; exact T.
  - rewrite GetCell_invalid in H by exact Hv.
    destruct H as [[v H]|[e H]]; [discriminate|].
    injection H as _ <-. apply cached_of_refl.
Qed.

(** X11: GetValue writes to caches only.  Whether it returns or throws,
    the graph and the printable size are as before, no slot is filled or
    emptied, every cell keeps its variant, and GetText reads at every
    position what it read before. *)
Theorem GetValue_writes_caches_only (api : FormulaAPI) (fuel : nat)
    (pos : Position) (s s' : Sheet) :
  (exists v, GetValue fuel pos s = Done v s') \/
  (exists e, GetValue fuel pos s = Raised e s') ->
  graph_ s' = graph_ s /\
  printable_size_ s' = printable_size_ s /\
  (forall q, nonneg q ->
     impl_ <$> cell_at (cells_ s') q = impl_ <$> cell_at (cells_ s) q) /\
  (forall q txt, GetText q s = Done txt s -> GetText q s' = Done txt s').
Proof.
  intros H.
  destruct (GetValue_cached_of fuel pos s s' H) as (Hg & Hs & _ & Hcells).
  assert (Himpl : forall q, nonneg q ->
            impl_ <$> cell_at (cells_ s') q = impl_ <$> cell_at (cells_ s) q).
  { intros q Hq. destruct (Hcells q Hq) as [E|(c & v & A & B & _)].
    - rewrite E. reflexivity.
    - rewrite A, B. reflexivity. }
  split; [exact Hg|]. split; [exact Hs|]. split; [exact Himpl|].
  intros q txt Ht. unfold GetText, mbind, M_bind in Ht |- *.
  destruct (IsValid q) eqn:Hv.
  - rewrite GetCell_valid in Ht |- * by exact Hv.
    specialize (Himpl q (IsValid_nonneg q Hv)).
    destruct (cell_at (cells_ s) q) as [c|]; [|discriminate].
    destruct (cell_at (cells_ s') q) as [c'|]; [|discriminate].
    injection Himpl as Hi. injection Ht as <-.
    unfold Cell_GetText. rewrite Hi. reflexivity.
  - rewrite GetCell_invalid in Ht by exact Hv. discriminate.
Qed.

Lemma GetValue_writes_caches_only_witness :
  ((exists v, GetValue 4 SampleFormula.B1 MoreScenarios.sum_unread
              = Done v MoreScenarios.sum_read) \/
   (exists e, GetValue 4 SampleFormula.B1 MoreScenarios.sum_unread
              = Raised e MoreScenarios.sum_read)) /\
  graph_ MoreScenarios.sum_read = graph_ MoreScenarios.sum_unread /\
  printable_size_ MoreScenarios.sum_read
    = printable_size_ MoreScenarios.sum_unread /\
  (forall q, nonneg q ->
     impl_ <$> cell_at (cells_ MoreScenarios.sum_read) q
     = impl_ <$> cell_at (cells_ MoreScenarios.sum_unread) q) /\
  (forall q txt, GetText q MoreScenarios.sum_unread
                 = Done txt MoreScenarios.sum_unread ->
                 GetText q MoreScenarios.sum_read
                 = Done txt MoreScenarios.sum_read).
Proof.
  assert (H : (exists v, GetValue 4 SampleFormula.B1 MoreScenarios.sum_unread
                         = Done v MoreScenarios.sum_read) \/
              (exists e, GetValue 4 SampleFormula.B1 MoreScenarios.sum_unread
                         = Raised e MoreScenarios.sum_read)).
  { left. exists (VDouble 5%float). by_evaluation. }
  split; [exact H|].
  exact (GetValue_writes_caches_only SampleFormula.api 4 _ _ _ H).
Defined.

(** X12: ClearCell at a valid position that is not in the last row nor
    in the last column of the printable region returns: the slot is
    absent afterwards, every other slot holds the cell it held, cache
    included, and neither the printable size nor the dependency graph
    changes. *)
Theorem ClearCell_inside_region (api : FormulaAPI) (pos : Position)
    (s : Sheet) :
  IsValid pos = true ->
  row pos + 1 <> rows (printable_size_ s) ->
  col pos + 1 <> cols (printable_size_ s) ->
  exists s',
    ClearCell pos s = Done tt s' /\
    graph_ s' = graph_ s /\
    printable_size_ s' = printable_size_ s /\
    cell_at (cells_ s') pos = None /\
    forall q, nonneg q -> q <> pos ->
      cell_at (cells_ s') q = cell_at (cells_ s) q.
Proof.
  intros Hv Hr Hc. pose proof (IsValid_nonneg pos Hv) as Hp.
  pose proof Hp as [Hp1 Hp2].
  unfold ClearCell, mbind, M_bind, ValidatePosition. rewrite Hv.
  cbn [mret M_ret get].
  destruct (row pos <? Z.of_nat (length (cells_ s))) eqn:Hrow.
  2:{ exists s. split; [reflexivity|]. split; [reflexivity|].
      split; [reflexivity|]. split; [|reflexivity].
      apply Z.ltb_ge in Hrow. unfold cell_at, slot.
      rewrite (lookup_ge_None_2 (cells_ s)) by lia. reflexivity. }
  apply Z.ltb_lt in Hrow.
  destruct (lookup_lt_is_Some_2 (cells_ s) (Z.to_nat (row pos))) as [r Hrw];
    [lia|].
  rewrite (proj2 (vec_at_Good (cells_ s) (row pos) r))
    by (split; [apply Hp|exact Hrw]).
  cbn [check mret M_ret].
  destruct (col pos <? Z.of_nat (length r)) eqn:Hcol.
  2:{ exists s. split; [reflexivity|]. split; [reflexivity|].
      split; [reflexivity|]. split; [|reflexivity].
      apply Z.ltb_ge in Hcol. unfold cell_at, slot. rewrite Hrw.
      rewrite (lookup_ge_None_2 r) by lia. reflexivity. }
  apply Z.ltb_lt in Hcol.
  destruct (lookup_lt_is_Some_2 r (Z.to_nat (col pos))) as [o Ho]; [lia|].
  rewrite (proj2 (vec_at_Good r (col pos) o)) by (split; [apply Hp|exact Ho]).
  cbn [check mret M_ret]. unfold set_cells, mbind, M_bind, get, put.
  cbn [printable_size_].
  replace (row pos + 1 =? rows (printable_size_ s)) with false
    by (symmetry; apply Z.eqb_neq; exact Hr).
  replace (col pos + 1 =? cols (printable_size_ s)) with false
    by (symmetry; apply Z.eqb_neq; exact Hc).
  cbn [orb mret M_ret]. eexists. split; [reflexivity|].
  cbn [graph_ cells_ printable_size_].
  split; [reflexivity|]. split; [reflexivity|].
  assert (Hlt : (Z.to_nat (col pos) < length r)%nat) by lia.
  split.
  - rewrite (cell_at_rewrite _ pos r None pos Hp Hp Hrw Hlt).
    rewrite decide_True by reflexivity. reflexivity.
  - intros q Hq Hne.
    rewrite (cell_at_rewrite _ pos r None q Hp Hq Hrw Hlt).
    rewrite decide_False by exact Hne. reflexivity.
Qed.

Lemma ClearCell_inside_region_witness :
  IsValid SampleFormula.B2 = true /\
  row SampleFormula.B2 + 1 <> rows (printable_size_ MoreScenarios.three_texts) /\
  col SampleFormula.B2 + 1 <> cols (printable_size_ MoreScenarios.three_texts) /\
  exists s',
    ClearCell SampleFormula.B2 MoreScenarios.three_texts = Done tt s' /\
    graph_ s' = graph_ MoreScenarios.three_texts /\
    printable_size_ s' = printable_size_ MoreScenarios.three_texts /\
    cell_at (cells_ s') SampleFormula.B2 = None /\
    forall q, nonneg q -> q <> SampleFormula.B2 ->
      cell_at (cells_ s') q = cell_at (cells_ MoreScenarios.three_texts) q.
Proof.
  assert (Hsz : printable_size_ MoreScenarios.three_texts = mkSize 3 3)
    by by_evaluation.
  assert (H2 : row SampleFormula.B2 + 1
               <> rows (printable_size_ MoreScenarios.three_texts))
    by (rewrite Hsz; simpl; lia).
  assert (H3 : col SampleFormula.B2 + 1
               <> cols (printable_size_ MoreScenarios.three_texts))
    by (rewrite Hsz; simpl; lia).
  split; [reflexivity|]. split; [exact H2|]. split; [exact H3|].
  exact (ClearCell_inside_region SampleFormula.api SampleFormula.B2
           MoreScenarios.three_texts eq_refl H2 H3).
Defined.

(** X13: what a SetCell that returned did to the other slots.  A cell
    stored elsewhere is still there with its variant, and is the same cell
    or the same cell with its cache emptied; an absent slot elsewhere is
    still absent, unless the new formula names it, in which case it now
    holds an Empty cell. *)
Theorem SetCell_frame (api : FormulaAPI) (fuel : nat) (pos : Position)
    (text : string) (s s' : Sheet) :
  SetCell fuel pos text s = Done tt s' ->
  exists new_cell, Cell_Set Cell_new text = Some new_cell /\
  forall q, nonneg q -> q <> pos ->
    match cell_at (cells_ s) q with
    | Some c =>
        cell_at (cells_ s') q = Some c \/
        cell_at (cells_ s') q = Some (Cell_ResetCache c)
    | None =>
        if decide (q ∈ Cell_GetReferencedCells new_cell)
        then cell_at (cells_ s') q = Some Cell_new
        else cell_at (cells_ s') q = None
    end.
Proof.
  intros H.
  destruct (SetCell_Done_cells _ _ _ _ _ H)
    as (nc & Hv & Hset & Hall & _ & Hnew & Hold & _).
  exists nc. split; [exact Hset|]. intros q Hq Hne.
  destruct (cell_at (cells_ s) q) as [c|] eqn:Hc.
  - assert (Hpre : q ∉ Cell_GetReferencedCells nc \/
                   cell_at (cells_ s) q <> None)
      by (right; rewrite Hc; discriminate).
    destruct (Hold q Hq Hne Hpre) as [E|(c0 & A & B)].
    + left. rewrite E. exact Hc.
    + right. rewrite B. rewrite Hc in A. injection A as <-. reflexivity.
  - destruct (decide (q ∈ Cell_GetReferencedCells nc)) as [Hin|Hnin].
    + apply (Hnew q Hin Hc).
    + destruct (Hold q Hq Hne (or_introl Hnin)) as [E|(c0 & A & _)].
      * rewrite E. exact Hc.
      * rewrite Hc in A. discriminate.
Qed.

Lemma SetCell_frame_witness :
  SetCell 4 SampleFormula.A1 "=B1" Scenarios.one_cell
    = Done tt (sheet_after (SetCell 4 SampleFormula.A1 "=B1")
                 Scenarios.one_cell) /\
  exists new_cell, Cell_Set Cell_new "=B1" = Some new_cell /\
  forall q, nonneg q -> q <> SampleFormula.A1 ->
    match cell_at (cells_ Scenarios.one_cell) q with
    | Some c =>
        cell_at (cells_ (sheet_after (SetCell 4 SampleFormula.A1 "=B1")
                           Scenarios.one_cell)) q = Some c \/
        cell_at (cells_ (sheet_after (SetCell 4 SampleFormula.A1 "=B1")
                           Scenarios.one_cell)) q
          = Some (Cell_ResetCache c)
    | None =>
        if decide (q ∈ Cell_GetReferencedCells new_cell)
        then cell_at (cells_ (sheet_after (SetCell 4 SampleFormula.A1 "=B1")
                                Scenarios.one_cell)) q = Some Cell_new
        else cell_at (cells_ (sheet_after (SetCell 4 SampleFormula.A1 "=B1")
                                Scenarios.one_cell)) q = None
    end.
Proof.
  assert (H : SetCell 4 SampleFormula.A1 "=B1" Scenarios.one_cell
              = Done tt (sheet_after (SetCell 4 SampleFormula.A1 "=B1")
                           Scenarios.one_cell)) by by_evaluation.
  split; [exact H|].
  exact (SetCell_frame SampleFormula.api 4 _ _ _ _ H).
Defined.

Section Invalidation.
Context {api : FormulaAPI}.

Lemma consistent_closed (g : DependencyGraph) : consistent g -> closed g.
Proof.
  intros Hc p q Hq. apply Hc in Hq. unfold backward in Hq.
  destruct (g !! q); [eauto|]. apply elem_of_empty in Hq. destruct Hq.
Qed.

(** The callback writes to the slot it is called on and to no other. *)
Lemma reseter_outside (p : Position) (s s' : Sheet) (u : unit) :
  reseter p s = Done u s' ->
  forall q, nonneg q -> q <> p -> cell_at (cells_ s') q = cell_at (cells_ s) q.
Proof.
  intros H q Hq Hne.
  unfold reseter, GetConcreteCell, mbind, M_bind, get in H.
  destruct (concrete_cell (cells_ s) p) as [[c|]|] eqn:E; simpl in H;
    try discriminate.
  apply concrete_cell_Some in E as (Hp & Hcell & r & Hr & Hlt & Hv).
  rewrite Hv in H. simpl in H.
  unfold set_cells, mbind, M_bind, get, put in H. simpl in H.
  injection H as _ <-. cbn [cells_].
  rewrite (cell_at_rewrite _ p r) by assumption.
  rewrite decide_False by exact Hne. reflexivity.
Qed.

(** The search along the backward edges writes to the slots of the
    positions it can reach and to no other. *)
Lemma reset_node_outside (g : DependencyGraph) (fuel : nat) :
  keyed g ->
  forall (cur : Position) (V V' : gset Position) (s s' : Sheet),
  reset_node fuel g reseter cur V s = Done V' s' ->
  forall q, nonneg q -> ~ ancestor g cur q ->
  cell_at (cells_ s') q = cell_at (cells_ s) q.
Proof.
  intros Hk. induction fuel as [|fuel IH]; intros cur V V' s s' H q Hq Hna;
    [discriminate|].
  simpl in H. destruct (g !! cur) as [n|] eqn:Hn; [|discriminate].
  apply bind_Done in H as (u & s0 & Hres & H).
  rewrite (Hk cur n Hn) in Hres.
  assert (Hqc : q <> cur) by (intros ->; apply Hna, rtc_refl).
  rewrite <- (reseter_outside cur s s0 u Hres q Hq Hqc).
  assert (Hb : forall x, x ∈ elements (backward_ n) -> ~ ancestor g x q).
  { intros x Hx Ha. apply Hna. eapply rtc_l; [|exact Ha]. simpl.
    unfold backward. rewrite Hn. apply elem_of_elements, Hx. }
  clear Hres. revert V s0 H.
  induction (elements (backward_ n)) as [|next rest IHl]; intros V s0 H.
  - injection H as _ <-. reflexivity.
  - assert (Hrest : forall x, x ∈ rest -> ~ ancestor g x q)
      by (intros x Hx; apply Hb, list_elem_of_further, Hx).
    destruct (decide (next ∈ V)) as [Hin|Hnin]; [apply (IHl Hrest V s0 H)|].
    apply bind_Done in H as (V1 & s1 & Hrec & H).
    rewrite (IHl Hrest _ s1 H).
    apply (IH next V V1 s0 s1 Hrec q Hq).
    apply Hb, list_elem_of_here.
Qed.

Lemma ResetCache_outside (fuel : nat) (d : Position) (s s' : Sheet) (u : unit) :
  keyed (graph_ s) ->
  ResetCache fuel d reseter s = Done u s' ->
  forall q, nonneg q -> ~ ancestor (graph_ s) d q ->
  cell_at (cells_ s') q = cell_at (cells_ s) q.
Proof.
  intros Hk H. unfold ResetCache in H.
  apply bind_Done in H as (s0 & s1 & Hget & H). injection Hget as <- <-.
  apply bind_Done in H as (u1 & s1 & Has & H).
  unfold assert in Has. destruct (Contains (graph_ s) d); [|discriminate].
  injection Has as _ <-.
  apply bind_Done in H as (V' & s2 & Hrec & H). injection H as _ <-.
  apply (reset_node_outside (graph_ s) fuel Hk d ∅ V' s s2 Hrec).
Qed.

End Invalidation.

(** X14: after a SetCell that returned on a reachable sheet, every cell
    that depends on the position, directly or through other stored
    formulas, has an empty cache: its next GetValue computes.  The
    dependence is read in the sheet SetCell left. *)
Theorem SetCell_invalidates_dependents (api : FormulaAPI) (fuel : nat)
    (d p : Position) (text : string) (s s' : Sheet) :
  reachable s ->
  SetCell fuel d text s = Done tt s' ->
  depends_on s' p d ->
  cache_empty_at s' p.
Proof.
  intros Hr H Hdep.
  pose proof (reachable_invariant s Hr) as Hinv.
  assert (Hr' : reachable s')
    by (apply (reachable_done fuel (CallSetCell d text) s s' Hr H)).
  pose proof (reachable_covers s' Hr') as Hcov.
  destruct (reachable_invariant s' Hr') as (_ & _ & Hcons' & _).
  apply (SetCell_empties_ancestors fuel d text s s' Hinv H).
  unfold depends_on in Hdep. unfold ancestor.
  revert p Hdep. apply (rtc_ind_l (fun p => rtc _ d p)); [apply rtc_refl|].
  intros x y Hxy _ IH. eapply rtc_r; [exact IH|]. simpl.
  apply Hcons', Hcov, Hxy.
Qed.

Lemma SetCell_invalidates_dependents_witness :
  reachable MoreScenarios.sum_read /\
  SetCell 4 SampleFormula.A1 "10" MoreScenarios.sum_read
    = Done tt (sheet_after (SetCell 4 SampleFormula.A1 "10")
                 MoreScenarios.sum_read) /\
  depends_on (sheet_after (SetCell 4 SampleFormula.A1 "10")
                MoreScenarios.sum_read) SampleFormula.B1 SampleFormula.A1 /\
  cache_empty_at (sheet_after (SetCell 4 SampleFormula.A1 "10")
                    MoreScenarios.sum_read) SampleFormula.B1.
Proof.
  assert (H0 : reachable MoreScenarios.sum_unread).
  { apply (reachable_done 4 (CallSetCell SampleFormula.B1 "=A1+3")
             (sheet_after (SetCell 4 SampleFormula.A1 "2") Sheet_new)).
    - apply (reachable_done 4 (CallSetCell SampleFormula.A1 "2") Sheet_new);
        [apply reachable_new|by_evaluation].
    - by_evaluation. }
  assert (H1 : reachable MoreScenarios.sum_read).
  { apply (reachable_done 4 (CallGetValue SampleFormula.B1)
             MoreScenarios.sum_unread); [exact H0|by_evaluation]. }
  assert (H2 : SetCell 4 SampleFormula.A1 "10" MoreScenarios.sum_read
               = Done tt (sheet_after (SetCell 4 SampleFormula.A1 "10")
                            MoreScenarios.sum_read)) by by_evaluation.
  assert (H3 : depends_on (sheet_after (SetCell 4 SampleFormula.A1 "10")
                             MoreScenarios.sum_read)
                 SampleFormula.B1 SampleFormula.A1).
  { apply rtc_once. split; [split; simpl; lia|].
    exists (@mkCell SampleFormula.api
              (@FormulaImpl SampleFormula.api
                 (SampleFormula.EAdd (SampleFormula.ECell SampleFormula.A1)
                                     (SampleFormula.ENum 3))) None).
    split; [by_evaluation|]. apply list_elem_of_here. }
  split; [exact H1|]. split; [exact H2|]. split; [exact H3|].
  exact (SetCell_invalidates_dependents SampleFormula.api 4 _ _ _ _ _
           H1 H2 H3).
Defined.

(** X15: a SetCell that returned on a reachable sheet emptied caches
    only along the backward edges from the position: a cell stored in
    another slot that the position does not reach that way is the same
    cell afterwards, cache included. *)
Theorem SetCell_spares_unrelated_caches (api : FormulaAPI) (fuel : nat)
    (pos q : Position) (text : string) (c : Cell) (s s' : Sheet) :
  reachable s ->
  SetCell fuel pos text s = Done tt s' ->
  nonneg q -> q <> pos ->
  cell_at (cells_ s) q = Some c ->
  ~ ancestor (graph_ s') pos q ->
  cell_at (cells_ s') q = Some c.
Proof.
  intros Hr H Hq Hne Hc Hna.
  pose proof (reachable_invariant s Hr) as Hinv.
  apply SetCell_Done_inv in H
    as (new_cell & ne & s1 & old & s2 & s4 & s5 & Hv & Hset & Hmat & Hdet
        & Hatt & Hprobe & Hplace).
  pose proof (IsValid_nonneg pos Hv) as Hp.
  pose proof (triple_Done _ _ _ _ _ _ _
                (materialize_invariant pos _ []) Hinv Hmat) as Hinv1.
  pose proof (triple_Done _ _ _ _ _ _ _
                (detach_old_invariant pos _) Hinv1 Hdet) as Hinv2.
  pose proof (graph_AddCell_invariant pos s2 Hinv2) as Hinv3. simpl in Hinv3.
  pose proof (triple_Done _ _ _ _ _ _ _
                (attach_invariant pos _) Hinv3 Hatt) as Hinv4.
  destruct (PlaceCell_Done pos new_cell s5 Hp)
    as (s'' & Hplace' & Hg' & _ & Hcells & _).
  rewrite Hplace' in Hplace. injection Hplace as <-.
  rewrite (Hcells q Hq), decide_False by exact Hne.
  assert (Hc1 : cell_at (cells_ s1) q = Some c).
  { apply materialize_Done in Hmat as (_ & _ & _ & Hsame & _).
    rewrite Hsame; [exact Hc|exact Hq|]. right. rewrite Hc. discriminate. }
  assert (Hc4 : cell_at (cells_ s4) q = Some c).
  { apply detach_old_Done in Hdet as (Hc2 & _); [|exact Hp].
    apply attach_Done in Hatt as (Hc4 & _). simpl in Hc4. congruence. }
  destruct (Contains (graph_ s1) pos); [|subst s5; exact Hc4].
  apply probe_Done_ResetCache in Hprobe.
  assert (Hg5 : graph_ s5 = graph_ s4).
  { apply ResetCache_Done in Hprobe as (Hg5 & _). exact Hg5. }
  destruct Hinv4 as (_ & _ & _ & Hk4).
  rewrite (ResetCache_outside fuel pos s4 s5 tt Hk4 Hprobe q Hq);
    [exact Hc4|].
  rewrite <- Hg5, <- Hg'. exact Hna.
Qed.

(** A script that returned leads from a reachable sheet to a reachable
    sheet. *)
Lemma reachable_script {api : FormulaAPI} (fuel : nat) (cs : list Call) :
  forall s s', reachable s -> script fuel cs s = Done tt s' -> reachable s'.
Proof.
  induction cs as [|c cs IH]; intros s s' Hr H.
  - injection H as <-. exact Hr.
  - unfold script in H. simpl in H.
    apply bind_Done in H as (u & s1 & Hc & H). destruct u.
    apply (IH s1 s'); [|exact H].
    apply (reachable_done fuel c s s1 Hr Hc).
Qed.

Lemma SetCell_spares_unrelated_caches_witness :
  reachable MoreScenarios.two_sums /\
  SetCell 4 SampleFormula.A1 "10" MoreScenarios.two_sums
    = Done tt MoreScenarios.two_sums_rewritten /\
  nonneg SampleFormula.B2 /\ SampleFormula.B2 <> SampleFormula.A1 /\
  cell_at (cells_ MoreScenarios.two_sums) SampleFormula.B2
    = Some (mkCell (FormulaImpl
                      (SampleFormula.EAdd (SampleFormula.ECell SampleFormula.A2)
                                          (SampleFormula.ENum 1)))
                   (Some (VDouble 8%float))) /\
  ~ ancestor (graph_ MoreScenarios.two_sums_rewritten)
      SampleFormula.A1 SampleFormula.B2 /\
  cell_at (cells_ MoreScenarios.two_sums_rewritten) SampleFormula.B2
    = Some (mkCell (FormulaImpl
                      (SampleFormula.EAdd (SampleFormula.ECell SampleFormula.A2)
                                          (SampleFormula.ENum 1)))
                   (Some (VDouble 8%float))).
Proof.
  assert (H1 : reachable MoreScenarios.two_sums).
  { apply (reachable_script 4 MoreScenarios.two_sums_calls Sheet_new);
      [apply reachable_new|by_evaluation]. }
  assert (H2 : SetCell 4 SampleFormula.A1 "10" MoreScenarios.two_sums
               = Done tt MoreScenarios.two_sums_rewritten) by by_evaluation.
  assert (H3 : nonneg SampleFormula.B2) by (split; simpl; lia).
  assert (H4 : SampleFormula.B2 <> SampleFormula.A1) by discriminate.
  assert (H5 : cell_at (cells_ MoreScenarios.two_sums) SampleFormula.B2
    = Some (mkCell (FormulaImpl
                      (SampleFormula.EAdd (SampleFormula.ECell SampleFormula.A2)
                                          (SampleFormula.ENum 1)))
                   (Some (VDouble 8%float)))) by by_evaluation.
  assert (H6 : ~ ancestor (graph_ MoreScenarios.two_sums_rewritten)
                   SampleFormula.A1 SampleFormula.B2).
  { assert (B1 : backward (graph_ MoreScenarios.two_sums_rewritten)
                   SampleFormula.A1 = {[SampleFormula.B1]}) by by_evaluation.
    assert (B2 : backward (graph_ MoreScenarios.two_sums_rewritten)
                   SampleFormula.B1 = ∅) by by_evaluation.
    assert (Hall : forall q,
              ancestor (graph_ MoreScenarios.two_sums_rewritten)
                SampleFormula.A1 q ->
              q = SampleFormula.A1 \/ q = SampleFormula.B1).
    { intros q Ha. unfold ancestor in Ha. revert q Ha.
      apply (rtc_ind_r (fun q => q = SampleFormula.A1 \/ q = SampleFormula.B1));
        [left; reflexivity|].
      intros x y _ Hy [-> | ->].
      - rewrite B1 in Hy. apply elem_of_singleton in Hy. right. exact Hy.
      - rewrite B2 in Hy. apply elem_of_empty in Hy. destruct Hy. }
    intros Ha. destruct (Hall _ Ha) as [E|E]; discriminate. }
  split; [exact H1|]. split; [exact H2|]. split; [exact H3|].
  split; [exact H4|]. split; [exact H5|]. split; [exact H6|].
  exact (SetCell_spares_unrelated_caches SampleFormula.api 4 _ _ _ _ _ _
           H1 H2 H3 H4 H5 H6).
Defined.

(** A [SetCell] that returned on a sheet that meets the invariant: the
    probe answered that no cycle passes through the position, or the
    position is a node that no edge enters. *)
Lemma SetCell_Done_off_cycle {api : FormulaAPI} (fuel : nat)
    (pos : Position) (text : string) (s s' : Sheet) :
  invariant s ->
  SetCell fuel pos text s = Done tt s' ->
  ~ tc (edge (graph_ s')) pos pos.
Proof.
  intros Hinv H.
  pose proof (triple_Done _ _ _ _ _ _ _
                (SetCell_invariant fuel pos text) Hinv H) as Hinv'.
  destruct Hinv' as (_ & _ & Hcons' & _).
  destruct (SetCell_Done_graph _ _ _ _ _ H)
    as (nc & Hset' & _ & _ & _ & B & _).
  destruct (SetCell_Done_cells _ _ _ _ _ H)
    as (nc' & Hv & Hset'' & Hall & _).
  assert (nc' = nc) by congruence. subst nc'.
  pose proof (IsValid_nonneg pos Hv) as Hp.
  apply SetCell_Done_inv in H
    as (new_cell & ne & s1 & old & s2 & s4 & s5 & _ & Hset & Hmat & Hdet
        & Hatt & Hprobe & Hplace).
  destruct (PlaceCell_Done pos new_cell s5 Hp)
    as (s'' & Hplace' & Hg' & _).
  rewrite Hplace' in Hplace. injection Hplace as <-.
  assert (Hg1 : graph_ s1 = graph_ s).
  { apply materialize_Done in Hmat as (Hg1 & _). exact Hg1. }
  destruct (Contains (graph_ s1) pos) eqn:Hcon.
  - apply probe_Done in Hprobe as (Hchk & Hg5 & _).
    rewrite Hg', Hg5. apply (CheckCyclicDependencies_true fuel _ _ Hchk).
  - rewrite Hg1 in Hcon.
    assert (Hb : backward (graph_ s'') pos = ∅).
    { rewrite B. unfold old_references. rewrite Hcon.
      rewrite decide_False by apply not_elem_of_nil.
      rewrite decide_False.
      - unfold backward. apply GraphFacts.Contains_false in Hcon.
        rewrite Hcon. apply union_empty_r_L.
      - intros Hin. rewrite Forall_forall in Hall.
        destruct (Hall pos Hin) as [Hne _]. apply Hne. reflexivity. }
    intros Ht.
    assert (Hlast : forall p q, tc (edge (graph_ s'')) p q ->
                      exists y, y ∈ backward (graph_ s'') q).
    { induction 1 as [p q Hpq|p y q _ _ IH]; [|exact IH].
      exists p. apply Hcons'. exact Hpq. }
    destruct (Hlast _ _ Ht) as [y Hy]. rewrite Hb in Hy.
    apply elem_of_empty in Hy. exact Hy.
Qed.

(** X16: a SetCell that returned on a reachable sheet leaves the
    position on no cycle of the graph. *)
Theorem SetCell_leaves_position_off_cycles (api : FormulaAPI) (fuel : nat)
    (pos : Position) (text : string) (s s' : Sheet) :
  reachable s ->
  SetCell fuel pos text s = Done tt s' ->
  ~ tc (edge (graph_ s')) pos pos.
Proof.
  intros Hr H.
  apply (SetCell_Done_off_cycle fuel pos text s s'); [|exact H].
  apply reachable_invariant, Hr.
Qed.

Lemma SetCell_leaves_position_off_cycles_witness :
  reachable Scenarios.chain /\
  SetCell 4 SampleFormula.A1 "=C1" Scenarios.chain
    = Done tt (sheet_after (SetCell 4 SampleFormula.A1 "=C1") Scenarios.chain) /\
  ~ tc (edge (graph_ (sheet_after (SetCell 4 SampleFormula.A1 "=C1")
                        Scenarios.chain)))
       SampleFormula.A1 SampleFormula.A1.
Proof.
  assert (H1 : reachable Scenarios.chain).
  { apply (reachable_script 4 [CallSetCell SampleFormula.A1 "=B1";
                                CallSetCell SampleFormula.B1 "=C1"] Sheet_new);
      [apply reachable_new|by_evaluation]. }
  assert (H2 : SetCell 4 SampleFormula.A1 "=C1" Scenarios.chain
    = Done tt (sheet_after (SetCell 4 SampleFormula.A1 "=C1") Scenarios.chain))
    by by_evaluation.
  split; [exact H1|]. split; [exact H2|].
  exact (SetCell_leaves_position_off_cycles SampleFormula.api 4 _ _ _ _ H1 H2).
Defined.

Section GraphFrame.
Context {api : FormulaAPI}.

(** The rollback keeps every node. *)
Lemma probe_Raised_nodes (fuel : nat) (pos : Position)
    (ne old : list Position) (s s' : Sheet) (e : Exception) :
  Forall (fun x => IsValid x = true) ne ->
  probe fuel pos ne old s = Raised e s' ->
  dom (graph_ s) ⊆ dom (graph_ s').
Proof.
  intros Hne H. unfold probe in H.
  apply bind_Raised in H as [H|(acyclic & s0 & Hc & H)].
  { unfold graph_CheckCyclicDependencies, mbind, M_bind, get in H.
    apply check_not_Raised in H. destruct H. }
  unfold graph_CheckCyclicDependencies, mbind, M_bind, get in Hc.
  apply check_Done in Hc as [_ ->].
  destruct acyclic; simpl in H.
  { apply ResetCache_not_Raised in H. destruct H. }
  apply bind_Raised in H as [H|(u1 & s1 & Hclear & H)].
  { pose proof (ClearCell_loop_outcome ne s Hne) as T. rewrite H in T.
    destruct T. }
  pose proof (ClearCell_loop_outcome ne s Hne) as T. rewrite Hclear in T.
  destruct T as [Hg1 _].
  apply bind_Raised in H as [H|(u2 & s2 & Hatt & H)].
  { apply attach_not_Raised in H. destruct H. }
  injection H as _ <-. destruct u2.
  apply attach_Done in Hatt as (_ & _ & _ & _ & D).
  rewrite D, Hg1. apply union_subseteq_l.
Qed.

(** A [SetCell] that threw: the out-edges of the other positions and the
    nodes. *)
Lemma SetCell_Raised_graph (fuel : nat) (pos : Position) (text : string)
    (s s' : Sheet) (e : Exception) :
  SetCell fuel pos text s = Raised e s' ->
  (forall p, p <> pos -> forward (graph_ s') p = forward (graph_ s) p) /\
  dom (graph_ s) ⊆ dom (graph_ s').
Proof.
  intros H. unfold SetCell in H.
  apply bind_Raised in H as [H|(u0 & s0 & Hval & H)].
  { unfold ValidatePosition in H. destruct (IsValid pos); [discriminate|].
    injection H as _ <-. split; reflexivity. }
  apply ValidatePosition_Done in Hval as [Hv ->].
  pose proof (IsValid_nonneg pos Hv) as Hp.
  apply bind_Raised in H as [H|(new_cell & s0 & Hset & H)].
  { destruct (Cell_Set Cell_new text); [discriminate|].
    injection H as _ <-. split; reflexivity. }
  destruct (Cell_Set Cell_new text) as [nc|]; [|discriminate].
  injection Hset as Hnc Hs0. subst nc s0.
  pose proof (materialize_outcome pos (Cell_GetReferencedCells new_cell) [] s
                (Forall_nil_2 _)) as Tm.
  apply bind_Raised in H as [H|(ne & s1 & Hmat & H)].
  { rewrite H in Tm. destruct Tm as [Hg _]. rewrite Hg. split; reflexivity. }
  rewrite Hmat in Tm. destruct Tm as (Hg1 & _ & Hne).
  apply bind_Raised in H as [H|(contained & s1' & Hcon & H)].
  { discriminate. }
  unfold graph_Contains, mbind, M_bind, get in Hcon. injection Hcon as <- <-.
  apply bind_Raised in H as [H|(old & s2 & Hdet & H)].
  { apply detach_old_not_Raised in H. destruct H. }
  apply bind_Raised in H as [H|(u3 & s3 & Hadd & H)].
  { discriminate. }
  apply graph_AddCell_Done in Hadd as ->.
  apply bind_Raised in H as [H|(u4 & s4 & Hatt & H)].
  { apply attach_not_Raised in H. destruct H. }
  destruct u4.
  apply bind_Raised in H as [H|(u5 & s5 & _ & H)].
  2:{ apply PlaceCell_not_Raised in H. destruct H. }
  destruct (Contains (graph_ s1) pos) eqn:Hcont; [|discriminate].
  apply detach_old_Done in Hdet as (_ & _ & _ & _ & F2 & _ & D2);
    [|exact Hp].
  apply attach_Done in Hatt as (_ & _ & F4 & _ & D4). simpl in F4, D4.
  pose proof (probe_Raised_nodes _ _ _ _ _ _ _ Hne H) as D5.
  apply probe_Raised_covers in H as [_ F5]; [|exact Hne].
  split.
  - intros p Hpp. rewrite F5, decide_False by exact Hpp.
    rewrite F4, decide_False by exact Hpp.
    rewrite GraphFacts.forward_AddCell, F2, decide_False by exact Hpp.
    rewrite Hg1. reflexivity.
  - intros x Hx. apply D5. rewrite D4. apply elem_of_union_l.
    rewrite GraphFacts.dom_AddCell. apply elem_of_union_l.
    rewrite D2, Hg1. exact Hx.
Qed.

End GraphFrame.

(** A [SetCell] that returned: the out-edges of the other positions. *)
Lemma SetCell_Done_other_edges {api : FormulaAPI} (fuel : nat)
    (pos : Position) (text : string) (s s' : Sheet) :
  SetCell fuel pos text s = Done tt s' ->
  forall p, p <> pos -> forward (graph_ s') p = forward (graph_ s) p.
Proof.
  intros H p Hp.
  destruct (SetCell_Done_graph _ _ _ _ _ H) as (nc & _ & _ & _ & F & _ & _).
  rewrite F, decide_False by exact Hp. reflexivity.
Qed.

(** X17: whether it returns or throws, SetCell changes the out-edges of
    no position but its own, and it removes no node from the graph. *)
Theorem SetCell_touches_own_edges_only (api : FormulaAPI) (fuel : nat)
    (pos : Position) (text : string) (s s' : Sheet) :
  SetCell fuel pos text s = Done tt s' \/
  (exists e, SetCell fuel pos text s = Raised e s') ->
  (forall p, p <> pos -> forward (graph_ s') p = forward (graph_ s) p) /\
  nodes (graph_ s) ⊆ nodes (graph_ s').
Proof.
  intros [H|[e H]]; [|apply (SetCell_Raised_graph _ _ _ _ _ _ H)].
  destruct (SetCell_Done_graph _ _ _ _ _ H) as (nc & _ & _ & _ & F & _ & D).
  split.
  - intros p Hp. rewrite F, decide_False by exact Hp. reflexivity.
  - unfold nodes. rewrite D. intros x Hx.
    apply elem_of_union_l, elem_of_union_l, Hx.
Qed.

Lemma SetCell_touches_own_edges_only_witness :
  (SetCell 4 SampleFormula.C1 "=A1" Scenarios.chain
     = Done tt Scenarios.chain_closed \/
   (exists e, SetCell 4 SampleFormula.C1 "=A1" Scenarios.chain
              = Raised e Scenarios.chain_closed)) /\
  (forall p, p <> SampleFormula.C1 ->
     forward (graph_ Scenarios.chain_closed) p
     = forward (graph_ Scenarios.chain) p) /\
  nodes (graph_ Scenarios.chain) ⊆ nodes (graph_ Scenarios.chain_closed).
Proof.
  assert (H : SetCell 4 SampleFormula.C1 "=A1" Scenarios.chain
                = Done tt Scenarios.chain_closed \/
              (exists e, SetCell 4 SampleFormula.C1 "=A1" Scenarios.chain
                         = Raised e Scenarios.chain_closed)).
  { right. exists CircularDependencyException. by_evaluation. }
  split; [exact H|].
  exact (SetCell_touches_own_edges_only SampleFormula.api 4 _ _ _ _ H).
Defined.

(** X18: in every sheet reached from the new one by calls that returned
    or threw, the graph holds an edge for every reference of every stored
    formula cell, the two edge sets mirror each other, every edge ends in
    a node, and every node is stored under its own position. *)
Theorem reachable_graph_covers_references (api : FormulaAPI) (s : Sheet) :
  reachable s ->
  (forall p q c, nonneg p -> cell_at (cells_ s) p = Some c ->
     q ∈ Cell_GetReferencedCells c ->
     q ∈ forward (graph_ s) p /\ p ∈ backward (graph_ s) q /\
     Contains (graph_ s) p = true /\ Contains (graph_ s) q = true) /\
  (forall p n, graph_ s !! p = Some n -> cell_ n = p).
Proof.
  intros Hr.
  pose proof (reachable_covers s Hr) as Hcov.
  destruct (reachable_invariant s Hr) as (_ & _ & Hcons & Hk).
  split; [|exact Hk].
  intros p q c Hp Hc Hq.
  assert (Hf : q ∈ forward (graph_ s) p).
  { apply Hcov. split; [exact Hp|]. exists c. split; [exact Hc|exact Hq]. }
  pose proof (proj1 (Hcons p q) Hf) as Hb.
  split; [exact Hf|]. split; [exact Hb|].
  split; apply GraphFacts.Contains_true.
  - unfold forward in Hf. destruct (graph_ s !! p); [eauto|].
    apply elem_of_empty in Hf. destruct Hf.
  - unfold backward in Hb. destruct (graph_ s !! q); [eauto|].
    apply elem_of_empty in Hb. destruct Hb.
Qed.

Lemma reachable_graph_covers_references_witness :
  reachable Scenarios.chain /\
  (forall p q c, nonneg p -> cell_at (cells_ Scenarios.chain) p = Some c ->
     q ∈ Cell_GetReferencedCells c ->
     q ∈ forward (graph_ Scenarios.chain) p /\
     p ∈ backward (graph_ Scenarios.chain) q /\
     Contains (graph_ Scenarios.chain) p = true /\
     Contains (graph_ Scenarios.chain) q = true) /\
  (forall p n, graph_ Scenarios.chain !! p = Some n -> cell_ n = p).
Proof.
  assert (H1 : reachable Scenarios.chain).
  { apply (reachable_script 4 [CallSetCell SampleFormula.A1 "=B1";
                                CallSetCell SampleFormula.B1 "=C1"] Sheet_new);
      [apply reachable_new|by_evaluation]. }
  split; [exact H1|].
  exact (reachable_graph_covers_references SampleFormula.api _ H1).
Defined.

Section Materialize.
Context {api : FormulaAPI}.

(** The first loop of [SetCell] on positions that all hold a cell writes
    nothing. *)
Lemma materialize_all_present (pos : Position) (l : list Position) :
  forall (acc : list Position) (s : Sheet),
  (forall r, r ∈ l -> is_Some (cell_at (cells_ s) r)) ->
  match materialize pos l acc s with
  | Done ne s' => s' = s /\ ne = acc
  | Raised _ s' => s' = s
  | Stuck _ => False
  end.
Proof.
  induction l as [|next rest IH]; intros acc s Hall; simpl.
  - split; reflexivity.
  - destruct (decide (next = pos)); [reflexivity|].
    unfold mbind, M_bind. destruct (IsValid next) eqn:Hv.
    + rewrite GetCell_valid by exact Hv.
      destruct (Hall next (list_elem_of_here _ _)) as [c Hc]. rewrite Hc.
      apply IH. intros r Hr. apply Hall, list_elem_of_further, Hr.
    + rewrite GetCell_invalid by exact Hv. reflexivity.
Qed.

(** The first loop of [SetCell] on valid positions other than [pos]
    returns; it keeps the graph and every slot the list does not name. *)
Lemma materialize_returns (pos : Position) (l : list Position) :
  forall (acc : list Position) (s : Sheet),
  Forall (fun r => r <> pos /\ IsValid r = true) l ->
  exists ne s', materialize pos l acc s = Done ne s' /\
    graph_ s' = graph_ s /\
    forall q, nonneg q -> q ∉ l ->
      cell_at (cells_ s') q = cell_at (cells_ s) q.
Proof.
  induction l as [|next rest IH]; intros acc s Hall; simpl.
  - exists acc, s. split; [reflexivity|]. split; reflexivity.
  - apply Forall_cons in Hall as [[Hne Hv] Hall].
    rewrite decide_False by exact Hne.
    unfold mbind, M_bind. rewrite GetCell_valid by exact Hv.
    destruct (cell_at (cells_ s) next) as [c|] eqn:Hc.
    + destruct (IH acc s Hall) as (ne & s' & E & Hg & Hk).
      exists ne, s'. split; [exact E|]. split; [exact Hg|].
      intros q Hq Hnin. apply Hk; [exact Hq|].
      intros Hr. apply Hnin, list_elem_of_further, Hr.
    + destruct (PlaceCell_Done next Cell_new s (IsValid_nonneg next Hv))
        as (s1 & E1 & Hg1 & _ & Hc1 & _).
      unfold mbind, M_bind. rewrite E1.
      destruct (IH (acc ++ [next]) s1 Hall) as (ne & s' & E & Hg & Hk).
      exists ne, s'. split; [exact E|]. split; [congruence|].
      intros q Hq Hnin. rewrite Hk; [|exact Hq|].
      * rewrite (Hc1 q Hq), decide_False; [reflexivity|].
        intros ->. apply Hnin, list_elem_of_here.
      * intros Hr. apply Hnin, list_elem_of_further, Hr.
Qed.

End Materialize.

(** X25: a SetCell that throws, whatever the exception, leaves the grid
    as it was, caches included, and the printable size too, whenever
    every position the new text names already held a cell. *)
Theorem failed_SetCell_keeps_grid (api : FormulaAPI) (fuel : nat)
    (pos : Position) (text : string) (e : Exception) (s s' : Sheet) :
  (forall nc r, Cell_Set Cell_new text = Some nc ->
     r ∈ Cell_GetReferencedCells nc -> is_Some (cell_at (cells_ s) r)) ->
  SetCell fuel pos text s = Raised e s' ->
  cells_ s' = cells_ s /\ printable_size_ s' = printable_size_ s.
Proof.
  intros Hpresent H. unfold SetCell in H.
  apply bind_Raised in H as [H|(u0 & s0 & Hval & H)].
  { unfold ValidatePosition in H. destruct (IsValid pos); [discriminate|].
    injection H as _ <-. split; reflexivity. }
  apply ValidatePosition_Done in Hval as [Hv ->].
  pose proof (IsValid_nonneg pos Hv) as Hp.
  apply bind_Raised in H as [H|(new_cell & s0 & Hset & H)].
  { destruct (Cell_Set Cell_new text); [discriminate|].
    injection H as _ <-. split; reflexivity. }
  destruct (Cell_Set Cell_new text) as [nc|] eqn:Hcs; [|discriminate].
  injection Hset as Hnc Hs0. subst nc s0.
  pose proof (materialize_all_present pos (Cell_GetReferencedCells new_cell)
                [] s (fun r Hr => Hpresent new_cell r eq_refl Hr)) as Tm.
  apply bind_Raised in H as [H|(ne & s1 & Hmat & H)].
  { rewrite H in Tm. subst s'. split; reflexivity. }
  rewrite Hmat in Tm. destruct Tm as [-> ->].
  apply bind_Raised in H as [H|(contained & s1' & Hcon & H)].
  { discriminate. }
  unfold graph_Contains, mbind, M_bind, get in Hcon. injection Hcon as <- <-.
  apply bind_Raised in H as [H|(old & s2 & Hdet & H)].
  { apply detach_old_not_Raised in H. destruct H. }
  apply bind_Raised in H as [H|(u3 & s3 & Hadd & H)].
  { discriminate. }
  apply graph_AddCell_Done in Hadd as ->.
  apply bind_Raised in H as [H|(u4 & s4 & Hatt & H)].
  { apply attach_not_Raised in H. destruct H. }
  destruct u4.
  apply bind_Raised in H as [H|(u5 & s5 & _ & H)].
  2:{ apply PlaceCell_not_Raised in H. destruct H. }
  destruct (Contains (graph_ s) pos) eqn:Hcont; [|discriminate].
  apply detach_old_Done in Hdet as (Hc2 & Hs2 & _); [|exact Hp].
  apply attach_Done in Hatt as (Hc4 & Hs4 & _). simpl in Hc4, Hs4.
  unfold probe in H.
  apply bind_Raised in H as [H|(acyclic & s0 & Hc & H)].
  { unfold graph_CheckCyclicDependencies, mbind, M_bind, get in H.
    apply check_not_Raised in H. destruct H. }
  unfold graph_CheckCyclicDependencies, mbind, M_bind, get in Hc.
  apply check_Done in Hc as [_ ->].
  destruct acyclic; simpl in H.
  { apply ResetCache_not_Raised in H. destruct H. }
  apply bind_Raised in H as [H|(u1 & s5' & Hclear & H)]; [discriminate|].
  injection Hclear as _ <-.
  apply bind_Raised in H as [H|(u2 & s6 & Hatt2 & H)].
  { apply attach_not_Raised in H. destruct H. }
  injection H as _ <-. destruct u2.
  apply attach_Done in Hatt2 as (Hc6 & Hs6 & _).
  split; congruence.
Qed.

Lemma failed_SetCell_keeps_grid_witness :
  (forall nc r, Cell_Set Cell_new "=A1" = Some nc ->
     r ∈ Cell_GetReferencedCells nc ->
     is_Some (cell_at (cells_ Scenarios.chain) r)) /\
  SetCell 4 SampleFormula.C1 "=A1" Scenarios.chain
    = Raised CircularDependencyException Scenarios.chain_closed /\
  cells_ Scenarios.chain_closed = cells_ Scenarios.chain /\
  printable_size_ Scenarios.chain_closed = printable_size_ Scenarios.chain.
Proof.
  assert (H1 : forall nc r, Cell_Set Cell_new "=A1" = Some nc ->
     r ∈ Cell_GetReferencedCells nc ->
     is_Some (cell_at (cells_ Scenarios.chain) r)).
  { intros nc r Hnc Hr. injection Hnc as <-.
    change (r ∈ [SampleFormula.A1]) in Hr.
    apply list_elem_of_singleton in Hr. subst r.
    assert (E : cell_at (cells_ Scenarios.chain) SampleFormula.A1
                = Some (mkCell (FormulaImpl
                                  (SampleFormula.ECell SampleFormula.B1)) None))
      by by_evaluation.
    rewrite E. eauto. }
  assert (H2 : SetCell 4 SampleFormula.C1 "=A1" Scenarios.chain
    = Raised CircularDependencyException Scenarios.chain_closed)
    by by_evaluation.
  split; [exact H1|]. split; [exact H2|].
  exact (failed_SetCell_keeps_grid SampleFormula.api 4 _ _ _ _ _ H1 H2).
Defined.

(** X26: SetCell at a position that has a node in the graph and no cell
    in the grid fails the assertion on [old_cell], whatever the new text,
    as long as it parses and names valid positions other than the
    position itself.  ClearCell of a cell that a formula names leaves
    such a position behind. *)
Theorem SetCell_on_node_without_cell_fails_assert (api : FormulaAPI)
    (fuel : nat) (pos : Position) (text : string) (new_cell : Cell)
    (s : Sheet) :
  IsValid pos = true ->
  Cell_Set Cell_new text = Some new_cell ->
  Forall (fun r => r <> pos /\ IsValid r = true)
         (Cell_GetReferencedCells new_cell) ->
  Contains (graph_ s) pos = true ->
  cell_at (cells_ s) pos = None ->
  SetCell fuel pos text s = Stuck AssertionFailed.
Proof.
  intros Hv Hset Hall Hcon Hnone.
  pose proof (IsValid_nonneg pos Hv) as Hp.
  destruct (materialize_returns pos _ [] s Hall) as (ne & s1 & E & Hg & Hk).
  unfold SetCell, mbind, M_bind, ValidatePosition. rewrite Hv. simpl.
  rewrite Hset. simpl. rewrite E.
  unfold graph_Contains, mbind, M_bind, get. simpl. rewrite Hg, Hcon.
  unfold detach_old, mbind, M_bind.
  rewrite GetConcreteCell_nonneg by exact Hp.
  rewrite Hk, Hnone; [reflexivity|exact Hp|].
  intros Hin. rewrite Forall_forall in Hall.
  destruct (Hall pos Hin) as [Hne _]. apply Hne. reflexivity.
Qed.

Lemma SetCell_on_node_without_cell_fails_assert_witness :
  script 4 MoreScenarios.cleared_referent_calls Sheet_new
    = Done tt MoreScenarios.cleared_referent /\
  IsValid SampleFormula.B2 = true /\
  Cell_Set Cell_new "5" = Some (mkCell (TextImpl "5") None) /\
  Contains (graph_ MoreScenarios.cleared_referent) SampleFormula.B2 = true /\
  cell_at (cells_ MoreScenarios.cleared_referent) SampleFormula.B2 = None /\
  SetCell 4 SampleFormula.B2 "5" MoreScenarios.cleared_referent
    = Stuck AssertionFailed.
Proof.
  split; [by_evaluation|]. split; [reflexivity|]. split; [reflexivity|].
  assert (H4 : Contains (graph_ MoreScenarios.cleared_referent)
                 SampleFormula.B2 = true) by by_evaluation.
  assert (H5 : cell_at (cells_ MoreScenarios.cleared_referent)
                 SampleFormula.B2 = None) by by_evaluation.
  split; [exact H4|]. split; [exact H5|].
  exact (SetCell_on_node_without_cell_fails_assert SampleFormula.api 4
           SampleFormula.B2 "5" (mkCell (TextImpl "5") None)
           MoreScenarios.cleared_referent eq_refl eq_refl
           (Forall_nil_2 _) H4 H5).
Defined.

Section Acyclic.
Context {api : FormulaAPI}.

(** A walk in a graph that differs from another one only in the
    out-edges of [pos] is a walk of the other graph, or goes through
    [pos]. *)
Lemma tc_through (g g' : DependencyGraph) (pos : Position) :
  (forall p, p <> pos -> forward g' p = forward g p) ->
  forall a b, tc (edge g') a b ->
  tc (edge g) a b \/ (rtc (edge g') a pos /\ tc (edge g') pos b).
Proof.
  intros Hsame a b H. induction H as [a b Hab|a y b Hay Hyb IH].
  - destruct (decide (a = pos)) as [->|Hne].
    + right. split; [apply rtc_refl|apply tc_once, Hab].
    + left. apply tc_once. unfold edge in *. rewrite <- Hsame; assumption.
  - destruct (decide (a = pos)) as [->|Hne].
    + right. split; [apply rtc_refl|]. eapply tc_l; eassumption.
    + destruct IH as [IH|[IH1 IH2]].
      * left. eapply tc_l; [|exact IH]. unfold edge in *.
        rewrite <- Hsame; assumption.
      * right. split; [|exact IH2]. eapply rtc_l; eassumption.
Qed.

Lemma acyclic_after (g g' : DependencyGraph) (pos : Position) :
  (forall p, p <> pos -> forward g' p = forward g p) ->
  (forall v, ~ tc (edge g) v v) ->
  ~ tc (edge g') pos pos ->
  forall v, ~ tc (edge g') v v.
Proof.
  intros Hsame Hac Hpos v Hv.
  destruct (tc_through g g' pos Hsame v v Hv) as [H|[H1 H2]].
  - exact (Hac v H).
  - apply Hpos. eapply tc_rtc_r; eassumption.
Qed.

End Acyclic.

(** X28: after a script of calls that all returned, run on the new
    sheet, the dependency graph has no cycle. *)
Theorem graph_acyclic_after_returned_calls (api : FormulaAPI) (fuel : nat)
    (cs : list Call) (s : Sheet) :
  script fuel cs Sheet_new = Done tt s ->
  forall v, ~ tc (edge (graph_ s)) v v.
Proof.
  assert (Hgen : forall s0, invariant s0 ->
            (forall v, ~ tc (edge (graph_ s0)) v v) ->
            script fuel cs s0 = Done tt s ->
            forall v, ~ tc (edge (graph_ s)) v v).
  { induction cs as [|c cs IH]; intros s0 Hinv Hac H.
    - injection H as <-. exact Hac.
    - unfold script in H. simpl in H.
      apply bind_Done in H as (u & s1 & Hc & H). destruct u.
      pose proof (triple_Done _ _ _ _ _ _ _
                    (call_invariant fuel c) Hinv Hc) as Hinv1.
      apply (IH s1 Hinv1); [|exact H].
      destruct c as [pos text|pos|pos]; simpl in Hc.
      + apply (acyclic_after (graph_ s0) (graph_ s1) pos).
        * apply (SetCell_Done_other_edges fuel pos text s0 s1 Hc).
        * exact Hac.
        * apply (SetCell_Done_off_cycle fuel pos text s0 s1 Hinv Hc).
      + pose proof (ClearCell_outcome pos s0) as T. rewrite Hc in T.
        destruct T as [-> _]. exact Hac.
      + apply bind_Done in Hc as (v & s2 & Hv & Hc). injection Hc as <-.
        destruct (GetValue_cached_of fuel pos s0 s2) as (-> & _);
          [left; eauto|exact Hac]. }
  intros H. apply (Hgen Sheet_new); [apply invariant_new| |exact H].
  intros v Hv. apply tc_first_step in Hv as (y & Hy & _).
  unfold forward, Sheet_new, empty_graph in Hy. simpl in Hy.
  rewrite lookup_empty in Hy. apply elem_of_empty in Hy. exact Hy.
Qed.

Lemma graph_acyclic_after_returned_calls_witness :
  script 4 [CallSetCell SampleFormula.A1 "=B1";
            CallSetCell SampleFormula.B1 "=C1"] Sheet_new
    = Done tt Scenarios.chain /\
  forall v, ~ tc (edge (graph_ Scenarios.chain)) v v.
Proof.
  assert (H : script 4 [CallSetCell SampleFormula.A1 "=B1";
                        CallSetCell SampleFormula.B1 "=C1"] Sheet_new
              = Done tt Scenarios.chain) by by_evaluation.
  split; [exact H|].
  exact (graph_acyclic_after_returned_calls SampleFormula.api 4 _ _ H).
Defined.
(* ===================================================================== *)
(** ** The printable region and what PrintTexts writes                    *)
(* ===================================================================== *)

Section Printing.
Context {api : FormulaAPI}.

Lemma append_assoc (a b c : string) :
  String.append (String.append a b) c = String.append a (String.append b c).
Proof.
  induction a as [|x a IH]; [reflexivity|].
  change (String x (String.append (String.append a b) c)
          = String x (String.append a (String.append b c))).
  f_equal. exact IH.
Qed.

Lemma append_empty_r (a : string) : String.append a EmptyString = a.
Proof.
  induction a as [|x a IH]; [reflexivity|].
  change (String x (String.append a EmptyString) = String x a).
  f_equal. exact IH.
Qed.

Lemma print_row_later (r : list (option Cell)) (n c : nat) :
  print_row r (S c) n =
  fold_right (fun x acc => String.append tab (String.append x acc))
    EmptyString (map (field_of r) (seq (S c) n)).
Proof.
  revert c. induction n as [|n IH]; intros c; [reflexivity|].
  simpl. rewrite IH. reflexivity.
Qed.

Lemma concat_tab (x : string) (l : list string) :
  String.concat tab (x :: l) =
  String.append x
    (fold_right (fun y acc => String.append tab (String.append y acc))
       EmptyString l).
Proof.
  revert x. induction l as [|y l IH]; intros x.
  - simpl. symmetry. apply append_empty_r.
  - change (String.concat tab (x :: y :: l))
      with (String.append x (String.append tab (String.concat tab (y :: l)))).
    rewrite IH. reflexivity.
Qed.

Lemma print_row_fields (r : list (option Cell)) (n : nat) :
  print_row r 0 n = String.concat tab (map (field_of r) (seq 0 n)).
Proof.
  destruct n as [|n]; [reflexivity|].
  change (seq 0 (S n)) with (0%nat :: seq 1 n).
  rewrite map_cons, concat_tab. simpl. rewrite print_row_later. reflexivity.
Qed.

Lemma field_of_text_at (cells : list (list (option Cell)))
    (rw : list (option Cell)) (r j : nat) :
  cells !! r = Some rw -> field_of rw j = text_at cells r j.
Proof.
  intros H. unfold field_of, text_at, slot. rewrite H.
  destruct (rw !! j) as [[c|]|]; reflexivity.
Qed.

Lemma line_of_append (fields : list string) (rest : string) :
  String.append (line_of fields) rest =
  String.append (String.concat tab fields) (String.append newline rest).
Proof. unfold line_of. apply append_assoc. Qed.

Lemma print_rows_table (cells : list (list (option Cell))) (ncols n : nat) :
  forall r, (r + n <= length cells)%nat ->
  print_rows cells ncols r n =
  Good (fold_right String.append EmptyString
          (map (fun i => line_of (map (text_at cells i) (seq 0 ncols)))
               (seq r n))).
Proof.
  induction n as [|n IH]; intros r Hle; [reflexivity|].
  simpl. destruct (lookup_lt_is_Some_2 cells r) as [rw Hrw]; [lia|].
  rewrite (proj2 (vec_at_Good cells (Z.of_nat r) rw))
    by (split; [lia|rewrite Nat2Z.id; exact Hrw]).
  rewrite IH by lia. f_equal. cbn [seq map fold_right].
  rewrite line_of_append, print_row_fields.
  f_equal. f_equal. apply map_ext. intros j.
  apply (field_of_text_at cells rw r j Hrw).
Qed.

End Printing.

(** X19: in every sheet reached from the new one by calls that returned
    or threw, [cells_] stores exactly as many rows as the printable region
    has, every stored cell lies inside the region, and the region is
    empty or has a stored cell in its last row and one in its last
    column. *)
Theorem reachable_printable_size_is_tight (api : FormulaAPI) (s : Sheet) :
  reachable s ->
  Z.of_nat (length (cells_ s)) = rows (printable_size_ s) /\
  (forall p c, nonneg p -> cell_at (cells_ s) p = Some c ->
     row p < rows (printable_size_ s) /\ col p < cols (printable_size_ s)) /\
  (printable_size_ s = mkSize 0 0 \/
   ((exists p c, nonneg p /\ cell_at (cells_ s) p = Some c /\
                 row p + 1 = rows (printable_size_ s)) /\
    (exists p c, nonneg p /\ cell_at (cells_ s) p = Some c /\
                 col p + 1 = cols (printable_size_ s)))).
Proof.
  intros Hr. destruct (reachable_invariant s Hr) as (_ & [Ht [Hin Hb]] & _).
  split; [exact Ht|]. split.
  - intros p c Hp Hc. apply Hin. split; [exact Hp|]. rewrite Hc. eauto.
  - destruct Hb as [[E1 E2]|[(p & [Hp [c Hc]] & E1) (q & [Hq [d Hd]] & E2)]].
    + left. destruct (printable_size_ s) as [a b]. simpl in *. congruence.
    + right. split; [exists p, c|exists q, d]; tauto.
Qed.

Lemma reachable_printable_size_is_tight_witness :
  reachable Scenarios.chain /\
  Z.of_nat (length (cells_ Scenarios.chain))
    = rows (printable_size_ Scenarios.chain) /\
  (forall p c, nonneg p -> cell_at (cells_ Scenarios.chain) p = Some c ->
     row p < rows (printable_size_ Scenarios.chain) /\
     col p < cols (printable_size_ Scenarios.chain)) /\
  (printable_size_ Scenarios.chain = mkSize 0 0 \/
   ((exists p c, nonneg p /\ cell_at (cells_ Scenarios.chain) p = Some c /\
                 row p + 1 = rows (printable_size_ Scenarios.chain)) /\
    (exists p c, nonneg p /\ cell_at (cells_ Scenarios.chain) p = Some c /\
                 col p + 1 = cols (printable_size_ Scenarios.chain)))).
Proof.
  assert (H1 : reachable Scenarios.chain).
  { apply (reachable_script 4 [CallSetCell SampleFormula.A1 "=B1";
                                CallSetCell SampleFormula.B1 "=C1"] Sheet_new);
      [apply reachable_new|by_evaluation]. }
  split; [exact H1|].
  exact (reachable_printable_size_is_tight SampleFormula.api _ H1).
Defined.

(** X20: on every sheet reached from the new one by calls that returned
    or threw, PrintTexts returns, leaves the sheet as it is, and writes one
    line for each row of the printable region: the texts of the slots of
    the row, column by column, nothing for an absent slot, a tab between
    two neighbours and a newline at the end. *)
Theorem PrintTexts_writes_the_table (api : FormulaAPI) (s : Sheet) :
  reachable s ->
  PrintTexts s =
  Done (table_of (text_at (cells_ s))
          (Z.to_nat (rows (printable_size_ s)))
          (Z.to_nat (cols (printable_size_ s)))) s.
Proof.
  intros Hr. destruct (reachable_invariant s Hr) as (_ & [Ht _] & _).
  unfold storage_tight in Ht.
  unfold PrintTexts, mbind, M_bind, get.
  rewrite print_rows_table by lia. reflexivity.
Qed.

Lemma PrintTexts_writes_the_table_witness :
  reachable Scenarios.diagonal /\
  PrintTexts Scenarios.diagonal =
  Done (table_of (text_at (cells_ Scenarios.diagonal))
          (Z.to_nat (rows (printable_size_ Scenarios.diagonal)))
          (Z.to_nat (cols (printable_size_ Scenarios.diagonal))))
       Scenarios.diagonal.
Proof.
  assert (H1 : reachable Scenarios.diagonal).
  { apply (reachable_script 4 [CallSetCell SampleFormula.A1 "x";
                                CallSetCell SampleFormula.B2 "y"] Sheet_new);
      [apply reachable_new|by_evaluation]. }
  split; [exact H1|].
  exact (PrintTexts_writes_the_table SampleFormula.api _ H1).
Defined.
(* ===================================================================== *)
(** ** Cells and formulas: references, errors, the hash of a position     *)
(* ===================================================================== *)

Section References.
Context {api : FormulaAPI}.

Lemma unique_elem_of (l : list Position) (x : Position) :
  x ∈ unique l <-> x ∈ l.
Proof.
  induction l as [|a [|b rest] IH]; [reflexivity|reflexivity|].
  change (unique (a :: b :: rest))
    with (if decide (a = b) then unique (b :: rest)
          else a :: unique (b :: rest)).
  destruct (decide (a = b)) as [->|Hne].
  - rewrite IH. rewrite !elem_of_cons. tauto.
  - rewrite elem_of_cons, IH, !elem_of_cons. tauto.
Qed.

Lemma unique_sorted_NoDup (R : relation Position) (l : list Position) :
  (forall x y, R x y -> R y x -> x = y) ->
  StronglySorted R l -> NoDup (unique l).
Proof.
  intros Hanti Hs. induction Hs as [|a l Hs IH Hall]; [constructor|].
  destruct l as [|b rest]; [apply NoDup_singleton|].
  change (unique (a :: b :: rest))
    with (if decide (a = b) then unique (b :: rest)
          else a :: unique (b :: rest)).
  destruct (decide (a = b)) as [->|Hne]; [exact IH|].
  apply NoDup_cons. split; [|exact IH].
  rewrite unique_elem_of. intros Hin.
  apply elem_of_cons in Hin as [Hin|Hin]; [exact (Hne Hin)|].
  apply Hne, Hanti.
  - apply Forall_cons in Hall as [Hab _]. exact Hab.
  - apply StronglySorted_inv in Hs as [_ Hb].
    rewrite Forall_forall in Hb. apply Hb. exact Hin.
Qed.

End References.

(** X21: GetReferencedCells of a formula reports the positions GetCells
    reports, each at least once, and never the same position twice in a
    row; when GetCells reports them in the order of a relation in which
    two distinct positions never precede each other, each is reported
    exactly once.  Equal positions that are not neighbours both stay. *)
Theorem GetReferencedCells_drops_adjacent_repeats (api : FormulaAPI)
    (ast : FormulaAST) (R : relation Position) :
  (forall x y, R x y -> R y x -> x = y) ->
  StronglySorted R (GetCells ast) ->
  NoDup (Formula_GetReferencedCells ast) /\
  (forall x, x ∈ Formula_GetReferencedCells ast <-> x ∈ GetCells ast) /\
  (forall a b : Position, a <> b -> unique [a; b; b; a] = [a; b; a]).
Proof.
  intros Hanti Hs. unfold Formula_GetReferencedCells.
  split; [apply (unique_sorted_NoDup R _ Hanti Hs)|].
  split; [intros x; apply unique_elem_of|].
  intros a b Hne. simpl.
  rewrite (decide_False (P := a = b)) by exact Hne.
  rewrite (decide_True (P := b = b)) by reflexivity.
  rewrite (decide_False (P := b = a)) by (intros E; apply Hne; symmetry; exact E).
  reflexivity.
Qed.

Lemma GetReferencedCells_drops_adjacent_repeats_witness :
  (forall x y, MoreScenarios.position_le x y ->
               MoreScenarios.position_le y x -> x = y) /\
  StronglySorted MoreScenarios.position_le
    (GetCells (SampleFormula.EAdd
                 (SampleFormula.EAdd (SampleFormula.ECell SampleFormula.B1)
                                     (SampleFormula.ECell SampleFormula.A1))
                 (SampleFormula.ECell SampleFormula.B1))) /\
  NoDup (Formula_GetReferencedCells
           (SampleFormula.EAdd
              (SampleFormula.EAdd (SampleFormula.ECell SampleFormula.B1)
                                  (SampleFormula.ECell SampleFormula.A1))
              (SampleFormula.ECell SampleFormula.B1))) /\
  (forall x,
     x ∈ Formula_GetReferencedCells
           (SampleFormula.EAdd
              (SampleFormula.EAdd (SampleFormula.ECell SampleFormula.B1)
                                  (SampleFormula.ECell SampleFormula.A1))
              (SampleFormula.ECell SampleFormula.B1)) <->
     x ∈ GetCells
           (SampleFormula.EAdd
              (SampleFormula.EAdd (SampleFormula.ECell SampleFormula.B1)
                                  (SampleFormula.ECell SampleFormula.A1))
              (SampleFormula.ECell SampleFormula.B1))) /\
  (forall a b : Position, a <> b -> unique [a; b; b; a] = [a; b; a]).
Proof.
  assert (H1 : forall x y, MoreScenarios.position_le x y ->
                           MoreScenarios.position_le y x -> x = y).
  { intros [r1 c1] [r2 c2]. unfold MoreScenarios.position_le,
      SampleFormula.position_leb. simpl. intros Ha Hb.
    apply orb_true_iff in Ha. apply orb_true_iff in Hb.
    rewrite !andb_true_iff, !Z.ltb_lt, !Z.eqb_eq, !Z.leb_le in Ha, Hb.
    assert (r1 = r2) by lia. assert (c1 = c2) by lia. congruence. }
  assert (H2 : StronglySorted MoreScenarios.position_le
    (GetCells (SampleFormula.EAdd
                 (SampleFormula.EAdd (SampleFormula.ECell SampleFormula.B1)
                                     (SampleFormula.ECell SampleFormula.A1))
                 (SampleFormula.ECell SampleFormula.B1)))).
  { repeat constructor. }
  split; [exact H1|]. split; [exact H2|].
  exact (GetReferencedCells_drops_adjacent_repeats SampleFormula.api _ _ H1 H2).
Defined.

(** X22: PositionHasher gives two distinct valid positions two distinct
    numbers, and on a valid position its product and sum stay inside the
    range of [int]. *)
Theorem PositionHasher_separates_valid_positions (p q : Position) :
  IsValid p = true -> IsValid q = true ->
  0 <= PositionHasher p < 2 ^ 31 /\
  (PositionHasher p = PositionHasher q -> p = q).
Proof.
  unfold IsValid, PositionHasher, MAX_ROWS, MAX_COLS.
  destruct p as [r1 c1], q as [r2 c2]. simpl.
  rewrite !andb_true_iff, !Z.leb_le, !Z.ltb_lt.
  intros (((A1 & A2) & A3) & A4) (((B1 & B2) & B3) & B4).
  split; [lia|]. intros H.
  assert (r1 = r2) by lia. assert (c1 = c2) by lia. congruence.
Qed.

Lemma PositionHasher_separates_valid_positions_witness :
  IsValid SampleFormula.Z9 = true /\ IsValid SampleFormula.B2 = true /\
  0 <= PositionHasher SampleFormula.Z9 < 2 ^ 31 /\
  (PositionHasher SampleFormula.Z9 = PositionHasher SampleFormula.B2 ->
   SampleFormula.Z9 = SampleFormula.B2).
Proof.
  split; [reflexivity|]. split; [reflexivity|].
  exact (PositionHasher_separates_valid_positions SampleFormula.Z9
           SampleFormula.B2 eq_refl eq_refl).
Defined.


(* ===================================================================== *)
(** ** What PrintValues leaves behind                                     *)
(* ===================================================================== *)

Section PrintValuesFacts.
Context {api : FormulaAPI}.
Variable print_double : float -> string.
Variable FormulaError_ToString : FormulaError -> string.

Lemma cached_of_trans (s0 s1 s2 : Sheet) :
  cached_of s0 s1 -> cached_of s1 s2 -> cached_of s0 s2.
Proof.
  intros (Hg1 & Hs1 & Hl1 & Hc1) (Hg2 & Hs2 & Hl2 & Hc2).
  split; [congruence|]. split; [congruence|]. split; [congruence|].
  intros q Hq.
  destruct (Hc1 q Hq) as [E1|(c1 & v1 & A1 & B1 & T1)];
    destruct (Hc2 q Hq) as [E2|(c2 & v2 & A2 & B2 & T2)].
  - left. congruence.
  - right. exists c2, v2. split; [congruence|]. split; [exact B2|exact T2].
  - right. exists c1, v1. split; [exact A1|]. split; [congruence|exact T1].
  - right. exists c1, v2. split; [exact A1|].
    rewrite B1 in A2. injection A2 as <-. simpl in B2, T2.
    split; [exact B2|exact T2].
Qed.

(** A cache that holds a value still holds one after some caches were
    filled, and a slot that was absent is still absent. *)
Lemma cached_of_keeps (s0 s : Sheet) (q : Position) :
  cached_of s0 s -> nonneg q ->
  (cell_at (cells_ s0) q = None -> cell_at (cells_ s) q = None) /\
  ((exists c, cell_at (cells_ s0) q = Some c /\ is_Some (cache_ c)) ->
   exists c, cell_at (cells_ s) q = Some c /\ is_Some (cache_ c)).
Proof.
  intros (_ & _ & _ & Hc) Hq.
  destruct (Hc q Hq) as [E|(c & v & A & B & _)].
  - rewrite E. split; [tauto|]. intros H. exact H.
  - split; [rewrite A; discriminate|]. intros _.
    exists (mkCell (impl_ c) (Some v)). split; [exact B|]. simpl. eauto.
Qed.

(** [Cell::GetValue], when it returns, leaves the value in the cache. *)
Lemma Cell_GetValue_Done_cached (fuel : nat) (pos : Position) (v : Value)
    (s s' : Sheet) :
  nonneg pos ->
  Cell_GetValue fuel pos s = Done v s' ->
  cached_of s s' /\
  exists c, cell_at (cells_ s') pos = Some c /\ cache_ c = Some v.
Proof.
  intros Hp H.
  split.
  { pose proof (Cell_GetValue_triple s fuel pos s (cached_of_refl s)) as T.
    rewrite H in T. exact T. }
  destruct fuel as [|fuel]; [discriminate|]. simpl in H.
  apply bind_Done in H as (o & s0 & Hget & H).
  rewrite GetConcreteCell_nonneg in Hget by exact Hp.
  injection Hget as <- <-.
  destruct (cell_at (cells_ s) pos) as [c|] eqn:Hc; [|discriminate].
  destruct (cache_ c) as [v0|] eqn:Hcache.
  - injection H as <- <-. exists c. split; [exact Hc|exact Hcache].
  - apply bind_Done in H as (v1 & s1 & _ & H).
    apply bind_Done in H as (u & s2 & Hst & H). injection H as <- <-.
    unfold store_cache in Hst.
    apply bind_Done in Hst as (s3 & s4 & Hg & Hst). injection Hg as <- <-.
    apply bind_Done in Hst as (r & s4 & Hr & Hst).
    apply check_Done in Hr as [Hr ->].
    apply bind_Done in Hst as (sl & s4 & Hsl & Hst).
    apply check_Done in Hsl as [Hsl ->].
    destruct sl as [c1|]; [|discriminate].
    unfold set_cells, mbind, M_bind, get, put in Hst.
    injection Hst as _ Hs2. subst s2.
    apply vec_at_Good in Hr as [_ Hr]. apply vec_at_Good in Hsl as [_ Hsl].
    exists (mkCell (impl_ c1) (Some v1)). split; [|reflexivity].
    cbn [cells_].
    rewrite (cell_at_rewrite _ pos r) by
      (try assumption; apply lookup_lt_Some in Hsl; exact Hsl).
    rewrite decide_True by reflexivity. reflexivity.
Qed.

(** One row of [PrintValues]: only caches are written, and the stored
    cells of the columns it went through hold a value afterwards. *)
Lemma print_value_row_Done (fuel : nat) (r : nat) (n : nat) :
  forall (c : nat) (out : string) (s s' : Sheet),
  print_value_row print_double FormulaError_ToString fuel r c n s
    = Done out s' ->
  cached_of s s' /\
  forall j cell, (c <= j < c + n)%nat ->
    cell_at (cells_ s') (mkPos (Z.of_nat r) (Z.of_nat j)) = Some cell ->
    is_Some (cache_ cell).
Proof.
  induction n as [|n IH]; intros c out s s' H.
  - injection H as _ <-. split; [apply cached_of_refl|]. intros j cell Hj. lia.
  - simpl in H. apply bind_Done in H as (s0 & s0' & Hg & H).
    injection Hg as <- <-.
    apply bind_Done in H as (field & s1 & Hf & H).
    apply bind_Done in H as (rest & s2 & Hrest & H). injection H as _ <-.
    assert (Hpos : nonneg (mkPos (Z.of_nat r) (Z.of_nat c)))
      by (split; simpl; lia).
    assert (Hat : cell_at (cells_ s) (mkPos (Z.of_nat r) (Z.of_nat c))
                  = slot (cells_ s) r c).
    { unfold cell_at. simpl. rewrite !Nat2Z.id. reflexivity. }
    assert (H01 : cached_of s s1 /\
              forall cell,
                cell_at (cells_ s1) (mkPos (Z.of_nat r) (Z.of_nat c))
                  = Some cell -> is_Some (cache_ cell)).
    { destruct (slot (cells_ s) r c) as [c0|] eqn:Hslot.
      - apply bind_Done in Hf as (v & s3 & Hv & Hf). injection Hf as _ <-.
        destruct (Cell_GetValue_Done_cached fuel _ v s s3 Hpos Hv)
          as (Hc & c1 & Hc1 & Hv1).
        split; [exact Hc|]. intros cell Hcell. rewrite Hc1 in Hcell.
        injection Hcell as <-. rewrite Hv1. eauto.
      - injection Hf as _ <-. split; [apply cached_of_refl|].
        intros cell Hcell. rewrite Hat in Hcell. discriminate. }
    destruct H01 as [Hc01 Hdone].
    destruct (IH (S c) rest s1 s2 Hrest) as [Hc12 Hlater].
    split; [eapply cached_of_trans; eassumption|].
    intros j cell Hj Hcell.
    destruct (decide (j = c)) as [->|Hne]; [|apply (Hlater j cell); [lia|exact Hcell]].
    destruct (cell_at (cells_ s1) (mkPos (Z.of_nat r) (Z.of_nat c)))
      as [c1|] eqn:Hc1.
    + destruct (proj2 (cached_of_keeps s1 s2 _ Hc12 Hpos)) as (c2 & Hc2 & Hs2).
      { exists c1. split; [exact Hc1|apply (Hdone c1 eq_refl)]. }
      rewrite Hc2 in Hcell. injection Hcell as <-. exact Hs2.
    + rewrite (proj1 (cached_of_keeps s1 s2 _ Hc12 Hpos) Hc1) in Hcell.
      discriminate.
Qed.


(** The rows of [PrintValues]. *)
Lemma print_value_rows_Done (fuel : nat) (ncols : nat) (n : nat) :
  forall (r : nat) (out : string) (s s' : Sheet),
  print_value_rows print_double FormulaError_ToString fuel ncols r n s
    = Done out s' ->
  cached_of s s' /\
  forall i j cell, (r <= i < r + n)%nat -> (j < ncols)%nat ->
    cell_at (cells_ s') (mkPos (Z.of_nat i) (Z.of_nat j)) = Some cell ->
    is_Some (cache_ cell).
Proof.
  induction n as [|n IH]; intros r out s s' H.
  - injection H as _ <-. split; [apply cached_of_refl|]. intros i j cell Hi. lia.
  - simpl in H. apply bind_Done in H as (s0 & s0' & Hg & H).
    injection Hg as <- <-.
    apply bind_Done in H as (rw & s0 & Hrw & H).
    apply check_Done in Hrw as [_ ->].
    apply bind_Done in H as (line & s1 & Hline & H).
    apply bind_Done in H as (rest & s2 & Hrest & H). injection H as _ <-.
    destruct (print_value_row_Done fuel r ncols 0 line s s1 Hline)
      as [Hc01 Hrow].
    destruct (IH (S r) rest s1 s2 Hrest) as [Hc12 Hlater].
    split; [eapply cached_of_trans; eassumption|].
    intros i j cell Hi Hj Hcell.
    destruct (decide (i = r)) as [->|Hne];
      [|apply (Hlater i j cell); [lia|exact Hj|exact Hcell]].
    assert (Hpos : nonneg (mkPos (Z.of_nat r) (Z.of_nat j)))
      by (split; simpl; lia).
    destruct (cell_at (cells_ s1) (mkPos (Z.of_nat r) (Z.of_nat j)))
      as [c1|] eqn:Hc1.
    + destruct (proj2 (cached_of_keeps s1 s2 _ Hc12 Hpos)) as (c2 & Hc2 & Hs2).
      { exists c1. split; [exact Hc1|]. apply (Hrow j c1); [lia|exact Hc1]. }
      rewrite Hc2 in Hcell. injection Hcell as <-. exact Hs2.
    + rewrite (proj1 (cached_of_keeps s1 s2 _ Hc12 Hpos) Hc1) in Hcell.
      discriminate.
Qed.



Lemma fields_from_later (field : nat -> string) (n c : nat) :
  fields_from field (S c) n =
  fold_right (fun x acc => String.append tab (String.append x acc))
    EmptyString (map field (seq (S c) n)).
Proof.
  revert c. induction n as [|n IH]; intros c; [reflexivity|].
  simpl. rewrite IH. reflexivity.
Qed.

Lemma fields_from_concat (field : nat -> string) (n : nat) :
  fields_from field 0 n = String.concat tab (map field (seq 0 n)).
Proof.
  destruct n as [|n]; [reflexivity|].
  change (seq 0 (S n)) with (0%nat :: seq 1 n).
  rewrite map_cons, concat_tab. simpl. rewrite fields_from_later. reflexivity.
Qed.

Lemma fields_from_ext (f g : nat -> string) (n : nat) :
  (forall j, f j = g j) -> forall c, fields_from f c n = fields_from g c n.
Proof.
  intros H. induction n as [|n IH]; intros c; [reflexivity|].
  simpl. rewrite H, IH. reflexivity.
Qed.

Lemma text_only_cached_of (s0 s : Sheet) :
  cached_of s0 s -> text_only s0 -> text_only s.
Proof.
  intros Hc Ht p c Hp Hcell.
  destruct (cached_of_impl s0 s p c Hc Hp Hcell) as (c0 & Hc0 & Hi).
  rewrite <- Hi. apply (Ht p c0 Hp Hc0).
Qed.

Lemma value_text_at_cached_of (s0 s : Sheet) (r j : nat) :
  cached_of s0 s ->
  value_text_at (cells_ s) r j = value_text_at (cells_ s0) r j.
Proof.
  intros (_ & _ & _ & Hc). unfold value_text_at.
  assert (Hp : nonneg (mkPos (Z.of_nat r) (Z.of_nat j)))
    by (split; simpl; lia).
  specialize (Hc _ Hp). unfold cell_at in Hc. simpl in Hc.
  rewrite !Nat2Z.id in Hc.
  destruct Hc as [E|(c & v & A & B & _)]; [rewrite E; reflexivity|].
  rewrite A, B. reflexivity.
Qed.

(** [Cell::GetValue] on a stored Text cell whose cache is sound. *)
Lemma Cell_GetValue_text (fuel : nat) (pos : Position) (c : Cell) (t : string)
    (s : Sheet) :
  nonneg pos -> cell_at (cells_ s) pos = Some c ->
  impl_ c = TextImpl t -> cache_sound c ->
  exists s', Cell_GetValue (S fuel) pos s = Done (TextImpl_GetValue t) s' /\
             cached_of s s'.
Proof.
  intros Hp Hc Hi Hs.
  assert (E : exists s', Cell_GetValue (S fuel) pos s
                         = Done (TextImpl_GetValue t) s').
  { simpl. unfold mbind, M_bind.
    rewrite GetConcreteCell_nonneg by exact Hp. rewrite Hc.
    unfold cache_sound in Hs. rewrite Hi in Hs.
    destruct Hs as [Hn|Hn]; rewrite Hn; [|eexists; reflexivity].
    rewrite Hi. simpl.
    unfold mret, M_ret, store_cache, mbind, M_bind, get.
    unfold cell_at, slot in Hc.
    destruct (cells_ s !! Z.to_nat (row pos)) as [r|] eqn:Hr; [|discriminate].
    destruct (r !! Z.to_nat (col pos)) as [[c'|]|] eqn:Hcol; try discriminate.
    rewrite (proj2 (vec_at_Good (cells_ s) (row pos) r))
      by (split; [apply Hp|exact Hr]).
    simpl.
    rewrite (proj2 (vec_at_Good r (col pos) (Some c')))
      by (split; [apply Hp|exact Hcol]).
    simpl. eexists. reflexivity. }
  destruct E as [s' E]. exists s'. split; [exact E|].
  pose proof (Cell_GetValue_triple s (S fuel) pos s (cached_of_refl s)) as T.
  rewrite E in T. exact T.
Qed.

(** One row of [PrintValues] on a sheet of Text cells. *)
Lemma print_value_row_texts (fuel : nat) (r : nat) (n : nat) :
  forall (c : nat) (s : Sheet),
  invariant s -> text_only s ->
  exists s',
    print_value_row print_double FormulaError_ToString (S fuel) r c n s
      = Done (fields_from (value_text_at (cells_ s) r) c n) s' /\
    cached_of s s'.
Proof.
  induction n as [|n IH]; intros c s Hinv Ht.
  - exists s. split; [reflexivity|apply cached_of_refl].
  - assert (Hpos : nonneg (mkPos (Z.of_nat r) (Z.of_nat c)))
      by (split; simpl; lia).
    assert (Hat : cell_at (cells_ s) (mkPos (Z.of_nat r) (Z.of_nat c))
                  = slot (cells_ s) r c).
    { unfold cell_at. simpl. rewrite !Nat2Z.id. reflexivity. }
    assert (Hfield : exists s1,
      match slot (cells_ s) r c with
      | Some _ =>
          v ← Cell_GetValue (S fuel) (mkPos (Z.of_nat r) (Z.of_nat c));
          mret (show_value print_double FormulaError_ToString v)
      | None => mret EmptyString
      end s = Done (value_text_at (cells_ s) r c) s1 /\ cached_of s s1).
    { unfold value_text_at.
      destruct (slot (cells_ s) r c) as [cell|] eqn:Hslot.
      - destruct (Ht _ cell Hpos Hat) as [t Hi].
        destruct Hinv as (Hsound & _).
        destruct (Cell_GetValue_text fuel _ cell t s Hpos Hat Hi
                    (Hsound _ cell Hat)) as (s1 & E & Hc).
        exists s1. split; [|exact Hc].
        unfold mbind, M_bind. rewrite E. unfold mret, M_ret. f_equal.
        rewrite Hi. unfold TextImpl_GetValue.
        destruct (starts_with ESCAPE_SIGN t); reflexivity.
      - exists s. split; [reflexivity|apply cached_of_refl]. }
    destruct Hfield as (s1 & E1 & Hc1).
    destruct (IH (S c) s1) as (s2 & E2 & Hc2).
    + apply (cached_of_invariant s s1 Hinv Hc1).
    + apply (text_only_cached_of s s1 Hc1 Ht).
    + exists s2. split; [|eapply cached_of_trans; eassumption].
      cbn [print_value_row]. unfold mbind at 1, M_bind at 1, get.
      unfold mbind at 1, M_bind at 1. rewrite E1.
      unfold mbind at 1, M_bind at 1. rewrite E2.
      unfold mret, M_ret. f_equal. cbn [fields_from]. f_equal. f_equal.
      apply fields_from_ext. intros j.
      apply (value_text_at_cached_of s s1 r j Hc1).
Qed.

(** The rows of [PrintValues] on a sheet of Text cells. *)
Lemma print_value_rows_texts (fuel : nat) (ncols : nat) (n : nat) :
  forall (r : nat) (s : Sheet),
  invariant s -> text_only s -> (r + n <= length (cells_ s))%nat ->
  exists s',
    print_value_rows print_double FormulaError_ToString (S fuel) ncols r n s
      = Done (fold_right String.append EmptyString
                (map (fun i => line_of (map (value_text_at (cells_ s) i)
                                          (seq 0 ncols)))
                     (seq r n))) s' /\
    cached_of s s'.
Proof.
  induction n as [|n IH]; intros r s Hinv Ht Hle.
  - exists s. split; [reflexivity|apply cached_of_refl].
  - destruct (lookup_lt_is_Some_2 (cells_ s) r) as [rw Hrw]; [lia|].
    destruct (print_value_row_texts fuel r ncols 0 s Hinv Ht)
      as (s1 & E1 & Hc1).
    destruct (IH (S r) s1) as (s2 & E2 & Hc2).
    + apply (cached_of_invariant s s1 Hinv Hc1).
    + apply (text_only_cached_of s s1 Hc1 Ht).
    + destruct Hc1 as (_ & _ & Hl & _). rewrite Hl. lia.
    + exists s2. split; [|eapply cached_of_trans; eassumption].
      cbn [print_value_rows]. unfold mbind at 1, M_bind at 1, get.
      rewrite (proj2 (vec_at_Good (cells_ s) (Z.of_nat r) rw))
        by (split; [lia|rewrite Nat2Z.id; exact Hrw]).
      cbn [check]. unfold mbind at 1, M_bind at 1. cbn [mret M_ret].
      unfold mbind at 1, M_bind at 1. rewrite E1.
      unfold mbind at 1, M_bind at 1. rewrite E2.
      unfold mret, M_ret. f_equal. cbn [seq map fold_right].
      rewrite line_of_append, fields_from_concat. f_equal. f_equal.
      f_equal. apply map_ext_in. intros i _. f_equal.
      apply map_ext. intros j. apply (value_text_at_cached_of s s1 i j Hc1).
Qed.

End PrintValuesFacts.

(** X24: when PrintValues returns on a sheet reached from the new one
    by calls that returned or threw, it has asked every stored cell for
    its value: each of them holds a cached value afterwards; and it has
    written to caches only: the graph, the printable size and the variant
    of every cell are as before. *)
Theorem PrintValues_fills_every_cache (api : FormulaAPI)
    (print_double : float -> string)
    (FormulaError_ToString : FormulaError -> string)
    (fuel : nat) (out : string) (s s' : Sheet) :
  reachable s ->
  PrintValues print_double FormulaError_ToString fuel s = Done out s' ->
  graph_ s' = graph_ s /\
  printable_size_ s' = printable_size_ s /\
  (forall q, nonneg q ->
     impl_ <$> cell_at (cells_ s') q = impl_ <$> cell_at (cells_ s) q) /\
  all_cached s'.
Proof.
  intros Hr H. destruct (reachable_invariant s Hr) as (_ & [_ [Hin _]] & _).
  unfold PrintValues in H. apply bind_Done in H as (s0 & s0' & Hg & H).
  injection Hg as <- <-.
  destruct (print_value_rows_Done print_double FormulaError_ToString
              fuel _ _ 0 out s s' H) as [Hc Hall].
  assert (Himpl : forall q, nonneg q ->
            impl_ <$> cell_at (cells_ s') q = impl_ <$> cell_at (cells_ s) q).
  { destruct Hc as (_ & _ & _ & Hcells). intros q Hq.
    destruct (Hcells q Hq) as [E|(c & v & A & B & _)].
    - rewrite E. reflexivity.
    - rewrite A, B. reflexivity. }
  split; [apply Hc|]. split; [apply Hc|]. split; [exact Himpl|].
  intros p c Hp Hcell.
  assert (Hocc : occupied s p).
  { split; [exact Hp|]. specialize (Himpl p Hp). rewrite Hcell in Himpl.
    destruct (cell_at (cells_ s) p); [eauto|discriminate]. }
  destruct (Hin p Hocc) as [Hrow Hcol]. destruct Hp as [Hp1 Hp2].
  apply (Hall (Z.to_nat (row p)) (Z.to_nat (col p)) c); [lia|lia|].
  rewrite !Z2Nat.id by assumption. destruct p. exact Hcell.
Qed.

Lemma PrintValues_fills_every_cache_witness :
  reachable MoreScenarios.sum_unread /\
  PrintValues PrintScenarios.print_double PrintScenarios.FormulaError_ToString
    4 MoreScenarios.sum_unread
    = Done (PrintScenarios.printed_values MoreScenarios.sum_unread)
        (sheet_after (PrintValues PrintScenarios.print_double
                        PrintScenarios.FormulaError_ToString 4)
           MoreScenarios.sum_unread) /\
  graph_ (sheet_after (PrintValues PrintScenarios.print_double
                         PrintScenarios.FormulaError_ToString 4)
            MoreScenarios.sum_unread) = graph_ MoreScenarios.sum_unread /\
  printable_size_ (sheet_after (PrintValues PrintScenarios.print_double
                                  PrintScenarios.FormulaError_ToString 4)
                     MoreScenarios.sum_unread)
    = printable_size_ MoreScenarios.sum_unread /\
  (forall q, nonneg q ->
     impl_ <$> cell_at (cells_ (sheet_after
                                  (PrintValues PrintScenarios.print_double
                                     PrintScenarios.FormulaError_ToString 4)
                                  MoreScenarios.sum_unread)) q
     = impl_ <$> cell_at (cells_ MoreScenarios.sum_unread) q) /\
  all_cached (sheet_after (PrintValues PrintScenarios.print_double
                             PrintScenarios.FormulaError_ToString 4)
                MoreScenarios.sum_unread).
Proof.
  assert (H1 : reachable MoreScenarios.sum_unread).
  { apply (reachable_script 4 [CallSetCell SampleFormula.A1 "2";
                                CallSetCell SampleFormula.B1 "=A1+3"]
             Sheet_new); [apply reachable_new|by_evaluation]. }
  assert (H2 : PrintValues PrintScenarios.print_double
                 PrintScenarios.FormulaError_ToString 4
                 MoreScenarios.sum_unread
    = Done (PrintScenarios.printed_values MoreScenarios.sum_unread)
        (sheet_after (PrintValues PrintScenarios.print_double
                        PrintScenarios.FormulaError_ToString 4)
           MoreScenarios.sum_unread)) by by_evaluation.
  split; [exact H1|]. split; [exact H2|].
  exact (PrintValues_fills_every_cache SampleFormula.api _ _ 4 _ _ _ H1 H2).
Defined.

(** X27: on a sheet reached from the new one by calls that returned or
    threw and that stores Text cells only, PrintValues returns and writes
    one line for each row of the printable region: the value of each
    slot, which is its text without a leading escape sign, nothing for an
    absent slot, a tab between two neighbours and a newline at the end. *)
Theorem PrintValues_of_texts (api : FormulaAPI)
    (print_double : float -> string)
    (FormulaError_ToString : FormulaError -> string)
    (fuel : nat) (s : Sheet) :
  reachable s -> text_only s ->
  exists s',
    PrintValues print_double FormulaError_ToString (S fuel) s =
    Done (table_of (value_text_at (cells_ s))
            (Z.to_nat (rows (printable_size_ s)))
            (Z.to_nat (cols (printable_size_ s)))) s'.
Proof.
  intros Hr Ht. pose proof (reachable_invariant s Hr) as Hinv.
  destruct Hinv as (Hs & [Htight Hb] & Hw).
  unfold storage_tight in Htight.
  destruct (print_value_rows_texts print_double FormulaError_ToString fuel
              (Z.to_nat (cols (printable_size_ s)))
              (Z.to_nat (rows (printable_size_ s))) 0 s)
    as (s' & E & _).
  - exact (conj Hs (conj (conj Htight Hb) Hw)).
  - exact Ht.
  - lia.
  - exists s'. unfold PrintValues, mbind, M_bind, get. exact E.
Qed.

Lemma PrintValues_of_texts_witness :
  reachable PrintScenarios.texts /\ text_only PrintScenarios.texts /\
  exists s',
    PrintValues PrintScenarios.print_double
      PrintScenarios.FormulaError_ToString 1 PrintScenarios.texts =
    Done (table_of (value_text_at (cells_ PrintScenarios.texts))
            (Z.to_nat (rows (printable_size_ PrintScenarios.texts)))
            (Z.to_nat (cols (printable_size_ PrintScenarios.texts)))) s'.
Proof.
  assert (H1 : reachable PrintScenarios.texts).
  { apply (reachable_script 4 PrintScenarios.texts_calls Sheet_new);
      [apply reachable_new|by_evaluation]. }
  assert (H2 : text_only PrintScenarios.texts).
  { assert (E : cells_ PrintScenarios.texts =
                [[Some (mkCell (TextImpl "'=1+2") None)];
                 [None; Some (mkCell (TextImpl "y") None)]])
      by by_evaluation.
    intros p c _. unfold cell_at, slot. rewrite E.
    destruct (Z.to_nat (row p)) as [|[|i]];
      destruct (Z.to_nat (col p)) as [|[|j]]; simpl;
      intros H; try discriminate; injection H as <-; eexists; reflexivity. }
  split; [exact H1|]. split; [exact H2|].
  exact (PrintValues_of_texts SampleFormula.api _ _ 0 _ H1 H2).
Defined.
(* ===================================================================== *)
(** ** GetValue stays inside the grid                                     *)
(* ===================================================================== *)

Section SafeEvaluation.
Context {api : FormulaAPI}.

Lemma safe_bind {A B : Type} (m : M A) (f : A -> M B) (s : Sheet) :
  safe_outcome (m s) ->
  (forall a s1, m s = Done a s1 -> safe_outcome (f a s1)) ->
  safe_outcome ((m ≫= f) s).
Proof.
  intros Hm Hf. unfold mbind, M_bind.
  destruct (m s) as [a s1|e s1|fl]; [apply (Hf a s1 eq_refl)|exact Hm|exact Hm].
Qed.

Lemma execute_safe (getter : Position -> M Value) :
  (forall p s, safe_outcome (getter p s)) ->
  forall e s, safe_outcome (execute getter e s).
Proof.
  intros Hg. induction e as [d|err|p k IH]; intros s; simpl; [exact I|exact I|].
  apply safe_bind; [apply Hg|]. intros v s1 _. apply IH.
Qed.

Lemma cell_value_getter_safe (cell_value : Position -> M Value) :
  (forall p s, nonneg p -> is_Some (cell_at (cells_ s) p) ->
               safe_outcome (cell_value p s)) ->
  forall p s, safe_outcome (cell_value_getter cell_value p s).
Proof.
  intros H p s. unfold cell_value_getter, mbind, M_bind.
  destruct (IsValid p) eqn:Hv.
  - rewrite GetCell_valid by exact Hv.
    destruct (cell_at (cells_ s) p) as [c|] eqn:Hc; [|exact I].
    apply H; [apply IsValid_nonneg, Hv|rewrite Hc; eauto].
  - rewrite GetCell_invalid by exact Hv. reflexivity.
Qed.

Lemma store_cache_returns (pos : Position) (v : Value) (s : Sheet) :
  nonneg pos -> is_Some (cell_at (cells_ s) pos) ->
  exists s', store_cache pos v s = Done tt s'.
Proof.
  intros Hp [c Hc]. unfold store_cache, mbind, M_bind, get.
  unfold cell_at, slot in Hc.
  destruct (cells_ s !! Z.to_nat (row pos)) as [r|] eqn:Hr; [|discriminate].
  destruct (r !! Z.to_nat (col pos)) as [[c'|]|] eqn:Hcol; try discriminate.
  rewrite (proj2 (vec_at_Good (cells_ s) (row pos) r))
    by (split; [apply Hp|exact Hr]).
  simpl.
  rewrite (proj2 (vec_at_Good r (col pos) (Some c')))
    by (split; [apply Hp|exact Hcol]).
  simpl. eexists. reflexivity.
Qed.

(** [Cell::GetValue] on a stored cell. *)
Lemma Cell_GetValue_safe (fuel : nat) :
  forall pos s, nonneg pos -> is_Some (cell_at (cells_ s) pos) ->
  safe_outcome (Cell_GetValue fuel pos s).
Proof.
  induction fuel as [|fuel IH]; intros pos s Hp [c Hc]; [reflexivity|].
  simpl. unfold mbind at 1, M_bind at 1.
  rewrite GetConcreteCell_nonneg by exact Hp. rewrite Hc.
  destruct (cache_ c) as [v|]; [exact I|].
  apply safe_bind.
  - destruct (impl_ c) as [|t|f]; simpl; [exact I|exact I|].
    apply safe_bind.
    + unfold Formula_Evaluate. apply execute_safe.
      apply cell_value_getter_safe, IH.
    + intros [d|err] s1 _; exact I.
  - intros v s1 Hval.
    pose proof (Impl_GetValue_triple s (Cell_GetValue fuel) (impl_ c)
                  (Cell_GetValue_triple s fuel) s (cached_of_refl s)) as T.
    rewrite Hval in T. destruct T as [Hc1 _].
    assert (Hsome : is_Some (cell_at (cells_ s1) pos)).
    { destruct Hc1 as (_ & _ & _ & Hcells).
      destruct (Hcells pos Hp) as [E|(c0 & v0 & _ & B & _)];
        [rewrite E, Hc; eauto|rewrite B; eauto]. }
    destruct (store_cache_returns pos v s1 Hp Hsome) as [s2 E].
    unfold mbind, M_bind. rewrite E. exact I.
Qed.

End SafeEvaluation.

(** X29: GetValue on a cell that GetCell returns never reads outside
    the stored rows, through a null cell pointer or past a failed assert,
    whatever the sheet holds: it returns, or it throws
    InvalidPositionException (a formula asked for a position that is not
    valid), or the recursion through the referenced cells does not
    end. *)
Theorem GetValue_stays_inside_the_grid (api : FormulaAPI) (fuel : nat)
    (pos : Position) (c : Cell) (s : Sheet) :
  GetCell pos s = Done (Some c) s ->
  safe_outcome (GetValue fuel pos s).
Proof.
  intros H. pose proof H as H0.
  apply GetCell_Done in H0 as (Hv & _ & Hc).
  unfold GetValue, mbind, M_bind. rewrite H.
  apply Cell_GetValue_safe; [apply IsValid_nonneg, Hv|].
  rewrite <- Hc. eauto.
Qed.

Lemma GetValue_stays_inside_the_grid_witness :
  GetCell SampleFormula.B1 MoreScenarios.sum_unread
    = Done (Some (mkCell (FormulaImpl
                            (SampleFormula.EAdd
                               (SampleFormula.ECell SampleFormula.A1)
                               (SampleFormula.ENum 3))) None))
        MoreScenarios.sum_unread /\
  safe_outcome (GetValue 4 SampleFormula.B1 MoreScenarios.sum_unread).
Proof.
  assert (H : GetCell SampleFormula.B1 MoreScenarios.sum_unread
    = Done (Some (mkCell (FormulaImpl
                            (SampleFormula.EAdd
                               (SampleFormula.ECell SampleFormula.A1)
                               (SampleFormula.ENum 3))) None))
        MoreScenarios.sum_unread) by by_evaluation.
  split; [exact H|].
  exact (GetValue_stays_inside_the_grid SampleFormula.api 4 _ _ _ H).
Defined.

(** X30: in a graph whose two edge sets mirror each other, AddDependency
    of an edge that is there and RemoveDependency of an edge that is not
    there both give back the graph as it was, node for node. *)
Theorem repeated_dependency_changes_nothing (g : DependencyGraph)
    (a b : Position) :
  consistent g -> is_Some (g !! a) -> is_Some (g !! b) ->
  (b ∈ forward g a -> AddDependency g a b = Good g) /\
  (b ∉ forward g a -> RemoveDependency g a b = Good g).
Proof.
  intros Hc Ha Hb.
  pose proof (proj2 (GraphFacts.Contains_true g a) Ha) as Ca.
  pose proof (proj2 (GraphFacts.Contains_true g b) Hb) as Cb.
  destruct Ha as [na Hna]. destruct Hb as [nb Hnb].
  split; intros Hin.
  - assert (Hba : a ∈ backward g b) by (apply Hc, Hin).
    unfold forward in Hin. unfold backward in Hba.
    rewrite Hna in Hin. rewrite Hnb in Hba.
    unfold AddDependency. rewrite Ca, Cb. simpl. f_equal.
    apply map_eq. intros k. rewrite !lookup_alter.
    repeat case_decide; subst; rewrite ?Hna, ?Hnb; simpl; try reflexivity;
      try congruence.
    all: try (rewrite Hna in Hnb; injection Hnb as <-).
    all: f_equal; try destruct na as [c fw bw]; try destruct nb as [c' fw' bw'];
      unfold insert_backward, insert_forward; simpl in *; f_equal; set_solver.
  - assert (Hba : a ∉ backward g b) by (intros H; apply Hin, Hc, H).
    unfold forward in Hin. unfold backward in Hba.
    rewrite Hna in Hin. rewrite Hnb in Hba.
    unfold RemoveDependency. rewrite Ca, Cb. simpl. f_equal.
    apply map_eq. intros k. rewrite !lookup_alter.
    repeat case_decide; subst; rewrite ?Hna, ?Hnb; simpl; try reflexivity;
      try congruence.
    all: try (rewrite Hna in Hnb; injection Hnb as <-).
    all: f_equal; try destruct na as [c fw bw]; try destruct nb as [c' fw' bw'];
      unfold erase_backward, erase_forward; simpl in *; f_equal; set_solver.
Qed.

Lemma repeated_dependency_changes_nothing_witness :
  consistent GraphScenarios.triangle /\
  is_Some (GraphScenarios.triangle !! SampleFormula.A1) /\
  is_Some (GraphScenarios.triangle !! SampleFormula.B1) /\
  (SampleFormula.B1 ∈ forward GraphScenarios.triangle SampleFormula.A1 ->
   AddDependency GraphScenarios.triangle SampleFormula.A1 SampleFormula.B1
     = Good GraphScenarios.triangle) /\
  (SampleFormula.B1 ∉ forward GraphScenarios.triangle SampleFormula.A1 ->
   RemoveDependency GraphScenarios.triangle SampleFormula.A1 SampleFormula.B1
     = Good GraphScenarios.triangle).
Proof.
  assert (H1 : consistent GraphScenarios.triangle).
  { apply (GraphFacts.consistent_run GraphScenarios.triangle_ops empty_graph);
      [exact GraphFacts.consistent_empty|by_evaluation]. }
  assert (H2 : is_Some (GraphScenarios.triangle !! SampleFormula.A1)).
  { apply GraphFacts.Contains_true. by_evaluation. }
  assert (H3 : is_Some (GraphScenarios.triangle !! SampleFormula.B1)).
  { apply GraphFacts.Contains_true. by_evaluation. }
  split; [exact H1|]. split; [exact H2|]. split; [exact H3|].
  exact (repeated_dependency_changes_nothing _ _ _ H1 H2 H3).
Defined.
